(** * Network simulation engine

    A shallow embedding of [backend/app/core/simulation.py]: the topology
    index ([NetworkGraph]), the anomaly policy set ([AnomalyEngine]), the
    packet walker ([_simulate_message]) and the run coordinator
    ([SimulationEngine]).

    Conventions.
    - Python [dict]s whose iteration order is observable (the anomaly table,
      networkx's node and adjacency tables, attribute dictionaries) are
      insertion-ordered association lists; the coordinator's two registries,
      which are only looked up and deleted from, are [gmap]s.
    - Python [float]s are IEEE binary64 primitive floats, Python [int]s are [Z].
    - The [random] module is an oracle indexed by a cursor.
    - An [async def] body is a state-and-exception computation over a [World];
      every [await] that can suspend is an explicit [suspend], at which other
      coroutines may call [stop_simulation].
    - The wall-clock timestamp of an event payload is replaced by a logical
      one, kept next to the event in the journal of broadcasts. *)

From Stdlib Require Import ZArith Floats.
From stdpp Require Import base gmap strings list sorting pretty.

Open Scope Z_scope.

(* The solvers of stdpp clear hypotheses by name; the notice is noise. *)
#[global] Set Warnings "-clear-no-such-hyp".

(** ** Python values, exceptions, results *)

Inductive pyval : Type :=
| PyNone
| PyBool (b : bool)
| PyInt (n : Z)
| PyFloat (x : float)
| PyStr (s : string).

(** [CancelledError] derives from [BaseException]; all the others derive
    from [Exception]. *)
Inductive exn : Type :=
| TypeError
| AttributeError
| ZeroDivisionError
| OverflowError
| IndexError
| NodeNotFound
| NetworkXNoPath
| CancelledError.

Definition is_Exception (e : exn) : bool :=
  match e with CancelledError => false | _ => true end.

Inductive result (A : Type) : Type :=
| Ok (a : A)
| Raise (e : exn).
Arguments Ok {A} a.
Arguments Raise {A} e.

Definition result_bind {A B} (r : result A) (k : A → result B) : result B :=
  match r with Ok a => k a | Raise e => Raise e end.

(** [float(n)] for an [int]: round to nearest, [OverflowError] beyond the
    binary64 range. *)
Definition float_of_Z (n : Z) : result float :=
  let x := SF2Prim (SpecFloat.binary_normalize prec emax n 0 false) in
  if PrimFloat.is_infinity x then Raise OverflowError else Ok x.

(** The float a number stands for when it meets a [float] in arithmetic;
    [bool] is a subclass of [int]. Anything else is a [TypeError]. *)
Definition py_float (v : pyval) : result float :=
  match v with
  | PyFloat x => Ok x
  | PyInt n => float_of_Z n
  | PyBool b => Ok (if b then 1%float else 0%float)
  | PyNone | PyStr _ => Raise TypeError
  end.

(** [x / y] on floats. *)
Definition float_truediv (x y : float) : result float :=
  if PrimFloat.eqb y 0%float then Raise ZeroDivisionError
  else Ok (PrimFloat.div x y).

(** [v / y] for a value [v] and a float [y]. *)
Definition py_truediv (v : pyval) (y : float) : result float :=
  result_bind (py_float v) (λ x, float_truediv x y).

(** [x + v] for a float [x] and a value [v]. *)
Definition py_add (x : float) (v : pyval) : result float :=
  result_bind (py_float v) (λ y, Ok (PrimFloat.add x y)).

(** ** Insertion-ordered dictionaries *)

Section dict.
Context {K V : Type} `{EqDecision K}.

Definition dict : Type := list (K * V).

Fixpoint dict_get (d : dict) (k : K) : option V :=
  match d with
  | [] => None
  | (k', v) :: d' => if bool_decide (k' = k) then Some v else dict_get d' k
  end.

Definition dict_mem (d : dict) (k : K) : bool :=
  match dict_get d k with Some _ => true | None => false end.

(** [d[k] = v]: an existing key keeps its position, a new key goes last. *)
Fixpoint dict_set (d : dict) (k : K) (v : V) : dict :=
  match d with
  | [] => [(k, v)]
  | (k', v') :: d' =>
      if bool_decide (k' = k) then (k, v) :: d' else (k', v') :: dict_set d' k v
  end.

(** [d.update(e)] *)
Definition dict_update (d e : dict) : dict :=
  fold_left (λ acc kv, dict_set acc kv.1 kv.2) e d.

Definition dict_keys (d : dict) : list K := map fst d.
Definition dict_values (d : dict) : list V := map snd d.

End dict.
Arguments dict : clear implicits.

Definition attrs : Type := dict string pyval.

(** ** Persisted entities handed to the engine ([app/models/database.py]) *)

Module Node.
Record t : Type := mk {
  id : Z;
  name : pyval;
  node_type : pyval;
  status : pyval;
  x_position : pyval;
  y_position : pyval
}.
End Node.

Module Connection.
Record t : Type := mk {
  id : Z;
  source_node_id : Z;
  destination_node_id : Z;
  connection_type : pyval;
  bandwidth_mbps : pyval;
  latency_ms : pyval;
  status : pyval
}.
End Connection.

Module Message.
Record t : Type := mk {
  id : Z;
  source_node_id : Z;
  destination_node_id : Z;
  packet_size_bytes : pyval
}.
End Message.

Module Anomaly.
Record t : Type := mk {
  id : Z;
  anomaly_type : string;
  affected_node_id : option Z;
  probability : float;
  parameters : option attrs;
  is_active : bool
}.
End Anomaly.

(** [app/models/schemas.py]: [class AnomalyType(str, Enum)] *)
Inductive AnomalyType : Type :=
| PACKET_LOSS
| DELAY
| CORRUPTION
| WRONG_DELIVERY
| OUT_OF_ORDER
| CONNECTION_LOSS.

Definition AnomalyType_value (k : AnomalyType) : string :=
  match k with
  | PACKET_LOSS => "packet_loss"
  | DELAY => "delay"
  | CORRUPTION => "corruption"
  | WRONG_DELIVERY => "wrong_delivery"
  | OUT_OF_ORDER => "out_of_order"
  | CONNECTION_LOSS => "connection_loss"
  end.

(** [app/core/config.py]: [settings.DEFAULT_PACKET_DELAY_MS] *)
Definition DEFAULT_PACKET_DELAY_MS : Z := 100.

(** ** networkx's undirected [Graph]

    The library is not part of the repository; the definitions below follow
    its documented behaviour (networkx 3.2 and later). [g_node] is the node
    table (node to attribute dictionary), [g_adj] the adjacency table (node
    to neighbour to edge attribute dictionary). *)

Record Graph : Type := {
  g_node : dict Z attrs;
  g_adj : dict Z (dict Z attrs)
}.

Definition empty_graph : Graph := {| g_node := []; g_adj := [] |}.

Definition has_node (g : Graph) (n : Z) : bool := dict_mem (g_node g) n.

(** [G.add_node(n, **attr)] *)
Definition add_node (g : Graph) (n : Z) (attr : attrs) : Graph :=
  match dict_get (g_node g) n with
  | None =>
      {| g_node := dict_set (g_node g) n (dict_update [] attr);
         g_adj := dict_set (g_adj g) n [] |}
  | Some old =>
      {| g_node := dict_set (g_node g) n (dict_update old attr);
         g_adj := g_adj g |}
  end.

(** The adjacency entry [G._adj[u]]. *)
Definition adj_of (g : Graph) (u : Z) : dict Z attrs :=
  default [] (dict_get (g_adj g) u).

(** [G.add_edge(u, v, **attr)]: an endpoint that is not yet a node is
    added with an empty attribute dictionary. *)
Definition add_edge (g : Graph) (u v : Z) (attr : attrs) : Graph :=
  let g1 := if has_node g u then g else add_node g u [] in
  let g2 := if has_node g1 v then g1 else add_node g1 v [] in
  let datadict := dict_update (default [] (dict_get (adj_of g2 u) v)) attr in
  let adj1 := dict_set (g_adj g2) u (dict_set (adj_of g2 u) v datadict) in
  let adj_v := default [] (dict_get adj1 v) in
  {| g_node := g_node g2;
     g_adj := dict_set adj1 v (dict_set adj_v u datadict) |}.

(** [G.has_edge(u, v)] *)
Definition has_edge (g : Graph) (u v : Z) : bool :=
  match dict_get (g_adj g) u with
  | Some nbrs => dict_mem nbrs v
  | None => false
  end.

(** [list(G.nodes())] *)
Definition nodes (g : Graph) : list Z := dict_keys (g_node g).

(** [iter(G[u])] *)
Definition neighbors (g : Graph) (u : Z) : list Z := dict_keys (adj_of g u).

Definition memZ (x : Z) (l : list Z) : bool := existsb (Z.eqb x) l.

(** Depth-first enumeration behind [all_simple_paths]: the continuations,
    after [cur], of the simple paths to [target] that use at most [depth]
    further edges and avoid [visited]. A path stops at its first visit of
    [target]. *)
Fixpoint simple_paths_from (g : Graph) (depth : nat) (visited : list Z)
    (cur target : Z) : list (list Z) :=
  match depth with
  | O => []
  | S d =>
      flat_map
        (λ child,
           if memZ child visited then []
           else if Z.eqb child target then [[child]]
           else map (cons child)
                  (simple_paths_from g d (visited ++ [child]) child target))
        (neighbors g cur)
  end.

(** [list(nx.all_simple_paths(G, source, target, cutoff))] *)
Definition all_simple_paths (g : Graph) (source target : Z) (cutoff : nat)
    : result (list (list Z)) :=
  if negb (has_node g source) then Raise NodeNotFound
  else if negb (has_node g target) then Raise NodeNotFound
  else if Z.eqb source target then Ok [[source]]
  else Ok (map (cons source)
             (simple_paths_from g cutoff [source] source target)).

(** One breadth-first level: every frontier path (stored last node first)
    is extended by each neighbour not seen before. *)
Definition bfs_expand (g : Graph) (frontier : list (list Z)) (seen : list Z)
    : list (list Z) * list Z :=
  fold_left
    (λ st p,
       match p with
       | [] => st
       | u :: _ =>
           fold_left
             (λ st' v,
                if memZ v st'.2 then st'
                else (st'.1 ++ [v :: p], st'.2 ++ [v]))
             (neighbors g u) st
       end)
    frontier ([], seen).

Definition ends_at (target : Z) (p : list Z) : bool :=
  match p with
  | u :: _ => Z.eqb u target
  | [] => false
  end.

Fixpoint bfs (g : Graph) (fuel : nat) (frontier : list (list Z))
    (seen : list Z) (target : Z) : option (list Z) :=
  match fuel with
  | O => None
  | S fuel' =>
      match find (ends_at target) frontier with
      | Some p => Some (rev p)
      | None =>
          match bfs_expand g frontier seen with
          | ([], _) => None
          | (frontier', seen') => bfs g fuel' frontier' seen' target
          end
      end
  end.

(** [nx.shortest_path(G, source, target)] on an unweighted graph: a path
    with the fewest edges. *)
Definition shortest_path (g : Graph) (source target : Z) : result (list Z) :=
  if negb (has_node g source) then Raise NodeNotFound
  else if negb (has_node g target) then Raise NodeNotFound
  else match bfs g (S (length (nodes g))) [[source]] [source] target with
       | Some p => Ok p
       | None => Raise NetworkXNoPath
       end.

(** ** [class NetworkGraph] *)

Record NetworkGraph : Type := { graph : Graph }.

Definition node_attrs (node : Node.t) : attrs :=
  [("name", Node.name node); ("node_type", Node.node_type node);
   ("status", Node.status node); ("x", Node.x_position node);
   ("y", Node.y_position node)]%string.

Definition edge_attrs (connection : Connection.t) : attrs :=
  [("connection_id", PyInt (Connection.id connection));
   ("bandwidth", Connection.bandwidth_mbps connection);
   ("latency", Connection.latency_ms connection);
   ("connection_type", Connection.connection_type connection)]%string.

Definition is_active_status (v : pyval) : bool :=
  match v with
  | PyStr s => String.eqb s "active"
  | _ => false
  end.

Definition add_nodes (g : Graph) (ns : list Node.t) : Graph :=
  fold_left (λ g node, add_node g (Node.id node) (node_attrs node)) ns g.

Definition add_connections (g : Graph) (cs : list Connection.t) : Graph :=
  fold_left
    (λ g connection,
       if is_active_status (Connection.status connection)
       then add_edge g (Connection.source_node_id connection)
              (Connection.destination_node_id connection)
              (edge_attrs connection)
       else g)
    cs g.

(** [NetworkGraph.build_from_session_data]: the graph is cleared first. *)
Definition build_from_session_data (self : NetworkGraph)
    (ns : list Node.t) (connections : list Connection.t) : NetworkGraph :=
  {| graph := add_connections (add_nodes empty_graph ns) connections |}.

(** [try: ... except (nx.NetworkXNoPath, nx.NodeNotFound): ...] *)
Definition no_route (e : exn) : bool :=
  match e with
  | NetworkXNoPath | NodeNotFound => true
  | _ => false
  end.

(** [NetworkGraph.find_shortest_path] *)
Definition find_shortest_path (self : NetworkGraph) (source_id destination_id : Z)
    : result (option (list Z)) :=
  match shortest_path (graph self) source_id destination_id with
  | Ok p => Ok (Some p)
  | Raise e => if no_route e then Ok None else Raise e
  end.

(** [paths.sort(key=len)]: a stable sort. *)
Fixpoint insert_by_len (p : list Z) (l : list (list Z)) : list (list Z) :=
  match l with
  | [] => [p]
  | q :: l' =>
      if (length p <=? length q)%nat then p :: q :: l'
      else q :: insert_by_len p l'
  end.

Definition sort_by_len (l : list (list Z)) : list (list Z) :=
  fold_right insert_by_len [] l.

(** [NetworkGraph.find_all_paths] *)
Definition find_all_paths (self : NetworkGraph) (source_id destination_id : Z)
    (max_paths : nat) : result (list (list Z)) :=
  match all_simple_paths (graph self) source_id destination_id 10 with
  | Ok paths => Ok (take max_paths (sort_by_len paths))
  | Raise e => if no_route e then Ok [] else Raise e
  end.

(** [NetworkGraph.get_connection_info] *)
Definition get_connection_info (self : NetworkGraph) (node1_id node2_id : Z)
    : option attrs :=
  if has_edge (graph self) node1_id node2_id
  then dict_get (adj_of (graph self) node1_id) node2_id
  else None.

(** ** [class SimulationEngine]: the registries

    A [Task] stands for the [asyncio.Task] object of a run;
    [cancel_requests] records every [Task.cancel()] issued so far, oldest
    first. *)

Definition Task : Type := nat.

Record SimulationEngine : Type := {
  active_simulations : gmap string bool;
  simulation_tasks : gmap string Task;
  cancel_requests : list Task
}.

(** [SimulationEngine.__init__] *)
Definition SimulationEngine_init : SimulationEngine :=
  {| active_simulations := ∅; simulation_tasks := ∅; cancel_requests := [] |}.

(** [SimulationEngine.stop_simulation] (it contains no [await]) *)
Definition stop_simulation (self : SimulationEngine) (simulation_id : string)
    : SimulationEngine :=
  match active_simulations self !! simulation_id with
  | Some _ =>
      let flagged := <[simulation_id := false]> (active_simulations self) in
      match simulation_tasks self !! simulation_id with
      | Some task =>
          {| active_simulations := delete simulation_id flagged;
             simulation_tasks := delete simulation_id (simulation_tasks self);
             cancel_requests := cancel_requests self ++ [task] |}
      | None =>
          {| active_simulations := delete simulation_id flagged;
             simulation_tasks := simulation_tasks self;
             cancel_requests := cancel_requests self |}
      end
  | None => self
  end.

(** The [finally] block of [_run_simulation]. *)
Definition teardown (self : SimulationEngine) (simulation_id : string)
    : SimulationEngine :=
  let active :=
    match active_simulations self !! simulation_id with
    | Some _ => delete simulation_id (active_simulations self)
    | None => active_simulations self
    end in
  let tasks :=
    match simulation_tasks self !! simulation_id with
    | Some _ => delete simulation_id (simulation_tasks self)
    | None => simulation_tasks self
    end in
  {| active_simulations := active;
     simulation_tasks := tasks;
     cancel_requests := cancel_requests self |}.

(** ** Events handed to [manager.broadcast_to_session] *)

Inductive Event : Type :=
| simulation_started (simulation_id : string) (message_count : nat)
| packet_failed (message_id : Z) (reason : string)
| packet_sent (message_id source_node_id destination_node_id : Z)
    (path : list Z) (packet_size : pyval)
| packet_lost (message_id lost_at_node_id : Z)
| packet_arrived (message_id current_node_id from_node_id : Z)
    (is_corrupted : bool) (delay_ms : float)
| packet_misdelivered (message_id intended_destination actual_destination : Z)
| packet_delivered (message_id destination_node_id : Z) (path_taken : list Z)
| simulation_completed (simulation_id : string)
| simulation_error (simulation_id : string) (error : exn).

(** ** The world a run task executes in *)

(** The [random] module: the [n]-th call returns [uniform n] for
    [random.random()] and indexes with [integer n] for [random.choice]. *)
Record Random : Type := {
  uniform : nat → float;
  integer : nat → nat;
  cursor : nat
}.

Record World : Type := {
  engine : SimulationEngine;
  rng : Random;
  (** the broadcasts so far, oldest first: the number of suspension
      points the task had passed when it made the broadcast (the logical
      counterpart of the payload's timestamp), and the (session id, event)
      pair *)
  journal : list (nat * (string * Event));
  (** durations passed to [asyncio.sleep], oldest first *)
  slept : list float;
  (** the task whose body is executing *)
  current_task : Task;
  (** number of suspension points passed *)
  suspensions : nat;
  (** the run ids other coroutines pass to [stop_simulation] while this
      task is suspended at its [n]-th suspension point *)
  scheduler : nat → list string
}.

Definition with_engine (w : World) (e : SimulationEngine) : World :=
  {| engine := e; rng := rng w; journal := journal w; slept := slept w;
     current_task := current_task w; suspensions := suspensions w;
     scheduler := scheduler w |}.

Definition with_rng (w : World) (r : Random) : World :=
  {| engine := engine w; rng := r; journal := journal w; slept := slept w;
     current_task := current_task w; suspensions := suspensions w;
     scheduler := scheduler w |}.

Definition with_journal (w : World) (j : list (nat * (string * Event)))
    : World :=
  {| engine := engine w; rng := rng w; journal := j; slept := slept w;
     current_task := current_task w; suspensions := suspensions w;
     scheduler := scheduler w |}.

Definition with_slept (w : World) (s : list float) : World :=
  {| engine := engine w; rng := rng w; journal := journal w; slept := s;
     current_task := current_task w; suspensions := suspensions w;
     scheduler := scheduler w |}.

Definition with_suspensions (w : World) (n : nat) : World :=
  {| engine := engine w; rng := rng w; journal := journal w; slept := slept w;
     current_task := current_task w; suspensions := n;
     scheduler := scheduler w |}.

(** The (session id, event) pairs broadcast so far, oldest first. *)
Definition sink (w : World) : list (string * Event) := map snd (journal w).
Arguments sink : simpl never.

(** A computation that may raise and that threads the world. *)
Definition M (A : Type) : Type := World → result A * World.

#[global] Instance M_ret : MRet M := λ A a w, (Ok a, w).

#[global] Instance M_bind : MBind M := λ A B k m w,
  match m w with
  | (Ok a, w') => k a w'
  | (Raise e, w') => (Raise e, w')
  end.

Definition lift {A} (r : result A) : M A := λ w, (r, w).

Definition advance (r : Random) : Random :=
  {| uniform := uniform r; integer := integer r; cursor := S (cursor r) |}.

(** [random.random()] *)
Definition random_random : M float := λ w,
  (Ok (uniform (rng w) (cursor (rng w))), with_rng w (advance (rng w))).

(** [random.choice(seq)] *)
Definition random_choice (seq : list Z) : M Z := λ w,
  match seq !! (integer (rng w) (cursor (rng w)) mod length seq)%nat with
  | Some x => (Ok x, with_rng w (advance (rng w)))
  | None => (Raise IndexError, w)
  end.

(** Was [task] cancelled between engine states [old] and [new]? *)
Definition cancelled_since (old new : SimulationEngine) (task : Task) : bool :=
  existsb (Nat.eqb task)
    (drop (length (cancel_requests old)) (cancel_requests new)).

(** A point at which the task yields to the event loop. The calls the
    scheduler makes meanwhile are applied; if one of them cancelled the
    running task, [CancelledError] is raised on resumption. *)
Definition suspend : M unit := λ w,
  let e := foldl stop_simulation (engine w) (scheduler w (suspensions w)) in
  let w' := with_suspensions (with_engine w e) (S (suspensions w)) in
  if cancelled_since (engine w) e (current_task w)
  then (Raise CancelledError, w')
  else (Ok tt, w').

(** [await manager.broadcast_to_session(session_id, event_type, data)]:
    the manager swallows every [Exception] of a failing socket. *)
Definition broadcast_to_session (session_id : string) (ev : Event) : M unit :=
  (λ w, (Ok tt,
         with_journal w (journal w ++ [(suspensions w, (session_id, ev))])))
  ;; suspend.

(** [await asyncio.sleep(t)] *)
Definition sleep (t : float) : M unit :=
  (λ w, (Ok tt, with_slept w (slept w ++ [t]))) ;; suspend.

(** [self.active_simulations.get(simulation_id, False)] *)
Definition is_running (simulation_id : string) : M bool := λ w,
  (Ok (default false (active_simulations (engine w) !! simulation_id)), w).

(** ** [class AnomalyEngine] *)

Record AnomalyEngine : Type := { anomalies : dict Z Anomaly.t }.

(** [AnomalyEngine.__init__]: [{a.id: a for a in anomalies if a.is_active}] *)
Definition AnomalyEngine_init (l : list Anomaly.t) : AnomalyEngine :=
  {| anomalies :=
       fold_left
         (λ d a, if Anomaly.is_active a then dict_set d (Anomaly.id a) a else d)
         l [] |}.

(** [AnomalyEngine.should_apply_anomaly] *)
Definition should_apply_anomaly (anomaly : Anomaly.t) : M bool :=
  x ← random_random; mret (PrimFloat.ltb x (Anomaly.probability anomaly)).

(** The guard shared by the four scans: the rule has the given kind and
    is either network-wide or scoped to the current node. *)
Definition applies_to (kind : AnomalyType) (current_node_id : Z)
    (anomaly : Anomaly.t) : bool :=
  String.eqb (Anomaly.anomaly_type anomaly) (AnomalyType_value kind)
  && match Anomaly.affected_node_id anomaly with
     | None => true
     | Some n => Z.eqb n current_node_id
     end.

Fixpoint packet_loss_scan (rules : list Anomaly.t) (current_node_id : Z)
    : M bool :=
  match rules with
  | [] => mret false
  | anomaly :: rest =>
      if applies_to PACKET_LOSS current_node_id anomaly then
        fired ← should_apply_anomaly anomaly;
        if fired : bool then mret true
        else packet_loss_scan rest current_node_id
      else packet_loss_scan rest current_node_id
  end.

(** [AnomalyEngine.apply_packet_loss] *)
Definition apply_packet_loss (self : AnomalyEngine)
    (message_id current_node_id : Z) : M bool :=
  packet_loss_scan (dict_values (anomalies self)) current_node_id.

(** [anomaly.parameters.get(key, fallback)] *)
Definition parameters_get (anomaly : Anomaly.t) (key : string)
    (fallback : pyval) : result pyval :=
  match Anomaly.parameters anomaly with
  | None => Raise AttributeError
  | Some d => Ok (default fallback (dict_get d key))
  end.

Fixpoint delay_scan (rules : list Anomaly.t) (current_node_id : Z)
    (base_delay : float) : M float :=
  match rules with
  | [] => mret base_delay
  | anomaly :: rest =>
      if applies_to DELAY current_node_id anomaly then
        fired ← should_apply_anomaly anomaly;
        if fired : bool then
          additional_delay ←
            lift (parameters_get anomaly "additional_delay_ms" (PyInt 1000));
          lift (py_add base_delay additional_delay)
        else delay_scan rest current_node_id base_delay
      else delay_scan rest current_node_id base_delay
  end.

(** [AnomalyEngine.apply_delay] *)
Definition apply_delay (self : AnomalyEngine)
    (message_id current_node_id : Z) (base_delay : float) : M float :=
  delay_scan (dict_values (anomalies self)) current_node_id base_delay.

Fixpoint corruption_scan (rules : list Anomaly.t) (current_node_id : Z)
    : M bool :=
  match rules with
  | [] => mret false
  | anomaly :: rest =>
      if applies_to CORRUPTION current_node_id anomaly then
        fired ← should_apply_anomaly anomaly;
        if fired : bool then mret true
        else corruption_scan rest current_node_id
      else corruption_scan rest current_node_id
  end.

(** [AnomalyEngine.apply_corruption] *)
Definition apply_corruption (self : AnomalyEngine)
    (message_id current_node_id : Z) : M bool :=
  corruption_scan (dict_values (anomalies self)) current_node_id.

Fixpoint wrong_delivery_scan (rules : list Anomaly.t) (current_node_id : Z)
    (available_nodes : list Z) : M (option Z) :=
  match rules with
  | [] => mret None
  | anomaly :: rest =>
      if applies_to WRONG_DELIVERY current_node_id anomaly then
        fired ← should_apply_anomaly anomaly;
        if fired : bool then
          wrong_destination ← random_choice available_nodes;
          mret (Some wrong_destination)
        else wrong_delivery_scan rest current_node_id available_nodes
      else wrong_delivery_scan rest current_node_id available_nodes
  end.

(** [AnomalyEngine.apply_wrong_delivery] *)
Definition apply_wrong_delivery (self : AnomalyEngine)
    (message_id current_node_id : Z) (available_nodes : list Z)
    : M (option Z) :=
  wrong_delivery_scan (dict_values (anomalies self)) current_node_id
    available_nodes.

(** ** The packet walker: [SimulationEngine._simulate_message] *)

(** How the hop loop is left: by running out of hops or by [break]
    ([Fallthrough]), or by the [return] after [packet_lost] ([Returned]). *)
Inductive loop_exit : Type :=
| Fallthrough
| Returned.

(** The pairs [(chosen_path[i], chosen_path[i + 1])] for
    [i in range(len(chosen_path) - 1)]. *)
Definition hops_of (chosen_path : list Z) : list (Z * Z) :=
  zip chosen_path (tail chosen_path).

(** The [for] loop over the hops of the chosen path. *)
Fixpoint traverse (simulation_id session_id : string) (message : Message.t)
    (network : NetworkGraph) (anomaly_engine : AnomalyEngine)
    (speed_multiplier : float) (hops : list (Z * Z)) : M loop_exit :=
  match hops with
  | [] => mret Fallthrough
  | (current_node, next_node) :: rest =>
      running ← is_running simulation_id;
      if negb running then mret Fallthrough
      else
        match get_connection_info network current_node next_node with
        | None | Some [] =>
            traverse simulation_id session_id message network anomaly_engine
              speed_multiplier rest
        | Some connection_info =>
            base_delay ←
              lift (py_truediv
                      (default (PyInt DEFAULT_PACKET_DELAY_MS)
                         (dict_get connection_info "latency"))
                      1000%float);
            lost ← apply_packet_loss anomaly_engine (Message.id message)
                     current_node;
            if lost : bool then
              broadcast_to_session session_id
                (packet_lost (Message.id message) current_node);;
              mret Returned
            else
              delayed ← apply_delay anomaly_engine (Message.id message)
                          current_node (PrimFloat.mul base_delay 1000%float);
              actual_delay ← lift (float_truediv delayed 1000%float);
              is_corrupted ← apply_corruption anomaly_engine
                               (Message.id message) current_node;
              broadcast_to_session session_id
                (packet_arrived (Message.id message) next_node current_node
                   is_corrupted (PrimFloat.mul actual_delay 1000%float));;
              pause ← lift (float_truediv actual_delay speed_multiplier);
              sleep pause;;
              traverse simulation_id session_id message network anomaly_engine
                speed_multiplier rest
        end
  end.

(** [chosen_path[-1]] *)
Definition last_node (chosen_path : list Z) : result Z :=
  match last chosen_path with
  | Some n => Ok n
  | None => Raise IndexError
  end.

(** [wrong_destination and wrong_destination != destination]: [None] and
    [0] are both falsy. *)
Definition misdelivered_to (wrong_destination : option Z) (destination : Z)
    : option Z :=
  match wrong_destination with
  | Some n => if negb (Z.eqb n 0) && negb (Z.eqb n destination)
              then Some n else None
  | None => None
  end.

Definition _simulate_message (simulation_id session_id : string)
    (message : Message.t) (network : NetworkGraph)
    (anomaly_engine : AnomalyEngine) (speed_multiplier : float) : M unit :=
  paths ← lift (find_all_paths network (Message.source_node_id message)
                  (Message.destination_node_id message) 3);
  match paths with
  | [] =>
      broadcast_to_session session_id
        (packet_failed (Message.id message) "No path available")
  | chosen_path :: _ =>
      broadcast_to_session session_id
        (packet_sent (Message.id message) (Message.source_node_id message)
           (Message.destination_node_id message) chosen_path
           (Message.packet_size_bytes message));;
      exit ← traverse simulation_id session_id message network anomaly_engine
               speed_multiplier (hops_of chosen_path);
      match exit with
      | Returned => mret tt
      | Fallthrough =>
          let available_nodes := nodes (graph network) in
          final ← lift (last_node chosen_path);
          wrong_destination ←
            apply_wrong_delivery anomaly_engine (Message.id message) final
              available_nodes;
          match misdelivered_to wrong_destination
                  (Message.destination_node_id message) with
          | Some actual =>
              broadcast_to_session session_id
                (packet_misdelivered (Message.id message)
                   (Message.destination_node_id message) actual)
          | None =>
              broadcast_to_session session_id
                (packet_delivered (Message.id message)
                   (Message.destination_node_id message) chosen_path)
          end
      end
  end.

(** ** The run coordinator *)

(** The [for message in messages] loop of [_run_simulation]; the float
    literal is the binary64 value of [0.1]. *)
Fixpoint process_messages (simulation_id session_id : string)
    (messages : list Message.t) (network : NetworkGraph)
    (anomaly_engine : AnomalyEngine) (speed_multiplier : float) : M unit :=
  match messages with
  | [] => mret tt
  | message :: rest =>
      running ← is_running simulation_id;
      if negb running then mret tt
      else
        _simulate_message simulation_id session_id message network
          anomaly_engine speed_multiplier;;
        gap ← lift (float_truediv 0x1.999999999999ap-4%float speed_multiplier);
        sleep gap;;
        process_messages simulation_id session_id rest network anomaly_engine
          speed_multiplier
  end.

(** The [try] block of [_run_simulation]. *)
Definition run_body (simulation_id session_id : string)
    (messages : list Message.t) (network : NetworkGraph)
    (anomaly_engine : AnomalyEngine) (speed_multiplier : float) : M unit :=
  broadcast_to_session session_id
    (simulation_started simulation_id (length messages));;
  process_messages simulation_id session_id messages network anomaly_engine
    speed_multiplier;;
  broadcast_to_session session_id (simulation_completed simulation_id).

(** [SimulationEngine._run_simulation]: [try] / [except CancelledError] /
    [except Exception] / [finally]. *)
Definition _run_simulation (simulation_id session_id : string)
    (messages : list Message.t) (network : NetworkGraph)
    (anomaly_engine : AnomalyEngine) (speed_multiplier : float) : M unit :=
  λ w,
    let handled :=
      match run_body simulation_id session_id messages network anomaly_engine
              speed_multiplier w with
      | (Ok _, w1) => (Ok tt, w1)
      | (Raise e, w1) =>
          if is_Exception e
          then broadcast_to_session session_id
                 (simulation_error simulation_id e) w1
          else (Ok tt, w1)
      end in
    (handled.1, with_engine handled.2 (teardown (engine handled.2) simulation_id)).

(** [SimulationEngine.start_simulation] (it contains no [await]).
    [fresh_id] is the value of [str(uuid.uuid4())] and [task] the object
    [asyncio.create_task] returns; the third component is the coroutine the
    task will execute. *)
Definition start_simulation (self : SimulationEngine) (fresh_id : string)
    (task : Task) (session_id : string) (messages : list Message.t)
    (ns : list Node.t) (connections : list Connection.t)
    (anomaly_list : list Anomaly.t) (speed_multiplier : float)
    : SimulationEngine * string * M unit :=
  let simulation_id := fresh_id in
  let network :=
    build_from_session_data {| graph := empty_graph |} ns connections in
  let anomaly_engine := AnomalyEngine_init anomaly_list in
  let coroutine :=
    _run_simulation simulation_id session_id messages network anomaly_engine
      speed_multiplier in
  ({| active_simulations := <[simulation_id := true]> (active_simulations self);
      simulation_tasks := <[simulation_id := task]> (simulation_tasks self);
      cancel_requests := cancel_requests self |},
   simulation_id, coroutine).

(** * Properties *)

(** ** The registries of the coordinator *)

(** The two registries hold the same run ids. *)
Definition consistent (self : SimulationEngine) : Prop :=
  dom (active_simulations self) = dom (simulation_tasks self).

(** The engine states the three registry-changing bodies can produce from
    a fresh engine: [start_simulation], [stop_simulation] and the [finally]
    block of a finishing run. None of them contains an [await], so these are
    exactly the states observable at suspension points. *)
Inductive reachable : SimulationEngine → Prop :=
| reachable_init : reachable SimulationEngine_init
| reachable_start self fresh_id task session_id messages ns connections
    anomaly_list speed_multiplier :
    reachable self →
    reachable
      (start_simulation self fresh_id task session_id messages ns connections
         anomaly_list speed_multiplier).1.1
| reachable_stop self simulation_id :
    reachable self → reachable (stop_simulation self simulation_id)
| reachable_teardown self simulation_id :
    reachable self → reachable (teardown self simulation_id).

Lemma stop_simulation_absent self simulation_id :
  active_simulations self !! simulation_id = None →
  stop_simulation self simulation_id = self.
Proof. intros Hnone. unfold stop_simulation. by rewrite Hnone. Qed.

Lemma stop_simulation_removes self simulation_id :
  active_simulations (stop_simulation self simulation_id) !! simulation_id = None.
Proof.
  unfold stop_simulation.
  destruct (active_simulations self !! simulation_id) eqn:Hactive; [|done].
  destruct (simulation_tasks self !! simulation_id); simpl;
    apply lookup_delete_eq.
Qed.

Lemma consistent_init : consistent SimulationEngine_init.
Proof. unfold consistent. simpl. by rewrite !dom_empty_L. Qed.

Lemma consistent_start self fresh_id task session_id messages ns connections
    anomaly_list speed_multiplier :
  consistent self →
  consistent
    (start_simulation self fresh_id task session_id messages ns connections
       anomaly_list speed_multiplier).1.1.
Proof.
  unfold consistent. simpl. intros Hdom. rewrite !dom_insert_L. by rewrite Hdom.
Qed.

Lemma consistent_stop self simulation_id :
  consistent self → consistent (stop_simulation self simulation_id).
Proof.
  unfold consistent, stop_simulation. intros Hdom.
  destruct (active_simulations self !! simulation_id) as [flag|] eqn:Hactive;
    [|done].
  destruct (simulation_tasks self !! simulation_id) as [task|] eqn:Htask; simpl.
  - rewrite !dom_delete_L, dom_insert_L, Hdom.
    apply set_eq. intros x. rewrite !elem_of_difference, elem_of_union. tauto.
  - exfalso. apply (not_elem_of_dom (simulation_tasks self)) in Htask.
    apply Htask. rewrite <- Hdom. apply elem_of_dom. by exists flag.
Qed.

Lemma consistent_teardown self simulation_id :
  consistent self → consistent (teardown self simulation_id).
Proof.
  unfold consistent, teardown. intros Hdom. simpl.
  destruct (active_simulations self !! simulation_id) as [flag|] eqn:Hactive;
    destruct (simulation_tasks self !! simulation_id) as [task|] eqn:Htask.
  - rewrite !dom_delete_L. by rewrite Hdom.
  - exfalso. apply (not_elem_of_dom (simulation_tasks self)) in Htask.
    apply Htask. rewrite <- Hdom. apply elem_of_dom. by exists flag.
  - exfalso. apply (not_elem_of_dom (active_simulations self)) in Hactive.
    apply Hactive. rewrite Hdom. apply elem_of_dom. by exists task.
  - done.
Qed.

(** C8: [stop_simulation] on a run id that is not in the active-run
    registry returns the engine unchanged (both registries as they were and
    no task cancelled), and a second [stop_simulation] on the same id changes
    nothing the first one left. *)
Theorem stop_simulation_idempotent (self : SimulationEngine)
    (simulation_id : string) :
  (simulation_id ∉ dom (active_simulations self) →
   stop_simulation self simulation_id = self)
  ∧ stop_simulation (stop_simulation self simulation_id) simulation_id
    = stop_simulation self simulation_id.
Proof.
  split.
  - intros Hnotin. apply stop_simulation_absent. by apply not_elem_of_dom.
  - apply stop_simulation_absent, stop_simulation_removes.
Qed.

Lemma start_simulation_registers self fresh_id task session_id messages ns
    connections anomaly_list speed_multiplier :
  let started :=
    (start_simulation self fresh_id task session_id messages ns connections
       anomaly_list speed_multiplier).1.1 in
  active_simulations started !! fresh_id = Some true
  ∧ simulation_tasks started !! fresh_id = Some task
  ∧ dom (active_simulations started)
    = {[fresh_id]} ∪ dom (active_simulations self)
  ∧ dom (simulation_tasks started)
    = {[fresh_id]} ∪ dom (simulation_tasks self).
Proof.
  simpl. rewrite !lookup_insert_eq, !dom_insert_L. done.
Qed.

Lemma stop_simulation_unregisters self simulation_id :
  consistent self →
  dom (active_simulations (stop_simulation self simulation_id))
  = dom (active_simulations self) ∖ {[simulation_id]}
  ∧ dom (simulation_tasks (stop_simulation self simulation_id))
    = dom (simulation_tasks self) ∖ {[simulation_id]}.
Proof.
  unfold consistent, stop_simulation. intros Hdom.
  destruct (active_simulations self !! simulation_id) as [flag|] eqn:Hactive.
  - destruct (simulation_tasks self !! simulation_id) as [task|] eqn:Htask;
      simpl.
    + rewrite !dom_delete_L, dom_insert_L. split; [|done].
      apply set_eq. intros x.
      rewrite !elem_of_difference, elem_of_union. tauto.
    + exfalso. apply (not_elem_of_dom (simulation_tasks self)) in Htask.
      apply Htask. rewrite <- Hdom. apply elem_of_dom. by exists flag.
  - assert (simulation_id ∉ dom (active_simulations self)) as Hnotin
      by (by apply not_elem_of_dom).
    split; apply set_eq; intros x; rewrite elem_of_difference,
      elem_of_singleton; [|rewrite <- Hdom]; split; try tauto;
      intros Hx; (split; [done|]); by intros ->.
Qed.

Lemma teardown_unregisters self simulation_id :
  dom (active_simulations (teardown self simulation_id))
  = dom (active_simulations self) ∖ {[simulation_id]}
  ∧ dom (simulation_tasks (teardown self simulation_id))
    = dom (simulation_tasks self) ∖ {[simulation_id]}.
Proof.
  unfold teardown. simpl. split.
  - destruct (active_simulations self !! simulation_id) eqn:Hget;
      [by rewrite dom_delete_L|].
    apply not_elem_of_dom in Hget. apply set_eq. intros x.
    rewrite elem_of_difference, elem_of_singleton. split; [|tauto].
    intros Hx. split; [done|]. by intros ->.
  - destruct (simulation_tasks self !! simulation_id) eqn:Hget;
      [by rewrite dom_delete_L|].
    apply not_elem_of_dom in Hget. apply set_eq. intros x.
    rewrite elem_of_difference, elem_of_singleton. split; [|tauto].
    intros Hx. split; [done|]. by intros ->.
Qed.

(** C9: in every engine state reachable through [start_simulation],
    [stop_simulation] and the teardown of finishing runs, the run ids of
    [active_simulations] are exactly those of [simulation_tasks]. From such a
    state, [start_simulation] registers the new run in both registries (with
    the flag [True] and with its task) and adds no other id;
    [stop_simulation] and the teardown of a run each remove the id of the run
    from both registries and remove no other id. *)
Theorem registries_agree (self : SimulationEngine) :
  reachable self →
  dom (active_simulations self) = dom (simulation_tasks self)
  ∧ (∀ fresh_id task session_id messages ns connections anomaly_list
       speed_multiplier,
       let started :=
         (start_simulation self fresh_id task session_id messages ns
            connections anomaly_list speed_multiplier).1.1 in
       active_simulations started !! fresh_id = Some true
       ∧ simulation_tasks started !! fresh_id = Some task
       ∧ dom (active_simulations started)
         = {[fresh_id]} ∪ dom (active_simulations self)
       ∧ dom (simulation_tasks started)
         = {[fresh_id]} ∪ dom (simulation_tasks self))
  ∧ (∀ simulation_id,
       let stopped := stop_simulation self simulation_id in
       dom (active_simulations stopped)
       = dom (active_simulations self) ∖ {[simulation_id]}
       ∧ dom (simulation_tasks stopped)
         = dom (simulation_tasks self) ∖ {[simulation_id]})
  ∧ (∀ simulation_id,
       let finished := teardown self simulation_id in
       dom (active_simulations finished)
       = dom (active_simulations self) ∖ {[simulation_id]}
       ∧ dom (simulation_tasks finished)
         = dom (simulation_tasks self) ∖ {[simulation_id]}).
Proof.
  intros Hreach.
  assert (consistent self) as Hself.
  { induction Hreach;
      auto using consistent_init, consistent_start, consistent_stop,
        consistent_teardown. }
  split; [exact Hself|]. split; [|split].
  - intros. apply start_simulation_registers.
  - intros simulation_id. by apply stop_simulation_unregisters.
  - intros simulation_id. apply teardown_unregisters.
Qed.

(** ** The anomaly table and its scans *)

Section dict_facts.
Context {K V : Type} `{EqDecision K}.

Lemma dict_set_fresh (d : dict K V) k v :
  k ∉ dict_keys d → dict_set d k v = d ++ [(k, v)].
Proof.
  induction d as [|[k' v'] d IH]; simpl; [done|].
  intros Hfresh. apply not_elem_of_cons in Hfresh as [Hne Hfresh].
  rewrite bool_decide_eq_false_2 by congruence. by rewrite IH.
Qed.

Lemma dict_get_set_eq (d : dict K V) k v : dict_get (dict_set d k v) k = Some v.
Proof.
  induction d as [|[k' v'] d IH]; simpl.
  - by rewrite bool_decide_eq_true_2.
  - destruct (bool_decide (k' = k)) eqn:Hk; simpl.
    + by rewrite bool_decide_eq_true_2.
    + by rewrite Hk.
Qed.

Lemma dict_get_set_ne (d : dict K V) k k' v :
  k ≠ k' → dict_get (dict_set d k v) k' = dict_get d k'.
Proof.
  intros Hne. induction d as [|[k0 v0] d IH]; simpl.
  - by rewrite bool_decide_eq_false_2.
  - destruct (bool_decide (k0 = k)) eqn:Hk; simpl.
    + apply bool_decide_eq_true_1 in Hk as ->.
      by rewrite !bool_decide_eq_false_2.
    + by rewrite IH.
Qed.

Lemma dict_mem_set_eq (d : dict K V) k v : dict_mem (dict_set d k v) k = true.
Proof. unfold dict_mem. by rewrite dict_get_set_eq. Qed.

Lemma dict_mem_set_ne (d : dict K V) k k' v :
  k ≠ k' → dict_mem (dict_set d k v) k' = dict_mem d k'.
Proof. intros. unfold dict_mem. by rewrite dict_get_set_ne. Qed.

Lemma dict_mem_set_mono (d : dict K V) k k' v :
  dict_mem d k' = true → dict_mem (dict_set d k v) k' = true.
Proof.
  intros Hmem. destruct (decide (k = k')) as [->|Hne].
  - apply dict_mem_set_eq.
  - by rewrite dict_mem_set_ne.
Qed.

End dict_facts.

(** With pairwise distinct ids, the anomaly table lists the active rules
    in the order they were passed in. *)
Lemma anomaly_table_order (l : list Anomaly.t) (d : dict Z Anomaly.t) :
  NoDup (dict_keys d ++ map Anomaly.id (List.filter Anomaly.is_active l)) →
  dict_values
    (fold_left
       (λ d a, if Anomaly.is_active a then dict_set d (Anomaly.id a) a else d)
       l d)
  = dict_values d ++ List.filter Anomaly.is_active l.
Proof.
  revert d. induction l as [|a l IH]; intros d Hnodup; simpl.
  - by rewrite app_nil_r.
  - simpl in Hnodup. destruct (Anomaly.is_active a); [|by apply IH].
    simpl in Hnodup.
    assert (Anomaly.id a ∉ dict_keys d) as Hfresh.
    { apply NoDup_app in Hnodup as (_ & Hdisj & _).
      intros Hin. apply (Hdisj _ Hin). left. }
    rewrite dict_set_fresh by done.
    rewrite IH.
    + unfold dict_values. rewrite map_app. simpl. by rewrite <- app_assoc.
    + unfold dict_keys. rewrite map_app. simpl. by rewrite <- app_assoc.
Qed.

Lemma AnomalyEngine_init_values (l : list Anomaly.t) :
  NoDup (map Anomaly.id (List.filter Anomaly.is_active l)) →
  dict_values (anomalies (AnomalyEngine_init l))
  = List.filter Anomaly.is_active l.
Proof. intros Hnodup. unfold AnomalyEngine_init. simpl. by rewrite anomaly_table_order. Qed.

(** The world after [n] further calls to the [random] module. *)
Definition skip (n : nat) (w : World) : World :=
  with_rng w
    {| uniform := uniform (rng w); integer := integer (rng w);
       cursor := cursor (rng w) + n |}.

Lemma skip_0 w : skip 0 w = w.
Proof.
  destruct w as [e [u i c] s sl t n sch]. unfold skip, with_rng. simpl.
  by rewrite Nat.add_0_r.
Qed.

Lemma skip_skip n m w : skip n (skip m w) = skip (m + n) w.
Proof. unfold skip, with_rng. simpl. by rewrite Nat.add_assoc. Qed.

Lemma random_random_run w :
  random_random w = (Ok (uniform (rng w) (cursor (rng w))), skip 1 w).
Proof. unfold random_random, skip, advance. by rewrite Nat.add_1_r. Qed.

(** Does the rule fire on the draw [x]? *)
Definition fires (anomaly : Anomaly.t) (x : float) : bool :=
  PrimFloat.ltb x (Anomaly.probability anomaly).

Lemma should_apply_anomaly_run anomaly w :
  should_apply_anomaly anomaly w
  = (Ok (fires anomaly (uniform (rng w) (cursor (rng w)))), skip 1 w).
Proof.
  unfold should_apply_anomaly, mbind, M_bind. by rewrite random_random_run.
Qed.

(** The [n]-th draw from world [w] on. *)
Definition draw (w : World) (n : nat) : float :=
  uniform (rng w) (cursor (rng w) + n).

Lemma draw_skip w m n : draw (skip m w) n = draw w (m + n).
Proof. unfold draw, skip. simpl. by rewrite Nat.add_assoc. Qed.

(** What the delay scan returns once a rule has fired. *)
Definition delayed_by (anomaly : Anomaly.t) (base_delay : float) : result float :=
  result_bind (parameters_get anomaly "additional_delay_ms" (PyInt 1000))
    (py_add base_delay).

Lemma delay_scan_fires rules current_node_id base_delay w i r :
  List.filter (applies_to DELAY current_node_id) rules !! i = Some r →
  fires r (draw w i) = true →
  (∀ j r', (j < i)%nat →
     List.filter (applies_to DELAY current_node_id) rules !! j = Some r' →
     fires r' (draw w j) = false) →
  delay_scan rules current_node_id base_delay w
  = (delayed_by r base_delay, skip (S i) w).
Proof.
  revert w i. induction rules as [|a rules IH]; intros w i Hi Hfire Hbefore.
  - done.
  - simpl in *. destruct (applies_to DELAY current_node_id a) eqn:Happ.
    + unfold mbind, M_bind. rewrite should_apply_anomaly_run.
      destruct i as [|i]; simpl in Hi.
      * injection Hi as ->. unfold draw in Hfire. rewrite Nat.add_0_r in Hfire.
        rewrite Hfire. unfold delayed_by, lift.
        by destruct (parameters_get r "additional_delay_ms" (PyInt 1000)).
      * assert (fires a (uniform (rng w) (cursor (rng w))) = false) as ->.
        { specialize (Hbefore 0%nat a). unfold draw in Hbefore.
          rewrite Nat.add_0_r in Hbefore. apply Hbefore; [lia|done]. }
        rewrite (IH (skip 1 w) i Hi).
        -- by rewrite skip_skip.
        -- by rewrite draw_skip.
        -- intros j r' Hj Hr'. rewrite draw_skip.
           apply (Hbefore (S j)); [lia|done].
    + by apply IH.
Qed.

Lemma delay_scan_silent rules current_node_id base_delay w :
  (∀ j r',
     List.filter (applies_to DELAY current_node_id) rules !! j = Some r' →
     fires r' (draw w j) = false) →
  delay_scan rules current_node_id base_delay w
  = (Ok base_delay,
     skip (length (List.filter (applies_to DELAY current_node_id) rules)) w).
Proof.
  revert w. induction rules as [|a rules IH]; intros w Hnone; simpl.
  - by rewrite skip_0.
  - simpl in Hnone. destruct (applies_to DELAY current_node_id a) eqn:Happ.
    + unfold mbind, M_bind. rewrite should_apply_anomaly_run.
      assert (fires a (uniform (rng w) (cursor (rng w))) = false) as ->.
      { specialize (Hnone 0%nat a). unfold draw in Hnone.
        rewrite Nat.add_0_r in Hnone. by apply Hnone. }
      rewrite IH.
      * by rewrite skip_skip.
      * intros j r' Hr'. rewrite draw_skip. by apply (Hnone (S j)).
    + by apply IH.
Qed.


(** ** Events emitted by a computation *)

(** [emits m R]: from any world, [m] only appends to the sink, and its
    result and the events it appended are related by [R]. *)
Definition emits {A} (m : M A)
    (R : result A → list (string * Event) → Prop) : Prop :=
  ∀ w, ∃ new, sink (m w).2 = sink w ++ new ∧ R (m w).1 new.

(** [m] broadcasts nothing. *)
Definition silent {A} (m : M A) : Prop := emits m (λ _ new, new = []).

Lemma emits_weaken {A} (m : M A) (R R' : result A → _ → Prop) :
  emits m R → (∀ r new, R r new → R' r new) → emits m R'.
Proof. intros Hm Himp w. destruct (Hm w) as (new & Hs & HR). eauto. Qed.

Lemma emits_bind {A B} (m : M A) (k : A → M B)
    (P : result A → _ → Prop) (R : result B → _ → Prop) :
  emits m P →
  (∀ e new, P (Raise e) new → R (Raise e) new) →
  (∀ a new, P (Ok a) new → emits (k a) (λ r new', R r (new ++ new'))) →
  emits (m ≫= k) R.
Proof.
  intros Hm Hraise Hk w. unfold mbind, M_bind.
  destruct (Hm w) as (new & Hs & HP).
  destruct (m w) as [[a|e] w1]; simpl in *.
  - destruct (Hk a new HP w1) as (new' & Hs' & HR).
    exists (new ++ new'). split; [|done].
    by rewrite Hs', Hs, app_assoc.
  - exists new. auto.
Qed.

Lemma emits_bind_silent {A B} (m : M A) (k : A → M B)
    (R : result B → _ → Prop) :
  silent m →
  (∀ e, R (Raise e) []) →
  (∀ a, emits (k a) R) →
  emits (m ≫= k) R.
Proof.
  intros Hm Hraise Hk. eapply emits_bind; [exact Hm|..].
  - by intros e new ->.
  - intros a new ->. simpl. apply Hk.
Qed.

Lemma silent_ret {A} (a : A) : silent (mret a).
Proof. intros w. exists []. by rewrite app_nil_r. Qed.

Lemma silent_lift {A} (r : result A) : silent (lift r).
Proof. intros w. exists []. by rewrite app_nil_r. Qed.

Lemma silent_bind {A B} (m : M A) (k : A → M B) :
  silent m → (∀ a, silent (k a)) → silent (m ≫= k).
Proof. intros Hm Hk. apply emits_bind_silent; [done|done|apply Hk]. Qed.

Lemma silent_is_running simulation_id : silent (is_running simulation_id).
Proof. intros w. exists []. by rewrite app_nil_r. Qed.

Lemma silent_random_random : silent random_random.
Proof. intros w. exists []. by rewrite app_nil_r. Qed.

Lemma silent_random_choice seq : silent (random_choice seq).
Proof.
  intros w. exists []. unfold random_choice.
  destruct (seq !! _); by rewrite app_nil_r.
Qed.

Lemma silent_suspend : silent suspend.
Proof.
  intros w. exists []. unfold suspend.
  destruct (cancelled_since _ _ _); by rewrite app_nil_r.
Qed.

Lemma silent_sleep t : silent (sleep t).
Proof.
  apply silent_bind; [|intros _; apply silent_suspend].
  intros w. exists []. by rewrite app_nil_r.
Qed.

Lemma silent_should_apply_anomaly anomaly : silent (should_apply_anomaly anomaly).
Proof.
  apply silent_bind; [apply silent_random_random|intros x; apply silent_ret].
Qed.

Lemma silent_apply_packet_loss self message_id current_node_id :
  silent (apply_packet_loss self message_id current_node_id).
Proof.
  unfold apply_packet_loss.
  induction (dict_values (anomalies self)) as [|a rules IH]; simpl.
  - apply silent_ret.
  - destruct (applies_to _ _ _); [|done].
    apply silent_bind; [apply silent_should_apply_anomaly|].
    intros [|]; [apply silent_ret|done].
Qed.

Lemma silent_apply_delay self message_id current_node_id base_delay :
  silent (apply_delay self message_id current_node_id base_delay).
Proof.
  unfold apply_delay.
  induction (dict_values (anomalies self)) as [|a rules IH]; simpl.
  - apply silent_ret.
  - destruct (applies_to _ _ _); [|done].
    apply silent_bind; [apply silent_should_apply_anomaly|].
    intros [|]; [|done].
    apply silent_bind; [apply silent_lift|intros v; apply silent_lift].
Qed.

Lemma silent_apply_corruption self message_id current_node_id :
  silent (apply_corruption self message_id current_node_id).
Proof.
  unfold apply_corruption.
  induction (dict_values (anomalies self)) as [|a rules IH]; simpl.
  - apply silent_ret.
  - destruct (applies_to _ _ _); [|done].
    apply silent_bind; [apply silent_should_apply_anomaly|].
    intros [|]; [apply silent_ret|done].
Qed.

Lemma silent_apply_wrong_delivery self message_id current_node_id available :
  silent (apply_wrong_delivery self message_id current_node_id available).
Proof.
  unfold apply_wrong_delivery.
  induction (dict_values (anomalies self)) as [|a rules IH]; simpl.
  - apply silent_ret.
  - destruct (applies_to _ _ _); [|done].
    apply silent_bind; [apply silent_should_apply_anomaly|].
    intros [|]; [|done].
    apply silent_bind; [apply silent_random_choice|intros v; apply silent_ret].
Qed.

(** A broadcast appends exactly its event; the only thing it can raise is
    the cancellation delivered while it is suspended. *)
Lemma emits_broadcast session_id ev :
  emits (broadcast_to_session session_id ev)
    (λ r new, new = [(session_id, ev)] ∧ (r = Ok tt ∨ r = Raise CancelledError)).
Proof.
  intros w. exists [(session_id, ev)].
  unfold broadcast_to_session, mbind, M_bind, suspend, sink. simpl.
  destruct (cancelled_since _ _ _); simpl; rewrite map_app; auto.
Qed.

Lemma emits_bind_broadcast {B} session_id ev (k : unit → M B)
    (R : result B → _ → Prop) :
  R (Raise CancelledError) [(session_id, ev)] →
  emits (k tt) (λ r new', R r ((session_id, ev) :: new')) →
  emits (broadcast_to_session session_id ev ≫= k) R.
Proof.
  intros Hcancel Hk. eapply emits_bind; [apply emits_broadcast|..].
  - by intros e new [-> [?| [= ->]]].
  - by intros [] new [-> _].
Qed.

(** ** The shape of a message's event sequence *)

Definition is_sent (ev : Event) : bool :=
  match ev with packet_sent _ _ _ _ _ => true | _ => false end.

Definition is_arrived (ev : Event) : bool :=
  match ev with packet_arrived _ _ _ _ _ => true | _ => false end.

Definition is_lost (ev : Event) : bool :=
  match ev with packet_lost _ _ => true | _ => false end.

(** The four terminal events of a message. *)
Definition is_terminal (ev : Event) : bool :=
  match ev with
  | packet_delivered _ _ _ | packet_lost _ _
  | packet_misdelivered _ _ _ | packet_failed _ _ => true
  | _ => false
  end.

Definition is_error (ev : Event) : bool :=
  match ev with simulation_error _ _ => true | _ => false end.

(** Zero or more [packet_arrived], then exactly one terminal event. *)
Fixpoint arrived_then_terminal (evs : list Event) : bool :=
  match evs with
  | [] => false
  | ev :: rest =>
      match rest with
      | [] => is_terminal ev
      | _ => is_arrived ev && arrived_then_terminal rest
      end
  end.

(** Exactly one [packet_sent], then zero or more [packet_arrived], then
    exactly one terminal event. *)
Definition sent_arrived_terminal (evs : list Event) : bool :=
  match evs with
  | ev :: rest => is_sent ev && arrived_then_terminal rest
  | [] => false
  end.

Definition all_arrived (new : list (string * Event)) : Prop :=
  Forall (λ p, is_arrived p.2 = true) new.

Lemma arrived_then_terminal_snoc (mid : list (string * Event)) p :
  all_arrived mid → is_terminal p.2 = true →
  arrived_then_terminal (map snd (mid ++ [p])) = true.
Proof.
  intros Hmid Hterm. induction Hmid as [|q mid Hq _ IH]; simpl; [done|].
  rewrite Hq. simpl. destruct (map snd (mid ++ [p])) eqn:Hrest; [|done].
  by destruct mid.
Qed.

(** What the hop loop has emitted, by the way it was left. *)
Definition traverse_post (r : result loop_exit)
    (new : list (string * Event)) : Prop :=
  match r with
  | Ok Fallthrough => all_arrived new
  | Ok Returned =>
      ∃ mid p, new = mid ++ [p] ∧ all_arrived mid ∧ is_lost p.2 = true
  | Raise _ => True
  end.

Lemma traverse_post_cons r p new :
  is_arrived p.2 = true → traverse_post r new → traverse_post r (p :: new).
Proof.
  intros Hp. destruct r as [[|]|e]; simpl; [| |done].
  - by constructor.
  - intros (mid & q & -> & Hmid & Hq). exists (p :: mid), q.
    split; [done|]. split; [by constructor|done].
Qed.

Lemma traverse_shape simulation_id session_id message network anomaly_engine
    speed_multiplier hops :
  emits
    (traverse simulation_id session_id message network anomaly_engine
       speed_multiplier hops)
    traverse_post.
Proof.
  induction hops as [|[current_node next_node] rest IH]; simpl.
  - intros w. exists []. rewrite app_nil_r. split; [done|]. constructor.
  - apply emits_bind_silent; [apply silent_is_running|done|intros running].
    destruct running; simpl;
      [|intros w; exists []; rewrite app_nil_r; split; [done|constructor]].
    destruct (get_connection_info _ _ _) as [[|kv info]|]; [done| |done].
    apply emits_bind_silent; [apply silent_lift|done|intros base_delay].
    apply emits_bind_silent;
      [apply silent_apply_packet_loss|done|intros lost].
    destruct lost.
    + apply emits_bind_broadcast; [done|].
      intros w. exists []. split; [by rewrite app_nil_r|]. simpl.
      eexists [], _. split; [done|]. split; [constructor|done].
    + apply emits_bind_silent; [apply silent_apply_delay|done|intros delayed].
      apply emits_bind_silent; [apply silent_lift|done|intros actual_delay].
      apply emits_bind_silent;
        [apply silent_apply_corruption|done|intros is_corrupted].
      apply emits_bind_broadcast; [done|].
      apply emits_bind_silent; [apply silent_lift|done|intros pause].
      apply emits_bind_silent; [apply silent_sleep|done|intros _].
      eapply emits_weaken; [apply IH|].
      intros r new Hpost. by apply traverse_post_cons.
Qed.

(** What [_simulate_message] has emitted, by what routing returned:
    [packet_failed] alone when there is no route; otherwise [packet_sent]
    with the first returned path, and after it, if the walk ran to its
    end, [packet_arrived]s and one terminal event. *)
Definition simulate_message_post (session_id : string) (message : Message.t)
    (routes : result (list (list Z))) (r : result unit)
    (new : list (string * Event)) : Prop :=
  match routes with
  | Raise e => new = [] ∧ r = Raise e
  | Ok [] =>
      new = [(session_id, packet_failed (Message.id message) "No path available")]
  | Ok (chosen_path :: _) =>
      ∃ rest,
        new = (session_id,
               packet_sent (Message.id message) (Message.source_node_id message)
                 (Message.destination_node_id message) chosen_path
                 (Message.packet_size_bytes message)) :: rest
        ∧ (r = Ok tt → arrived_then_terminal (map snd rest) = true)
  end.

Lemma emits_lift_ok {A B} (a : A) (k : A → M B) (R : result B → _ → Prop) :
  emits (k a) R → emits (lift (Ok a) ≫= k) R.
Proof. intros Hk w. apply Hk. Qed.

Lemma emits_lift_raise {A B} e (k : A → M B) (R : result B → _ → Prop) :
  R (Raise e) [] → emits (lift (Raise e) ≫= k) R.
Proof. intros HR w. exists []. split; [by rewrite app_nil_r|done]. Qed.

Lemma is_lost_terminal ev : is_lost ev = true → is_terminal ev = true.
Proof. by destruct ev. Qed.

(** After [packet_sent]: a walk that runs to its end has emitted
    [packet_arrived]s and one terminal event. *)
Lemma walk_shape simulation_id session_id message network anomaly_engine
    speed_multiplier chosen_path :
  emits
    (exit ← traverse simulation_id session_id message network anomaly_engine
              speed_multiplier (hops_of chosen_path);
     match exit with
     | Returned => mret tt
     | Fallthrough =>
         let available_nodes := nodes (graph network) in
         final ← lift (last_node chosen_path);
         wrong_destination ←
           apply_wrong_delivery anomaly_engine (Message.id message) final
             available_nodes;
         match misdelivered_to wrong_destination
                 (Message.destination_node_id message) with
         | Some actual =>
             broadcast_to_session session_id
               (packet_misdelivered (Message.id message)
                  (Message.destination_node_id message) actual)
         | None =>
             broadcast_to_session session_id
               (packet_delivered (Message.id message)
                  (Message.destination_node_id message) chosen_path)
         end
     end)
    (λ r rest, r = Ok tt → arrived_then_terminal (map snd rest) = true).
Proof.
  eapply emits_bind; [apply traverse_shape|done|].
  intros [|] new Hpost; simpl in Hpost.
  - apply emits_bind_silent; [apply silent_lift|done|intros final].
    apply emits_bind_silent;
      [apply silent_apply_wrong_delivery|done|intros wrong_destination].
    destruct (misdelivered_to _ _);
      (eapply emits_weaken; [apply emits_broadcast|]);
      intros r new' [-> _] _; by apply arrived_then_terminal_snoc.
  - destruct Hpost as (mid & p & -> & Hmid & Hlost).
    intros w. exists []. split; [by rewrite app_nil_r|].
    intros _. rewrite app_nil_r.
    apply arrived_then_terminal_snoc; [done|by apply is_lost_terminal].
Qed.

Lemma simulate_message_shape simulation_id session_id message network
    anomaly_engine speed_multiplier :
  emits
    (_simulate_message simulation_id session_id message network anomaly_engine
       speed_multiplier)
    (simulate_message_post session_id message
       (find_all_paths network (Message.source_node_id message)
          (Message.destination_node_id message) 3)).
Proof.
  unfold _simulate_message.
  destruct (find_all_paths _ _ _ _) as [[|chosen_path paths]|e]; simpl.
  - apply emits_lift_ok.
    eapply emits_weaken; [apply emits_broadcast|]. by intros r new [-> _].
  - apply emits_lift_ok. apply emits_bind_broadcast.
    + eexists. split; [done|]. done.
    + eapply emits_weaken; [apply walk_shape|].
      intros r rest Hrest. by exists rest.
  - intros w. exists []. split; [by rewrite app_nil_r|done].
Qed.

(** ** Events a run never emits *)

(** Every event [m] emits satisfies [P]. *)
Definition only (P : Event → Prop) {A} (m : M A) : Prop :=
  emits m (λ _ new, Forall (λ p, P p.2) new).

Lemma only_silent P {A} (m : M A) : silent m → only P m.
Proof. intros Hm. eapply emits_weaken; [exact Hm|]. by intros r new ->. Qed.

Lemma only_bind P {A B} (m : M A) (k : A → M B) :
  only P m → (∀ a, only P (k a)) → only P (m ≫= k).
Proof.
  intros Hm Hk. eapply emits_bind; [exact Hm|done|].
  intros a new Hnew. eapply emits_weaken; [apply Hk|].
  intros r new' Hnew'. by apply Forall_app.
Qed.

Lemma only_broadcast (P : Event → Prop) session_id ev :
  P ev → only P (broadcast_to_session session_id ev).
Proof.
  intros Hev. eapply emits_weaken; [apply emits_broadcast|].
  intros r new [-> _]. by constructor.
Qed.

Create HintDb silent.
#[local] Hint Resolve silent_ret silent_lift silent_is_running silent_sleep
  silent_apply_packet_loss silent_apply_delay silent_apply_corruption
  silent_apply_wrong_delivery : silent.

Ltac only_step :=
  first
    [ solve [auto 2]
    | apply only_silent; solve [auto with silent]
    | apply only_broadcast; solve [auto]
    | apply only_bind; [|intros ?]
    | match goal with
      | |- only _ (match ?x with _ => _ end) => destruct x
      end ].

Section only_walker.
Variable P : Event → Prop.
Hypothesis P_not_error : ∀ ev, is_error ev = false → P ev.

Lemma only_traverse simulation_id session_id message network anomaly_engine
    speed_multiplier hops :
  only P
    (traverse simulation_id session_id message network anomaly_engine
       speed_multiplier hops).
Proof.
  induction hops as [|[current_node next_node] rest IH]; simpl;
    repeat only_step.
Qed.

Lemma only_simulate_message simulation_id session_id message network
    anomaly_engine speed_multiplier :
  only P
    (_simulate_message simulation_id session_id message network anomaly_engine
       speed_multiplier).
Proof.
  unfold _simulate_message.
  pose proof only_traverse as Htraverse.
  repeat only_step.
Qed.

Lemma only_process_messages simulation_id session_id messages network
    anomaly_engine speed_multiplier :
  only P
    (process_messages simulation_id session_id messages network anomaly_engine
       speed_multiplier).
Proof.
  pose proof only_simulate_message as Hmessage.
  induction messages as [|message rest IH]; simpl; repeat only_step.
Qed.

Lemma only_run_body simulation_id session_id messages network anomaly_engine
    speed_multiplier :
  only P
    (run_body simulation_id session_id messages network anomaly_engine
       speed_multiplier).
Proof.
  unfold run_body. pose proof only_process_messages as Hmessages.
  repeat only_step.
Qed.

End only_walker.

(** ** Failure and teardown of a run *)

Lemma teardown_removes self simulation_id :
  active_simulations (teardown self simulation_id) !! simulation_id = None
  ∧ simulation_tasks (teardown self simulation_id) !! simulation_id = None.
Proof.
  unfold teardown. simpl. split.
  - destruct (active_simulations self !! simulation_id) eqn:Hactive;
      [apply lookup_delete_eq|done].
  - destruct (simulation_tasks self !! simulation_id) eqn:Htask;
      [apply lookup_delete_eq|done].
Qed.

Lemma broadcast_result session_id ev w :
  (broadcast_to_session session_id ev w).1 = Ok tt
  ∨ (broadcast_to_session session_id ev w).1 = Raise CancelledError.
Proof. by destruct (emits_broadcast session_id ev w) as (new & _ & _ & Hr). Qed.

Lemma broadcast_sink session_id ev w :
  sink (broadcast_to_session session_id ev w).2 = sink w ++ [(session_id, ev)].
Proof. by destruct (emits_broadcast session_id ev w) as (new & Hs & -> & _). Qed.

(** C7: whatever way a run task finishes, its run id is in neither
    registry afterwards and no [Exception] escapes the task; and when the
    body of the run raises an [Exception], the run emits exactly one
    [simulation_error] event, for its session, carrying that exception. *)
Theorem run_failure_reported_and_torn_down
    (simulation_id session_id : string) (messages : list Message.t)
    (network : NetworkGraph) (anomaly_engine : AnomalyEngine)
    (speed_multiplier : float) (w : World) :
  let body :=
    run_body simulation_id session_id messages network anomaly_engine
      speed_multiplier w in
  let finished :=
    _run_simulation simulation_id session_id messages network anomaly_engine
      speed_multiplier w in
  (active_simulations (engine finished.2) !! simulation_id = None
   ∧ simulation_tasks (engine finished.2) !! simulation_id = None
   ∧ ∀ e, is_Exception e = true → finished.1 ≠ Raise e)
  ∧ ∀ e, body.1 = Raise e → is_Exception e = true →
      ∃ new,
        sink finished.2
        = sink w ++ new ++ [(session_id, simulation_error simulation_id e)]
        ∧ Forall (λ p, is_error p.2 = false) new.
Proof.
  intros body finished. unfold finished, _run_simulation.
  fold body. split; [split; [|split]|].
  - simpl. apply teardown_removes.
  - simpl. apply teardown_removes.
  - intros e He. simpl. destruct body as [[[]|e'] w1]; simpl; [done|].
    destruct (is_Exception e') eqn:He'; simpl; [|done].
    destruct (broadcast_result session_id (simulation_error simulation_id e') w1)
      as [-> | ->]; [done|]. intros [= <-]. done.
  - intros e Hraise He.
    destruct (only_run_body (λ ev, is_error ev = false) (λ ev H, H)
                simulation_id session_id messages network anomaly_engine
                speed_multiplier w) as (new & Hsink & Hnew).
    fold body in Hsink. exists new. split; [|done].
    destruct body as [r w1]. simpl in Hraise, Hsink. subst r. rewrite He.
    simpl. change (sink (with_engine ?w' ?e')) with (sink w').
    rewrite broadcast_sink, Hsink. by rewrite app_assoc.
Qed.

(** ** Path queries *)

Definition shorter (p q : list Z) : Prop := (length p ≤ length q)%nat.

Lemma insert_by_len_In p q l : In q (insert_by_len p l) ↔ q = p ∨ In q l.
Proof.
  induction l as [|x l IH]; simpl; [naive_solver|].
  destruct (length p <=? length x)%nat; simpl; [naive_solver|].
  rewrite IH. naive_solver.
Qed.

Lemma sort_by_len_In q l : In q (sort_by_len l) ↔ In q l.
Proof.
  induction l as [|x l IH]; simpl; [done|].
  rewrite insert_by_len_In, IH. naive_solver.
Qed.

Lemma insert_by_len_sorted p l :
  StronglySorted shorter l → StronglySorted shorter (insert_by_len p l).
Proof.
  induction 1 as [|x l Hsorted IH Hx]; simpl.
  - repeat constructor.
  - destruct (length p <=? length x)%nat eqn:Hle.
    + apply Nat.leb_le in Hle. constructor; [by constructor|].
      constructor; [done|].
      eapply Forall_impl; [exact Hx|]. unfold shorter. intros; lia.
    + apply Nat.leb_gt in Hle. constructor; [done|].
      apply Forall_forall. intros q Hq.
      apply list_elem_of_In, insert_by_len_In in Hq as [->|Hq].
      * unfold shorter. lia.
      * rewrite Forall_forall in Hx. by apply Hx, list_elem_of_In.
Qed.

Lemma sort_by_len_sorted l : StronglySorted shorter (sort_by_len l).
Proof.
  induction l as [|x l IH]; simpl; [constructor|by apply insert_by_len_sorted].
Qed.

Lemma take_sorted n (l : list (list Z)) :
  StronglySorted shorter l → StronglySorted shorter (take n l).
Proof.
  intros Hsorted. revert n.
  induction Hsorted as [|x l Hsorted IH Hx]; intros [|n]; simpl;
    try constructor; [apply IH|].
  eapply Forall_forall. intros q Hq. rewrite Forall_forall in Hx.
  apply Hx. by eapply subseteq_take.
Qed.

Lemma memZ_In x l : memZ x l = true ↔ In x l.
Proof.
  unfold memZ. rewrite existsb_exists. split.
  - intros (y & Hy & Heq). by apply Z.eqb_eq in Heq as ->.
  - intros Hx. exists x. split; [done|apply Z.eqb_refl].
Qed.

Lemma memZ_not_In x l : memZ x l = false ↔ ¬ In x l.
Proof.
  rewrite <- memZ_In. destruct (memZ x l); naive_solver.
Qed.

Lemma dict_mem_keys {V} (d : dict Z V) k : dict_mem d k = true ↔ In k (dict_keys d).
Proof.
  unfold dict_mem. induction d as [|[k' v] d IH]; simpl; [naive_solver|].
  destruct (bool_decide (k' = k)) eqn:Hk.
  - apply bool_decide_eq_true_1 in Hk. naive_solver.
  - apply bool_decide_eq_false_1 in Hk. rewrite IH. naive_solver.
Qed.

Lemma has_edge_neighbors g u v : has_edge g u v = true ↔ In v (neighbors g u).
Proof.
  unfold has_edge, neighbors, adj_of.
  destruct (dict_get (g_adj g) u) as [nbrs|]; simpl.
  - apply dict_mem_keys.
  - naive_solver.
Qed.

(** Consecutive nodes of [p] are joined by an edge. *)
Fixpoint linked (g : Graph) (p : list Z) : bool :=
  match p with
  | [] => true
  | u :: rest =>
      match rest with
      | [] => true
      | v :: _ => has_edge g u v && linked g rest
      end
  end.

Lemma simple_paths_from_sound g depth visited cur target p :
  In p (simple_paths_from g depth visited cur target) →
  (0 < length p ≤ depth)%nat ∧ last p = Some target ∧ NoDup p
  ∧ (∀ x, In x p → ¬ In x visited) ∧ linked g (cur :: p) = true.
Proof.
  revert visited cur p. induction depth as [|depth IH]; intros visited cur p;
    simpl; [done|].
  rewrite in_flat_map. intros (child & Hchild & Hp).
  apply has_edge_neighbors in Hchild.
  destruct (memZ child visited) eqn:Hvisited; [done|].
  apply memZ_not_In in Hvisited.
  destruct (Z.eqb child target) eqn:Htarget.
  - apply Z.eqb_eq in Htarget as ->. destruct Hp as [<-|[]]. simpl.
    rewrite Hchild. repeat split; try lia.
    + apply NoDup_singleton.
    + by intros x [<-|[]].
  - apply in_map_iff in Hp as (p' & <- & Hp').
    apply IH in Hp' as (Hlen & Hlast & Hnodup & Hfresh & Hlinked).
    simpl. repeat split; try lia.
    + destruct p'; [simpl in Hlen; lia|done].
    + apply NoDup_cons. split; [|done].
      intros Hin. apply list_elem_of_In in Hin.
      apply (Hfresh _ Hin). apply in_or_app. right. by left.
    + intros x [<-|Hx]; [done|].
      intros Hv. apply (Hfresh _ Hx). apply in_or_app. by left.
    + simpl in Hlinked. by rewrite Hchild.
Qed.

Lemma simple_paths_from_complete g depth visited cur target p :
  (0 < length p ≤ depth)%nat → last p = Some target → NoDup p →
  (∀ x, In x p → ¬ In x visited) → linked g (cur :: p) = true →
  In p (simple_paths_from g depth visited cur target).
Proof.
  revert visited cur p. induction depth as [|depth IH];
    intros visited cur p Hlen Hlast Hnodup Hfresh Hlinked; [lia|].
  destruct p as [|child p']; [simpl in Hlen; lia|].
  simpl in Hlinked. apply andb_prop in Hlinked as [Hedge Hlinked].
  simpl. apply in_flat_map. exists child.
  split; [by apply has_edge_neighbors|].
  assert (memZ child visited = false) as ->.
  { apply memZ_not_In, Hfresh. by left. }
  apply NoDup_cons in Hnodup as [Hchild Hnodup].
  destruct (Z.eqb child target) eqn:Htarget.
  - apply Z.eqb_eq in Htarget as ->. destruct p' as [|x p'']; [by left|].
    exfalso. apply Hchild. rewrite last_cons_cons in Hlast.
    by apply last_Some_elem_of.
  - apply Z.eqb_neq in Htarget.
    destruct p' as [|x p'']; [simpl in Hlast; congruence|].
    rewrite last_cons_cons in Hlast.
    apply in_map. apply IH; try done.
    + simpl in *. lia.
    + intros y Hy Hv. apply in_app_or in Hv as [Hv|[<-|[]]].
      * apply (Hfresh y); [by right|done].
      * by apply Hchild, list_elem_of_In.
Qed.

(** [p] is a simple path of [g] from [s] to [t]. *)
Definition simple_path (g : Graph) (s t : Z) (p : list Z) : Prop :=
  head p = Some s ∧ last p = Some t ∧ NoDup p ∧ linked g p = true.

Lemma all_simple_paths_raises g source target cutoff e :
  all_simple_paths g source target cutoff = Raise e → e = NodeNotFound.
Proof.
  unfold all_simple_paths.
  destruct (negb (has_node g source)); [congruence|].
  destruct (negb (has_node g target)); [congruence|].
  by destruct (Z.eqb source target).
Qed.

Lemma all_simple_paths_sound g source target cutoff paths p :
  all_simple_paths g source target cutoff = Ok paths → In p paths →
  simple_path g source target p ∧ (length p ≤ S cutoff)%nat.
Proof.
  unfold all_simple_paths.
  destruct (negb (has_node g source)); [done|].
  destruct (negb (has_node g target)); [done|].
  destruct (Z.eqb source target) eqn:Heq; intros [= <-] Hp.
  - apply Z.eqb_eq in Heq as <-. destruct Hp as [<-|[]].
    split; [|simpl; lia]. repeat split. apply NoDup_singleton.
  - apply in_map_iff in Hp as (p' & <- & Hp').
    apply simple_paths_from_sound in Hp'
      as (Hlen & Hlast & Hnodup & Hfresh & Hlinked).
    split; [|simpl; lia]. repeat split; [| |done].
    + destruct p'; [simpl in Hlen; lia|done].
    + apply NoDup_cons. split; [|done]. intros Hin.
      apply list_elem_of_In in Hin. apply (Hfresh _ Hin). by left.
Qed.

Lemma all_simple_paths_complete g source target cutoff p :
  has_node g source = true → has_node g target = true →
  simple_path g source target p → (length p ≤ S cutoff)%nat →
  ∃ paths, all_simple_paths g source target cutoff = Ok paths ∧ In p paths.
Proof.
  intros Hs Ht (Hhead & Hlast & Hnodup & Hlinked) Hlen.
  unfold all_simple_paths. rewrite Hs, Ht. simpl.
  destruct p as [|x p']; [done|]. injection Hhead as ->.
  apply NoDup_cons in Hnodup as [Hfresh Hnodup].
  destruct (Z.eqb source target) eqn:Heq.
  - apply Z.eqb_eq in Heq as <-. eexists. split; [done|]. left.
    destruct p' as [|y p'']; [done|]. exfalso. apply Hfresh.
    rewrite last_cons_cons in Hlast. by apply last_Some_elem_of.
  - apply Z.eqb_neq in Heq. eexists. split; [done|].
    destruct p' as [|y p'']; [simpl in Hlast; congruence|].
    rewrite last_cons_cons in Hlast.
    apply in_map, simple_paths_from_complete; try done.
    + simpl in *. lia.
    + intros z Hz [<-|[]]. by apply Hfresh, list_elem_of_In.
Qed.

Lemma find_all_paths_spec network source_id destination_id max_paths :
  ∃ paths,
    find_all_paths network source_id destination_id max_paths = Ok paths
    ∧ (length paths ≤ max_paths)%nat
    ∧ StronglySorted shorter paths
    ∧ Forall
        (λ p, simple_path (graph network) source_id destination_id p
              ∧ (length p ≤ 11)%nat)
        paths.
Proof.
  unfold find_all_paths.
  destruct (all_simple_paths _ _ _ _) as [all|e] eqn:Hall.
  - eexists. split; [done|]. split; [rewrite length_take; lia|].
    split; [apply take_sorted, sort_by_len_sorted|].
    apply Forall_forall. intros p Hp. apply subseteq_take in Hp.
    apply list_elem_of_In in Hp. apply (proj1 (sort_by_len_In _ _)) in Hp.
    by apply (all_simple_paths_sound _ _ _ _ _ _ Hall).
  - apply all_simple_paths_raises in Hall as ->. simpl.
    exists []. split; [done|]. split; [simpl; lia|].
    split; constructor.
Qed.

Lemma sorted_app_shorter (l1 l2 : list (list Z)) :
  StronglySorted shorter (l1 ++ l2) →
  ∀ q p, In q l1 → In p l2 → shorter q p.
Proof.
  induction l1 as [|x l1 IH]; intros Hsorted q p Hq Hp; [done|].
  simpl in Hsorted. apply StronglySorted_inv in Hsorted as [Hrest Hx].
  destruct Hq as [<-|Hq]; [|by apply IH].
  rewrite Forall_forall in Hx. apply Hx, list_elem_of_In.
  apply in_or_app. by right.
Qed.

(** Routing misses no route: a simple path within the cutoff between two
    nodes of the graph is returned, unless [max_paths] paths are returned
    none of which is longer. *)
Lemma find_all_paths_complete network source_id destination_id max_paths
    paths p :
  find_all_paths network source_id destination_id max_paths = Ok paths →
  has_node (graph network) source_id = true →
  has_node (graph network) destination_id = true →
  simple_path (graph network) source_id destination_id p →
  (length p - 1 ≤ 10)%nat →
  In p paths
  ∨ (length paths = max_paths ∧ Forall (λ q, shorter q p) paths).
Proof.
  intros Hroutes Hs Ht Hp Hlen. unfold find_all_paths in Hroutes.
  destruct (all_simple_paths_complete (graph network) source_id destination_id
              10 p Hs Ht Hp) as (all & Hall & Hin); [lia|].
  rewrite Hall in Hroutes. injection Hroutes as <-.
  apply (proj2 (sort_by_len_In _ _)) in Hin.
  pose proof (sort_by_len_sorted all) as Hsorted.
  rewrite <- (take_drop max_paths (sort_by_len all)) in Hin, Hsorted.
  apply in_app_or in Hin as [Hin|Hin]; [by left|right].
  split.
  - rewrite length_take. apply Nat.min_l.
    destruct (decide (max_paths ≤ length (sort_by_len all))%nat) as [|Hshort];
      [done|].
    rewrite drop_ge in Hin by lia. done.
  - apply Forall_forall. intros q Hq. apply list_elem_of_In in Hq.
    by apply (sorted_app_shorter _ _ Hsorted).
Qed.

(** C4: routing returns at most 3 simple paths of at most 10 hops each,
    in ascending order of length, and it returns the shortest there are: for
    a message between two nodes of the topology, every simple path of at most
    10 hops from the source to the destination is among the returned paths,
    unless 3 paths are returned none of which is longer; so a route that
    exists within the cutoff is found. When routing returns none the walker
    emits [packet_failed] with reason "No path available" and nothing else
    for the message; otherwise the first event it emits is [packet_sent]
    carrying the first returned path, which no returned path is shorter than,
    and the packet size. *)
Theorem routing_then_send (simulation_id session_id : string)
    (message : Message.t) (network : NetworkGraph)
    (anomaly_engine : AnomalyEngine) (speed_multiplier : float) (w : World) :
  let source_id := Message.source_node_id message in
  let destination_id := Message.destination_node_id message in
  let walk :=
    _simulate_message simulation_id session_id message network anomaly_engine
      speed_multiplier w in
  ∃ paths,
    find_all_paths network source_id destination_id 3 = Ok paths
    ∧ (length paths ≤ 3)%nat
    ∧ StronglySorted shorter paths
    ∧ Forall
        (λ p, simple_path (graph network) source_id destination_id p
              ∧ (length p - 1 ≤ 10)%nat)
        paths
    ∧ (has_node (graph network) source_id = true →
       has_node (graph network) destination_id = true →
       ∀ p, simple_path (graph network) source_id destination_id p →
            (length p - 1 ≤ 10)%nat →
            In p paths
            ∨ (length paths = 3%nat ∧ Forall (λ q, shorter q p) paths))
    ∧ match paths with
      | [] =>
          sink walk.2
          = sink w
            ++ [(session_id,
                 packet_failed (Message.id message) "No path available")]
      | chosen_path :: _ =>
          Forall (shorter chosen_path) paths
          ∧ ∃ rest,
              sink walk.2
              = sink w
                ++ (session_id,
                    packet_sent (Message.id message) source_id destination_id
                      chosen_path (Message.packet_size_bytes message))
                   :: rest
      end.
Proof.
  intros source_id destination_id walk.
  destruct (find_all_paths_spec network source_id destination_id 3)
    as (paths & Hroutes & Hlen & Hsorted & Hpaths).
  exists paths. split; [done|]. split; [done|]. split; [done|].
  split.
  { eapply Forall_impl; [exact Hpaths|]. intros p [Hp Hhops]. split; [done|lia]. }
  split.
  { intros Hs Ht p Hp Hhops.
    by apply (find_all_paths_complete network source_id destination_id 3). }
  destruct (simulate_message_shape simulation_id session_id message network
              anomaly_engine speed_multiplier w) as (new & Hsink & Hpost).
  fold source_id destination_id in Hpost. rewrite Hroutes in Hpost.
  fold walk in Hsink. destruct paths as [|chosen_path paths]; simpl in Hpost.
  - by rewrite Hsink, Hpost.
  - destruct Hpost as (rest & -> & _). split; [|by exists rest].
    apply StronglySorted_inv in Hsorted as [_ Hmin].
    constructor; [unfold shorter; lia|done].
Qed.

(** ** Building the topology *)

(** Every node with an adjacency entry is in the node table, as in every
    graph networkx builds. *)
Definition graph_wf (g : Graph) : Prop :=
  ∀ n, dict_mem (g_adj g) n = true → has_node g n = true.

Lemma has_edge_adj_of g u v : has_edge g u v = dict_mem (adj_of g u) v.
Proof. unfold has_edge, adj_of. by destruct (dict_get (g_adj g) u). Qed.

Lemma dict_mem_false_get {K V} `{EqDecision K} (d : dict K V) k :
  dict_mem d k = false → dict_get d k = None.
Proof. unfold dict_mem. by destruct (dict_get d k). Qed.

Lemma graph_wf_empty : graph_wf empty_graph.
Proof. by intros n. Qed.

Lemma has_node_add_node g n attr x :
  has_node (add_node g n attr) x = true ↔ x = n ∨ has_node g x = true.
Proof.
  unfold add_node, has_node.
  destruct (decide (n = x)) as [->|Hne].
  - destruct (dict_get (g_node g) x); simpl; rewrite dict_mem_set_eq; tauto.
  - destruct (dict_get (g_node g) n); simpl; rewrite dict_mem_set_ne by done;
      split; auto; by intros [->|].
Qed.

Lemma graph_wf_add_node g n attr : graph_wf g → graph_wf (add_node g n attr).
Proof.
  intros Hwf x Hx. apply has_node_add_node.
  destruct (decide (x = n)) as [|Hne]; [by left|right]. apply Hwf.
  unfold add_node in Hx. destruct (dict_get (g_node g) n); simpl in Hx; [done|].
  by rewrite dict_mem_set_ne in Hx.
Qed.

Lemma adj_of_add_node g n attr x :
  graph_wf g → adj_of (add_node g n attr) x = adj_of g x.
Proof.
  intros Hwf. unfold add_node, adj_of.
  destruct (dict_get (g_node g) n) eqn:Hn; simpl; [done|].
  destruct (decide (n = x)) as [<-|Hne].
  - rewrite dict_get_set_eq. simpl.
    destruct (dict_mem (g_adj g) n) eqn:Hadj.
    + apply Hwf in Hadj. unfold has_node, dict_mem in Hadj. by rewrite Hn in Hadj.
    + by rewrite (dict_mem_false_get _ _ Hadj).
  - by rewrite dict_get_set_ne.
Qed.

Lemma node_get_add_node_empty g n x :
  dict_get (g_node (add_node g n [])) x
  = if bool_decide (x = n)
    then Some (default [] (dict_get (g_node g) n))
    else dict_get (g_node g) x.
Proof.
  unfold add_node. case_bool_decide as Hx.
  - subst x. destruct (dict_get (g_node g) n); simpl; by rewrite dict_get_set_eq.
  - destruct (dict_get (g_node g) n); simpl; by rewrite dict_get_set_ne.
Qed.

(** The graph after the two "add the endpoint if it is missing" steps of
    [add_edge]. *)
Definition with_endpoints (g : Graph) (u v : Z) : Graph :=
  let g1 := if has_node g u then g else add_node g u [] in
  if has_node g1 v then g1 else add_node g1 v [].

Lemma graph_wf_with_endpoints g u v : graph_wf g → graph_wf (with_endpoints g u v).
Proof.
  intros Hwf. unfold with_endpoints.
  assert (graph_wf (if has_node g u then g else add_node g u [])) as Hwf1.
  { destruct (has_node g u); [done|by apply graph_wf_add_node]. }
  destruct (has_node _ v); [done|by apply graph_wf_add_node].
Qed.

Lemma adj_of_with_endpoints g u v x :
  graph_wf g → adj_of (with_endpoints g u v) x = adj_of g x.
Proof.
  intros Hwf. unfold with_endpoints.
  assert (graph_wf (if has_node g u then g else add_node g u [])) as Hwf1.
  { destruct (has_node g u); [done|by apply graph_wf_add_node]. }
  assert (adj_of (if has_node g u then g else add_node g u []) x = adj_of g x)
    as Hadj1.
  { destruct (has_node g u); [done|by apply adj_of_add_node]. }
  destruct (has_node _ v); [done|]. by rewrite adj_of_add_node.
Qed.

Lemma has_node_with_endpoints g u v x :
  has_node (with_endpoints g u v) x = true
  ↔ x = u ∨ x = v ∨ has_node g x = true.
Proof.
  unfold with_endpoints.
  destruct (has_node g u) eqn:Hu.
  - destruct (has_node g v) eqn:Hv.
    + split; [tauto|]. by intros [->|[->|]].
    + rewrite has_node_add_node. split; [tauto|]. intros [->|[->|]]; auto.
  - destruct (has_node (add_node g u []) v) eqn:Hv.
    + rewrite has_node_add_node. split; [tauto|].
      intros [->|[->|]]; auto. by apply has_node_add_node in Hv.
    + rewrite !has_node_add_node. tauto.
Qed.

Lemma add_edge_unfold g u v attr :
  add_edge g u v attr
  = let g2 := with_endpoints g u v in
    let datadict := dict_update (default [] (dict_get (adj_of g2 u) v)) attr in
    let adj1 := dict_set (g_adj g2) u (dict_set (adj_of g2 u) v datadict) in
    {| g_node := g_node g2;
       g_adj := dict_set adj1 v (dict_set (default [] (dict_get adj1 v)) u datadict) |}.
Proof. done. Qed.

Lemma has_node_add_edge g u v attr x :
  has_node (add_edge g u v attr) x = true
  ↔ x = u ∨ x = v ∨ has_node g x = true.
Proof. rewrite add_edge_unfold. apply has_node_with_endpoints. Qed.

Lemma graph_wf_add_edge g u v attr : graph_wf g → graph_wf (add_edge g u v attr).
Proof.
  intros Hwf x. rewrite has_node_add_edge. rewrite add_edge_unfold. simpl.
  intros Hx.
  destruct (decide (x = v)) as [|Hv]; [auto|].
  destruct (decide (x = u)) as [|Hu]; [auto|].
  right. right. rewrite !dict_mem_set_ne in Hx by done.
  apply graph_wf_with_endpoints in Hx; [|done].
  apply has_node_with_endpoints in Hx as [?|[?|?]]; done.
Qed.

Lemma has_edge_add_edge g u v attr :
  has_edge (add_edge g u v attr) u v = true
  ∧ has_edge (add_edge g u v attr) v u = true.
Proof.
  rewrite add_edge_unfold. unfold has_edge. simpl. split.
  - destruct (decide (v = u)) as [->|Hne].
    + rewrite dict_get_set_eq. apply dict_mem_set_eq.
    + rewrite dict_get_set_ne, dict_get_set_eq by done. apply dict_mem_set_eq.
  - rewrite dict_get_set_eq. apply dict_mem_set_eq.
Qed.

Lemma has_edge_add_edge_mono g u v attr x y :
  graph_wf g → has_edge g x y = true → has_edge (add_edge g u v attr) x y = true.
Proof.
  intros Hwf Hxy. rewrite has_edge_adj_of in Hxy.
  rewrite <- (adj_of_with_endpoints g u v x Hwf) in Hxy.
  rewrite add_edge_unfold. unfold has_edge. simpl.
  set (g2 := with_endpoints g u v) in *.
  set (datadict := dict_update _ attr).
  destruct (decide (v = x)) as [->|Hv].
  - rewrite dict_get_set_eq. apply dict_mem_set_mono.
    destruct (decide (u = x)) as [->|Hu].
    + rewrite dict_get_set_eq. simpl. by apply dict_mem_set_mono.
    + rewrite dict_get_set_ne by done. exact Hxy.
  - rewrite dict_get_set_ne by done.
    destruct (decide (u = x)) as [->|Hu].
    + rewrite dict_get_set_eq. by apply dict_mem_set_mono.
    + rewrite dict_get_set_ne by done.
      unfold adj_of in Hxy. by destruct (dict_get (g_adj g2) x).
Qed.

Lemma add_nodes_facts ns g :
  graph_wf g →
  graph_wf (add_nodes g ns)
  ∧ (∀ x, adj_of (add_nodes g ns) x = adj_of g x)
  ∧ (∀ x, has_node g x = true → has_node (add_nodes g ns) x = true)
  ∧ (∀ x, ¬ In x (map Node.id ns) →
       dict_get (g_node (add_nodes g ns)) x = dict_get (g_node g) x).
Proof.
  revert g. induction ns as [|node ns IH]; intros g Hwf; simpl; [done|].
  destruct (IH (add_node g (Node.id node) (node_attrs node)))
    as (Hwf' & Hadj & Hmono & Hget); [by apply graph_wf_add_node|].
  split; [done|]. split; [|split].
  - intros x. by rewrite Hadj, adj_of_add_node.
  - intros x Hx. apply Hmono, has_node_add_node. by right.
  - intros x Hx. rewrite Hget by tauto.
    unfold add_node.
    destruct (dict_get (g_node g) (Node.id node)); simpl;
      rewrite dict_get_set_ne; auto.
Qed.

(** The node [x] has no attributes in [g], if it is a node at all. *)
Definition bare (g : Graph) (x : Z) : Prop :=
  dict_get (g_node g) x = None ∨ dict_get (g_node g) x = Some [].

Lemma bare_add_edge g u v attr x : bare g x → bare (add_edge g u v attr) x.
Proof.
  rewrite add_edge_unfold. unfold bare, with_endpoints. simpl.
  intros Hbare.
  assert (bare (if has_node g u then g else add_node g u []) x) as Hbare1.
  { unfold bare. destruct (has_node g u) eqn:Hu; [done|].
    rewrite node_get_add_node_empty. case_bool_decide as Hx; [|done].
    subst x. right. unfold has_node in Hu.
    by rewrite (dict_mem_false_get _ _ Hu). }
  set (g1 := if has_node g u then g else add_node g u []) in *.
  destruct (has_node g1 v) eqn:Hv; [done|].
  rewrite node_get_add_node_empty. case_bool_decide as Hx; [|done].
  subst x. right. unfold has_node in Hv.
  by rewrite (dict_mem_false_get _ _ Hv).
Qed.

Lemma add_connections_facts cs g :
  graph_wf g →
  graph_wf (add_connections g cs)
  ∧ (∀ x, has_node g x = true → has_node (add_connections g cs) x = true)
  ∧ (∀ x y, has_edge g x y = true → has_edge (add_connections g cs) x y = true)
  ∧ (∀ x, bare g x → bare (add_connections g cs) x)
  ∧ (∀ c, In c cs → is_active_status (Connection.status c) = true →
       let u := Connection.source_node_id c in
       let v := Connection.destination_node_id c in
       has_node (add_connections g cs) u = true
       ∧ has_node (add_connections g cs) v = true
       ∧ has_edge (add_connections g cs) u v = true
       ∧ has_edge (add_connections g cs) v u = true).
Proof.
  revert g. induction cs as [|c cs IH]; intros g Hwf; simpl.
  { repeat split; try done. }
  destruct (is_active_status (Connection.status c)) eqn:Hactive.
  - set (g' := add_edge g (Connection.source_node_id c)
                 (Connection.destination_node_id c) (edge_attrs c)).
    destruct (IH g') as (Hwf' & Hnode & Hedge & Hbare & Hconn);
      [by apply graph_wf_add_edge|].
    split; [done|]. split; [|split; [|split]].
    + intros x Hx. apply Hnode, has_node_add_edge. auto.
    + intros x y Hxy. by apply Hedge, has_edge_add_edge_mono.
    + intros x Hx. by apply Hbare, bare_add_edge.
    + intros c' [<-|Hc'] Hactive'; [|by apply Hconn].
      simpl. repeat split.
      * apply Hnode, has_node_add_edge. auto.
      * apply Hnode, has_node_add_edge. auto.
      * apply Hedge, has_edge_add_edge.
      * apply Hedge, has_edge_add_edge.
  - destruct (IH g Hwf) as (Hwf' & Hnode & Hedge & Hbare & Hconn).
    split; [done|]. split; [done|]. split; [done|]. split; [done|].
    intros c' [<-|Hc'] Hactive'; [congruence|].
    by apply (Hconn c' Hc' Hactive').
Qed.

Lemma add_connections_inactive cs g :
  Forall (λ c, is_active_status (Connection.status c) = false) cs →
  add_connections g cs = g.
Proof.
  intros Hcs. revert g. induction Hcs as [|c cs Hc _ IH]; intros g; simpl;
    [done|]. by rewrite Hc.
Qed.

(** ** Breadth-first search *)

Lemma bfs_level_from p nbrs st :
  let r :=
    fold_left
      (λ st' v, if memZ v st'.2 then st' else (st'.1 ++ [v :: p], st'.2 ++ [v]))
      nbrs st in
  (∀ q, In q r.1 → In q st.1 ∨ ∃ v, q = v :: p)
  ∧ (∀ q, In q st.1 → In q r.1)
  ∧ (∀ v, In v nbrs → ¬ In v st.2 → In (v :: p) r.1).
Proof.
  revert st. induction nbrs as [|x nbrs IH]; intros st; simpl.
  { split; [auto|]. split; [auto|]. by intros v []. }
  destruct (memZ x st.2) eqn:Hseen.
  - destruct (IH st) as (Hshape & Hkeep & Hnew).
    split; [done|]. split; [done|].
    intros v [<-|Hv] Hfresh; [|by apply Hnew].
    apply memZ_In in Hseen. done.
  - destruct (IH (st.1 ++ [x :: p], st.2 ++ [x])) as (Hshape & Hkeep & Hnew).
    simpl in *. split; [|split].
    + intros q Hq. apply Hshape in Hq as [Hq|Hq]; [|by right].
      apply in_app_or in Hq as [Hq|[<-|[]]]; [by left|right; by exists x].
    + intros q Hq. apply Hkeep, in_or_app. by left.
    + intros v Hv Hfresh. destruct (decide (v = x)) as [->|Hne].
      * apply Hkeep, in_or_app. right. by left.
      * destruct Hv as [<-|Hv]; [done|]. apply Hnew; [done|].
        intros Hin. apply in_app_or in Hin as [Hin|[<-|[]]]; done.
Qed.

Lemma shortest_path_direct g a b :
  has_node g a = true → has_node g b = true → a ≠ b →
  has_edge g a b = true → shortest_path g a b = Ok [a; b].
Proof.
  intros Ha Hb Hne Hedge. unfold shortest_path. rewrite Ha, Hb. simpl.
  assert (Z.eqb a b = false) as Hab by by apply Z.eqb_neq.
  destruct (nodes g) as [|n0 ns] eqn:Hnodes.
  { unfold has_node in Ha. apply dict_mem_keys in Ha.
    unfold nodes in Hnodes. by rewrite Hnodes in Ha. }
  simpl. rewrite Hab. unfold bfs_expand. simpl.
  destruct (bfs_level_from [a] (neighbors g a) ([], [a]))
    as (Hshape & _ & Hnew).
  simpl in Hshape, Hnew.
  destruct (fold_left _ (neighbors g a) ([], [a])) as [frontier seen] eqn:Hfold.
  simpl in Hshape, Hnew.
  assert (In [b; a] frontier) as Hin.
  { apply Hnew; [by apply has_edge_neighbors|]. intros [?|[]]. congruence. }
  destruct frontier as [|p0 frontier]; [done|].
  destruct (find (ends_at b) (p0 :: frontier)) as [p|] eqn:Hfind.
  - apply find_some in Hfind as [Hp Hends].
    apply Hshape in Hp as [[]|[v ->]]. simpl in Hends.
    by apply Z.eqb_eq in Hends as ->.
  - apply (find_none _ _ Hfind) in Hin. simpl in Hin.
    by rewrite Z.eqb_refl in Hin.
Qed.

Lemma edgeless_shortest_path g a b :
  (∀ x, adj_of g x = []) → a ≠ b →
  ∃ e, shortest_path g a b = Raise e ∧ no_route e = true.
Proof.
  intros Hadj Hne. unfold shortest_path.
  destruct (negb (has_node g a)); [by exists NodeNotFound|].
  destruct (negb (has_node g b)); [by exists NodeNotFound|].
  exists NetworkXNoPath. split; [|done]. simpl.
  assert (Z.eqb a b = false) as -> by by apply Z.eqb_neq.
  unfold bfs_expand, neighbors. simpl. by rewrite Hadj.
Qed.

Lemma edgeless_all_simple_paths g a b cutoff :
  (∀ x, adj_of g x = []) → a ≠ b →
  all_simple_paths g a b cutoff = Ok []
  ∨ all_simple_paths g a b cutoff = Raise NodeNotFound.
Proof.
  intros Hadj Hne. unfold all_simple_paths.
  destruct (negb (has_node g a)); [by right|].
  destruct (negb (has_node g b)); [by right|].
  assert (Z.eqb a b = false) as -> by by apply Z.eqb_neq.
  left. destruct cutoff; simpl; [done|].
  unfold neighbors. by rewrite Hadj.
Qed.

(** C5 (as amended): in a topology built with no active connection,
    [find_shortest_path] returns [None] and [find_all_paths] returns the
    empty list for every pair of distinct node ids, and
    [get_connection_info] returns [None] for every pair; none of them
    raises. *)
Theorem edgeless_queries (self : NetworkGraph) (ns : list Node.t)
    (connections : list Connection.t) (a b : Z) (max_paths : nat) :
  Forall (λ c, is_active_status (Connection.status c) = false) connections →
  let network := build_from_session_data self ns connections in
  (a ≠ b →
   find_shortest_path network a b = Ok None
   ∧ find_all_paths network a b max_paths = Ok [])
  ∧ get_connection_info network a b = None.
Proof.
  intros Hinactive network.
  assert (∀ x, adj_of (graph network) x = []) as Hadj.
  { intros x. unfold network, build_from_session_data. simpl.
    rewrite add_connections_inactive by done.
    destruct (add_nodes_facts ns empty_graph graph_wf_empty) as (_ & -> & _).
    done. }
  split.
  - intros Hne. split.
    + unfold find_shortest_path.
      destruct (edgeless_shortest_path _ a b Hadj Hne) as (e & -> & ->). done.
    + unfold find_all_paths.
      destruct (edgeless_all_simple_paths _ a b 10 Hadj Hne) as [->| ->];
        [|done]. simpl. by rewrite take_nil.
  - unfold get_connection_info. rewrite has_edge_adj_of, Hadj. done.
Qed.

Lemma find_all_paths_direct network u v :
  has_node (graph network) u = true → has_node (graph network) v = true →
  u ≠ v → has_edge (graph network) u v = true →
  ∃ rest, find_all_paths network u v 3 = Ok ([u; v] :: rest).
Proof.
  intros Hu Hv Hne Hedge.
  destruct (all_simple_paths_complete (graph network) u v 10 [u; v] Hu Hv)
    as (all & Hall & Hin).
  { repeat split; simpl.
    - apply NoDup_cons. split; [|apply NoDup_singleton].
      intros Hin. apply list_elem_of_In in Hin as [?|[]]. congruence.
    - by rewrite Hedge. }
  { simpl. lia. }
  unfold find_all_paths. rewrite Hall.
  apply sort_by_len_In in Hin.
  pose proof (sort_by_len_sorted all) as Hsorted.
  destruct (sort_by_len all) as [|h tl] eqn:Hsort; [done|].
  exists (take 2 tl). simpl. do 2 f_equal.
  assert (In h all) as Hh.
  { apply sort_by_len_In. rewrite Hsort. by left. }
  destruct (all_simple_paths_sound _ _ _ _ _ _ Hall Hh)
    as ((Hhead & Hlast & _ & _) & _).
  assert (length h ≤ 2)%nat as Hlen.
  { destruct Hin as [->|Hin]; [done|].
    apply StronglySorted_inv in Hsorted as [_ Hmin].
    rewrite Forall_forall in Hmin. apply list_elem_of_In in Hin.
    apply (Hmin _ Hin). }
  destruct h as [|h1 [|h2 [|h3 h]]]; simpl in *; try done; try lia.
  - congruence.
  - congruence.
Qed.

(** C10: when an active connection has an endpoint that is not among the
    node snapshots, [build_from_session_data] still makes that endpoint a
    node of the graph, with an empty attribute dictionary, and adds the edge;
    the two endpoints, when distinct, are then routed between: the direct
    path is the shortest path, is the first path routing returns, and is the
    path a message between them is sent on. *)
Theorem unknown_endpoint_becomes_routable (self : NetworkGraph)
    (ns : list Node.t) (connections : list Connection.t) (c : Connection.t)
    (x : Z) :
  In c connections →
  is_active_status (Connection.status c) = true →
  x = Connection.source_node_id c ∨ x = Connection.destination_node_id c →
  ¬ In x (map Node.id ns) →
  let network := build_from_session_data self ns connections in
  let u := Connection.source_node_id c in
  let v := Connection.destination_node_id c in
  has_node (graph network) x = true
  ∧ dict_get (g_node (graph network)) x = Some []
  ∧ has_edge (graph network) u v = true
  ∧ has_edge (graph network) v u = true
  ∧ is_Some (get_connection_info network u v)
  ∧ (u ≠ v →
     find_shortest_path network u v = Ok (Some [u; v])
     ∧ (∃ rest, find_all_paths network u v 3 = Ok ([u; v] :: rest))
     ∧ ∀ simulation_id session_id message anomaly_engine speed_multiplier w,
         Message.source_node_id message = u →
         Message.destination_node_id message = v →
         ∃ rest,
           sink (_simulate_message simulation_id session_id message network
                   anomaly_engine speed_multiplier w).2
           = sink w
             ++ (session_id,
                 packet_sent (Message.id message) u v [u; v]
                   (Message.packet_size_bytes message)) :: rest).
Proof.
  intros Hc Hactive Hx Hunknown network u v.
  destruct (add_nodes_facts ns empty_graph graph_wf_empty)
    as (Hwf & _ & _ & Hget).
  destruct (add_connections_facts connections (add_nodes empty_graph ns) Hwf)
    as (_ & _ & _ & Hbare & Hconn).
  destruct (Hconn c Hc Hactive) as (Hu & Hv & Huv & Hvu).
  fold u v in Hu, Hv, Huv, Hvu.
  change (add_connections (add_nodes empty_graph ns) connections)
    with (graph network) in *.
  assert (has_node (graph network) x = true) as Hnode.
  { by destruct Hx as [->| ->]. }
  split; [done|]. split.
  { destruct (Hbare x) as [Hnone|Hsome]; [|by unfold has_node, dict_mem in Hnode;
      rewrite Hnone in Hnode|done].
    left. by rewrite Hget. }
  split; [done|]. split; [done|]. split.
  { unfold get_connection_info. rewrite Huv.
    rewrite has_edge_adj_of in Huv. unfold dict_mem in Huv.
    by destruct (dict_get (adj_of (graph network) u) v). }
  intros Hne.
  destruct (find_all_paths_direct network u v Hu Hv Hne Huv) as (rest & Hroutes).
  split; [|split].
  - unfold find_shortest_path. by rewrite shortest_path_direct.
  - by exists rest.
  - intros simulation_id session_id message anomaly_engine speed_multiplier w
      Hsrc Hdst.
    destruct (simulate_message_shape simulation_id session_id message network
                anomaly_engine speed_multiplier w) as (new & Hsink & Hpost).
    rewrite Hsrc, Hdst, Hroutes in Hpost. simpl in Hpost.
    destruct Hpost as (rest' & -> & _). rewrite Hsrc, Hdst in Hsink.
    by exists rest'.
Qed.

(** ** Walks that run to their end *)

(** C2 (as amended): when source and destination are nodes of the
    topology joined by a simple path of at most 10 edges, a walk that returns
    normally (it is neither cancelled while suspended nor ended by an internal
    error) emits exactly one [packet_sent], then zero or more
    [packet_arrived], then exactly one terminal event; and when every simple
    path between them has more than 10 edges, the walk emits [packet_failed]
    alone. *)
Theorem completed_walk_shape (simulation_id session_id : string)
    (message : Message.t) (network : NetworkGraph)
    (anomaly_engine : AnomalyEngine) (speed_multiplier : float) (w : World) :
  let source_id := Message.source_node_id message in
  let destination_id := Message.destination_node_id message in
  let walk :=
    _simulate_message simulation_id session_id message network anomaly_engine
      speed_multiplier w in
  (∀ p,
     has_node (graph network) source_id = true →
     has_node (graph network) destination_id = true →
     simple_path (graph network) source_id destination_id p →
     (length p - 1 ≤ 10)%nat →
     walk.1 = Ok tt →
     ∃ new,
       sink walk.2 = sink w ++ new
       ∧ sent_arrived_terminal (map snd new) = true)
  ∧ ((∀ p, simple_path (graph network) source_id destination_id p →
           (10 < length p - 1)%nat) →
     sink walk.2
     = sink w
       ++ [(session_id, packet_failed (Message.id message) "No path available")]).
Proof.
  intros source_id destination_id walk.
  destruct (simulate_message_shape simulation_id session_id message network
              anomaly_engine speed_multiplier w) as (new & Hsink & Hpost).
  fold source_id destination_id walk in Hpost, Hsink.
  split.
  - intros p Hs Ht Hp Hlen Hok.
    destruct (all_simple_paths_complete (graph network) source_id
                destination_id 10 p Hs Ht Hp) as (all & Hall & Hin); [lia|].
    exists new. split; [done|].
    unfold find_all_paths in Hpost. rewrite Hall in Hpost.
    apply sort_by_len_In in Hin.
    destruct (sort_by_len all) as [|chosen_path rest]; [done|].
    simpl in Hpost. destruct Hpost as (tail & -> & Hshape).
    simpl. by apply Hshape.
  - intros Hlong.
    destruct (find_all_paths_spec network source_id destination_id 3)
      as (paths & Hroutes & _ & _ & Hpaths).
    rewrite Hroutes in Hpost. destruct paths as [|chosen_path paths].
    + simpl in Hpost. by rewrite Hsink, Hpost.
    + apply Forall_cons in Hpaths as [[Hpath Hlen] _].
      apply Hlong in Hpath. lia.
Qed.

(** What the truthiness test of the walker lets through: a wrong
    destination counts only when it is neither [0] nor the intended one. *)
Lemma misdelivered_to_Some wrong_destination destination n :
  misdelivered_to wrong_destination destination = Some n
  ↔ wrong_destination = Some n ∧ n ≠ 0 ∧ n ≠ destination.
Proof.
  unfold misdelivered_to. destruct wrong_destination as [m|]; [|naive_solver].
  destruct (Z.eqb_spec m 0), (Z.eqb_spec m destination); simpl; naive_solver.
Qed.

(** ** Concrete topologies and worlds *)

Definition example_node (i : Z) : Node.t :=
  Node.mk i (PyStr "node") (PyStr "router") (PyStr "active")
    (PyFloat 0) (PyFloat 0).

Definition example_link (i u v : Z) (status : string) : Connection.t :=
  Connection.mk i u v (PyStr "ethernet") (PyFloat 100) (PyFloat 10)
    (PyStr status).

Definition example_message (i s t : Z) : Message.t :=
  Message.mk i s t (PyInt 1024).

(** A [random] module whose every draw is [0.5] and whose every choice is
    the first element. *)
Definition example_rng : Random :=
  {| uniform := λ _, 0.5%float; integer := λ _, 0%nat; cursor := 0 |}.

(** The world in which [task] starts to run on [self], with the calls
    [calls] arriving from other coroutines. *)
Definition example_world (self : SimulationEngine) (task : Task)
    (calls : nat → list string) : World :=
  {| engine := self; rng := example_rng; journal := []; slept := [];
     current_task := task; suspensions := 0; scheduler := calls |}.

Definition nobody : nat → list string := λ _, [].

(** The engine after one [start_simulation] that registered run ["r1"]
    with task [7]. *)
Definition example_engine : SimulationEngine :=
  {| active_simulations := {["r1" := true]};
     simulation_tasks := {["r1" := 7%nat]};
     cancel_requests := [] |}.

(** Nodes 1, 2, 3 with links 1-2 and 2-3. *)
Definition line_network : NetworkGraph :=
  build_from_session_data {| graph := empty_graph |}
    [example_node 1; example_node 2; example_node 3]
    [example_link 1 1 2 "active"; example_link 2 2 3 "active"].

(** Nodes 1 to 12 in a chain of eleven links. *)
Definition chain_network : NetworkGraph :=
  build_from_session_data {| graph := empty_graph |}
    (map example_node [1; 2; 3; 4; 5; 6; 7; 8; 9; 10; 11; 12])
    (map (λ i, example_link i i (i + 1) "active")
       [1; 2; 3; 4; 5; 6; 7; 8; 9; 10; 11]).

(** A delay rule that always fires and whose parameter is not a number. *)
Definition malformed_delay : Anomaly.t :=
  Anomaly.mk 1 "delay" None 1%float
    (Some [("additional_delay_ms"%string, PyStr "fast")]) true.

(** Nodes 0, 1, 2 with the single link 1-2. *)
Definition zero_network : NetworkGraph :=
  build_from_session_data {| graph := empty_graph |}
    [example_node 0; example_node 1; example_node 2]
    [example_link 1 1 2 "active"].

(** A network-wide wrong-delivery rule that always fires. *)
Definition always_misdeliver : Anomaly.t :=
  Anomaly.mk 1 "wrong_delivery" None 1%float (Some []) true.

(** Run ["r1"] is stopped by another coroutine while the task is
    suspended at its [n]-th suspension point. *)
Definition stop_at (n : nat) : nat → list string :=
  λ k, if (k =? n)%nat then ["r1"%string] else [].

Ltac decide_NoDup := refine (bool_decide_unpack _ _); vm_compute; exact I.

Ltac concrete_simple_path :=
  split; [reflexivity|]; split; [reflexivity|];
  split; [decide_NoDup|vm_compute; reflexivity].

(** ** Cancellation *)

(** When [stop_simulation] cancels the task of the run while it is
    suspended in the broadcast of [packet_sent], the task emits nothing
    afterwards. *)
Example stop_during_walk :
  let w := example_world example_engine 7%nat (stop_at 1) in
  let finished :=
    _run_simulation "r1" "s" [example_message 5 1 3] line_network
      (AnomalyEngine_init []) 1%float w in
  map snd (sink finished.2)
  = [simulation_started "r1" 1; packet_sent 5 1 3 [1; 2; 3] (PyInt 1024)]
  ∧ cancel_requests (engine finished.2) = [7%nat].
Proof. vm_compute. done. Qed.

(** An instance of the fall-through behind the flag check of the hop loop.
    Here the walker runs in a task other than the one registered for run
    ["r1"], so the stop clears the flag without cancelling the walker; the run
    is stopped while the broadcast of [packet_sent] is suspended. The hop loop
    then sees the cleared flag and breaks, after which the walker still emits
    [packet_delivered], and the run still emits [simulation_completed]. In a
    run that [start_simulation] started this cannot be observed, because the
    stop cancels the task that runs the walker. *)
Theorem cleared_flag_still_emits :
  let message := example_message 5 1 3 in
  let sent := packet_sent 5 1 3 [1; 2; 3] (PyInt 1024) in
  let w := example_world example_engine 8%nat (stop_at 0) in
  let after_sent := (broadcast_to_session "s" sent w).2 in
  let walk :=
    _simulate_message "r1" "s" message line_network (AnomalyEngine_init [])
      1%float w in
  let finished :=
    _run_simulation "r1" "s" [message] line_network (AnomalyEngine_init [])
      1%float (example_world example_engine 8%nat (stop_at 1)) in
  active_simulations (engine after_sent) !! "r1" = None
  ∧ map snd (sink after_sent) = [sent]
  ∧ map snd (sink walk.2) = [sent; packet_delivered 5 3 [1; 2; 3]]
  ∧ map snd (sink finished.2)
    = [simulation_started "r1" 1; sent; packet_delivered 5 3 [1; 2; 3];
       simulation_completed "r1"].
Proof. vm_compute. done. Qed.

(** ** Wrong delivery *)

Lemma wrong_delivery_scan_member rules current_node_id available_nodes w n :
  (wrong_delivery_scan rules current_node_id available_nodes w).1
  = Ok (Some n) →
  In n available_nodes.
Proof.
  revert w. induction rules as [|a rules IH]; intros w; simpl; [done|].
  destruct (applies_to WRONG_DELIVERY current_node_id a); [|apply IH].
  unfold mbind, M_bind. rewrite should_apply_anomaly_run.
  destruct (fires a _); [|apply IH].
  unfold random_choice.
  destruct (available_nodes !! _) as [x|] eqn:Hx; simpl; [|done].
  intros [= <-]. by apply list_elem_of_lookup_2, list_elem_of_In in Hx.
Qed.

(** C3: once the hop loop of a routed walk has been left without the
    [return] of a loss, [apply_wrong_delivery] is evaluated on the last node
    of the chosen path and the nodes of the topology. On a topology whose
    node ids are database keys (none of them is [0]): when it returns a node
    other than the intended destination, the walker emits
    [packet_misdelivered] with that node and ends; when it returns [None] or
    the intended destination, the walker emits [packet_delivered] with the
    chosen path and ends. *)
Theorem wrong_delivery_decides_terminal (simulation_id session_id : string)
    (message : Message.t) (network : NetworkGraph)
    (anomaly_engine : AnomalyEngine) (speed_multiplier : float) (w : World)
    (chosen_path : list Z) (others : list (list Z)) :
  let message_id := Message.id message in
  let source_id := Message.source_node_id message in
  let destination_id := Message.destination_node_id message in
  let sent :=
    broadcast_to_session session_id
      (packet_sent message_id source_id destination_id chosen_path
         (Message.packet_size_bytes message)) w in
  let hops :=
    traverse simulation_id session_id message network anomaly_engine
      speed_multiplier (hops_of chosen_path) sent.2 in
  let walk :=
    _simulate_message simulation_id session_id message network anomaly_engine
      speed_multiplier w in
  ¬ In 0 (nodes (graph network)) →
  find_all_paths network source_id destination_id 3
  = Ok (chosen_path :: others) →
  sent.1 = Ok tt →
  hops.1 = Ok Fallthrough →
  ∃ final,
    last chosen_path = Some final
    ∧ match
        (apply_wrong_delivery anomaly_engine message_id final
           (nodes (graph network)) hops.2).1
      with
      | Ok (Some wrong_destination) =>
          sink walk.2
          = sink hops.2
            ++ [(session_id,
                 if bool_decide (wrong_destination = destination_id)
                 then packet_delivered message_id destination_id chosen_path
                 else packet_misdelivered message_id destination_id
                        wrong_destination)]
      | Ok None =>
          sink walk.2
          = sink hops.2
            ++ [(session_id,
                 packet_delivered message_id destination_id chosen_path)]
      | Raise e => walk.1 = Raise e ∧ sink walk.2 = sink hops.2
      end.
Proof.
  intros message_id source_id destination_id sent hops walk Hzero Hpaths
    Hsent Hhops.
  destruct (find_all_paths_spec network source_id destination_id 3)
    as (paths & Heq & _ & _ & Hsimple).
  rewrite Hpaths in Heq. injection Heq as <-.
  apply Forall_cons in Hsimple as [[(_ & Hlast & _) _] _].
  exists destination_id. split; [done|].
  unfold walk, _simulate_message. fold source_id destination_id message_id.
  rewrite Hpaths. unfold mbind, M_bind, lift. cbn beta iota.
  fold sent. destruct sent as [r1 w1]. simpl in Hsent, hops. subst r1.
  fold hops. destruct hops as [r2 w2]. simpl in Hhops. subst r2.
  cbn [fst snd]. unfold last_node. rewrite Hlast.
  pose proof (wrong_delivery_scan_member
                (dict_values (anomalies anomaly_engine)) destination_id
                (nodes (graph network)) w2) as Hmember.
  destruct (silent_apply_wrong_delivery anomaly_engine message_id
              destination_id (nodes (graph network)) w2)
    as (new & Hsilent & ->).
  rewrite app_nil_r in Hsilent.
  fold (apply_wrong_delivery anomaly_engine message_id destination_id
          (nodes (graph network))) in Hmember.
  destruct (apply_wrong_delivery anomaly_engine message_id destination_id
              (nodes (graph network)) w2) as [[[n|]|e] w3];
    cbn [fst snd] in *.
  - assert (n ≠ 0) as Hn by (intros ->; by apply Hzero, Hmember).
    unfold misdelivered_to.
    destruct (Z.eqb_spec n 0) as [|_]; [done|].
    destruct (Z.eqb_spec n destination_id) as [->|Hne]; cbn [negb andb].
    + rewrite bool_decide_eq_true_2 by done.
      by rewrite broadcast_sink, Hsilent.
    + rewrite bool_decide_eq_false_2 by done.
      by rewrite broadcast_sink, Hsilent.
  - cbn [misdelivered_to]. by rewrite broadcast_sink, Hsilent.
  - done.
Qed.

Lemma wrong_delivery_decides_terminal_witness :
  let message := example_message 5 1 3 in
  let anomaly_engine := AnomalyEngine_init [always_misdeliver] in
  let w := example_world example_engine 7%nat nobody in
  let sent :=
    broadcast_to_session "s" (packet_sent 5 1 3 [1; 2; 3] (PyInt 1024)) w in
  let hops :=
    traverse "r1" "s" message line_network anomaly_engine 1%float
      (hops_of [1; 2; 3]) sent.2 in
  let walk :=
    _simulate_message "r1" "s" message line_network anomaly_engine 1%float w in
  ∃ final,
    last [1; 2; 3] = Some final
    ∧ match
        (apply_wrong_delivery anomaly_engine 5 final
           (nodes (graph line_network)) hops.2).1
      with
      | Ok (Some wrong_destination) =>
          sink walk.2
          = sink hops.2
            ++ [("s"%string,
                 if bool_decide (wrong_destination = 3)
                 then packet_delivered 5 3 [1; 2; 3]
                 else packet_misdelivered 5 3 wrong_destination)]
      | Ok None =>
          sink walk.2
          = sink hops.2 ++ [("s"%string, packet_delivered 5 3 [1; 2; 3])]
      | Raise e => walk.1 = Raise e ∧ sink walk.2 = sink hops.2
      end.
Proof.
  apply (wrong_delivery_decides_terminal "r1" "s" (example_message 5 1 3)
           line_network (AnomalyEngine_init [always_misdeliver]) 1%float
           (example_world example_engine 7%nat nobody) [1; 2; 3] []).
  - vm_compute. intros [H|[H|[H|[]]]]; discriminate H.
  - vm_compute. reflexivity.
  - vm_compute. reflexivity.
  - vm_compute. reflexivity.
Defined.

(** The test [if wrong_destination and ...] is one of truthiness, so a
    wrong destination with node id [0] would not be reported: on a topology
    with such a node the rule fires and [apply_wrong_delivery] returns node
    [0], which differs from the intended destination [2], yet the walker
    emits [packet_delivered]. Node ids are primary keys assigned by the
    database from [1] on, so the engine does not see such a topology. *)
Theorem node_zero_reported_delivered :
  let message := example_message 5 1 2 in
  let anomaly_engine := AnomalyEngine_init [always_misdeliver] in
  let w := example_world example_engine 7%nat nobody in
  let walk :=
    _simulate_message "r1" "s" message zero_network anomaly_engine 1%float w in
  (apply_wrong_delivery anomaly_engine 5 2 (nodes (graph zero_network)) w).1
  = Ok (Some 0)
  ∧ misdelivered_to (Some 0) 2 = None
  ∧ map snd (sink walk.2)
    = [packet_sent 5 1 2 [1; 2] (PyInt 1024);
       packet_arrived 5 2 1 false 10%float;
       packet_delivered 5 2 [1; 2]].
Proof. vm_compute. done. Qed.

(** ** Counterexamples to the claims as stated *)

(** C2 as stated fails. Nodes 1 and 12 of the chain are joined by a path,
    yet the walk from 1 to 12, which nobody cancels, emits [packet_failed]
    alone, because the only path has eleven edges. And on the line network a
    delay rule with a non-numeric parameter ends the walk from 1 to 2 with a
    [TypeError] right after [packet_sent], without any terminal event. *)
Lemma long_chain_not_sent :
  let w := example_world example_engine 7%nat nobody in
  let walk :=
    _simulate_message "r1" "s" (example_message 5 1 12) chain_network
      (AnomalyEngine_init []) 1%float w in
  let broken :=
    _simulate_message "r1" "s" (example_message 5 1 2) line_network
      (AnomalyEngine_init [malformed_delay]) 1%float w in
  (simple_path (graph chain_network) 1 12 [1; 2; 3; 4; 5; 6; 7; 8; 9; 10; 11; 12]
   ∧ walk.1 = Ok tt
   ∧ map snd (sink walk.2) = [packet_failed 5 "No path available"]
   ∧ sent_arrived_terminal (map snd (sink walk.2)) = false)
  ∧ (simple_path (graph line_network) 1 2 [1; 2]
     ∧ broken.1 = Raise TypeError
     ∧ map snd (sink broken.2) = [packet_sent 5 1 2 [1; 2] (PyInt 1024)]
     ∧ sent_arrived_terminal (map snd (sink broken.2)) = false).
Proof.
  split.
  - split; [concrete_simple_path|by vm_compute].
  - split; [concrete_simple_path|by vm_compute].
Qed.

(** C5 as stated fails for a pair made of one node twice: in a topology
    with a node and no connection at all, the shortest path from the node to
    itself is the one-node path, not [None]. *)
Lemma edgeless_self_path :
  let network :=
    build_from_session_data {| graph := empty_graph |} [example_node 1] [] in
  find_shortest_path network 1 1 = Ok (Some [1])
  ∧ find_shortest_path network 1 1 ≠ Ok None.
Proof. split; [by vm_compute|]. vm_compute. discriminate. Qed.

(** ** The theorems at concrete inputs *)

(** Three delay rules: the first never fires, the second is scoped to
    node 2 and always fires, the third would always fire as well. *)
Definition slow_rules : list Anomaly.t :=
  [Anomaly.mk 1 "delay" None 0%float (Some []) true;
   Anomaly.mk 2 "delay" (Some 2) 1%float
     (Some [("additional_delay_ms"%string, PyInt 250)]) true;
   Anomaly.mk 3 "delay" None 1%float (Some []) true].


Lemma stop_simulation_idempotent_witness :
  stop_simulation example_engine "r2" = example_engine.
Proof.
  apply (proj1 (stop_simulation_idempotent example_engine "r2")).
  apply not_elem_of_dom. vm_compute. reflexivity.
Defined.

Lemma registries_agree_witness :
  let started :=
    (start_simulation
       (start_simulation SimulationEngine_init "r1" 7%nat "s" [] [] [] []
          1%float).1.1
       "r2" 8%nat "s" [] [] [] [] 1%float).1.1 in
  let self := stop_simulation started "r1" in
  dom (active_simulations self) = dom (simulation_tasks self)
  ∧ (∀ fresh_id task session_id messages ns connections anomaly_list
       speed_multiplier,
       let started :=
         (start_simulation self fresh_id task session_id messages ns
            connections anomaly_list speed_multiplier).1.1 in
       active_simulations started !! fresh_id = Some true
       ∧ simulation_tasks started !! fresh_id = Some task
       ∧ dom (active_simulations started)
         = {[fresh_id]} ∪ dom (active_simulations self)
       ∧ dom (simulation_tasks started)
         = {[fresh_id]} ∪ dom (simulation_tasks self))
  ∧ (∀ simulation_id,
       let stopped := stop_simulation self simulation_id in
       dom (active_simulations stopped)
       = dom (active_simulations self) ∖ {[simulation_id]}
       ∧ dom (simulation_tasks stopped)
         = dom (simulation_tasks self) ∖ {[simulation_id]})
  ∧ (∀ simulation_id,
       let finished := teardown self simulation_id in
       dom (active_simulations finished)
       = dom (active_simulations self) ∖ {[simulation_id]}
       ∧ dom (simulation_tasks finished)
         = dom (simulation_tasks self) ∖ {[simulation_id]}).
Proof.
  intros started self. apply (registries_agree self).
  apply reachable_stop, reachable_start, reachable_start, reachable_init.
Defined.

Lemma edgeless_queries_witness :
  let network :=
    build_from_session_data {| graph := empty_graph |}
      [example_node 1; example_node 2] [example_link 1 1 2 "inactive"] in
  (1 ≠ 2 →
   find_shortest_path network 1 2 = Ok None
   ∧ find_all_paths network 1 2 3 = Ok [])
  ∧ get_connection_info network 1 2 = None.
Proof.
  apply (edgeless_queries {| graph := empty_graph |}
           [example_node 1; example_node 2] [example_link 1 1 2 "inactive"]
           1 2 3).
  constructor; [reflexivity|constructor].
Defined.

Lemma unknown_endpoint_becomes_routable_witness :
  let network :=
    build_from_session_data {| graph := empty_graph |} [example_node 1]
      [example_link 1 1 7 "active"] in
  has_node (graph network) 7 = true
  ∧ dict_get (g_node (graph network)) 7 = Some []
  ∧ find_shortest_path network 1 7 = Ok (Some [1; 7]).
Proof.
  intros network.
  destruct (unknown_endpoint_becomes_routable {| graph := empty_graph |}
              [example_node 1] [example_link 1 1 7 "active"]
              (example_link 1 1 7 "active") 7)
    as (Hnode & Hbare & _ & _ & _ & Hrouted).
  - left. reflexivity.
  - reflexivity.
  - right. reflexivity.
  - simpl. intros [Heq|[]]. discriminate Heq.
  - split; [exact Hnode|]. split; [exact Hbare|].
    apply Hrouted. simpl. discriminate.
Defined.

Lemma completed_walk_shape_witness :
  let w := example_world example_engine 7%nat nobody in
  let walk :=
    _simulate_message "r1" "s" (example_message 5 1 3) line_network
      (AnomalyEngine_init []) 1%float w in
  ∃ new,
    sink walk.2 = sink w ++ new
    ∧ sent_arrived_terminal (map snd new) = true.
Proof.
  apply (proj1 (completed_walk_shape "r1" "s" (example_message 5 1 3)
                  line_network (AnomalyEngine_init []) 1%float
                  (example_world example_engine 7%nat nobody)) [1; 2; 3]).
  - vm_compute. reflexivity.
  - vm_compute. reflexivity.
  - concrete_simple_path.
  - simpl. lia.
  - vm_compute. reflexivity.
Defined.

Lemma run_failure_reported_and_torn_down_witness :
  let w := example_world example_engine 7%nat nobody in
  let finished :=
    _run_simulation "r1" "s" [example_message 5 1 2] line_network
      (AnomalyEngine_init [malformed_delay]) 1%float w in
  ∃ new,
    sink finished.2
    = sink w ++ new ++ [("s"%string, simulation_error "r1" TypeError)]
    ∧ Forall (λ p, is_error p.2 = false) new.
Proof.
  apply (proj2 (run_failure_reported_and_torn_down "r1" "s"
                  [example_message 5 1 2] line_network
                  (AnomalyEngine_init [malformed_delay]) 1%float
                  (example_world example_engine 7%nat nobody)) TypeError).
  - vm_compute. reflexivity.
  - reflexivity.
Defined.

(** ** Stopping a run *)

Lemma stop_simulation_other self x simulation_id :
  x ≠ simulation_id →
  active_simulations (stop_simulation self x) !! simulation_id
  = active_simulations self !! simulation_id
  ∧ simulation_tasks (stop_simulation self x) !! simulation_id
    = simulation_tasks self !! simulation_id.
Proof.
  intros Hne. unfold stop_simulation.
  destruct (active_simulations self !! x) eqn:Hactive; [|done].
  destruct (simulation_tasks self !! x) eqn:Htask; simpl.
  - by rewrite !lookup_delete_ne, lookup_insert_ne.
  - by rewrite lookup_delete_ne, lookup_insert_ne.
Qed.

Lemma stop_simulation_log self x :
  ∃ l, cancel_requests (stop_simulation self x) = cancel_requests self ++ l.
Proof.
  unfold stop_simulation.
  destruct (active_simulations self !! x); [|exists []; by rewrite app_nil_r].
  destruct (simulation_tasks self !! x) as [task|]; simpl;
    [by exists [task]|exists []; by rewrite app_nil_r].
Qed.

Lemma stops_log ids self :
  ∃ l,
    cancel_requests (foldl stop_simulation self ids) = cancel_requests self ++ l.
Proof.
  revert self. induction ids as [|x ids IH]; intros self; simpl.
  - exists []. by rewrite app_nil_r.
  - destruct (IH (stop_simulation self x)) as (l & ->).
    destruct (stop_simulation_log self x) as (l' & ->).
    exists (l' ++ l). by rewrite app_assoc.
Qed.

Lemma stops_other ids self simulation_id :
  ¬ In simulation_id ids →
  active_simulations (foldl stop_simulation self ids) !! simulation_id
  = active_simulations self !! simulation_id
  ∧ simulation_tasks (foldl stop_simulation self ids) !! simulation_id
    = simulation_tasks self !! simulation_id.
Proof.
  revert self. induction ids as [|x ids IH]; intros self Hnotin; simpl; [done|].
  destruct (IH (stop_simulation self x)) as [-> ->]; [simpl in Hnotin; tauto|].
  apply stop_simulation_other. intros ->. apply Hnotin. by left.
Qed.

Lemma stops_cancel ids self simulation_id task :
  In simulation_id ids →
  is_Some (active_simulations self !! simulation_id) →
  simulation_tasks self !! simulation_id = Some task →
  ∃ pre post,
    cancel_requests (foldl stop_simulation self ids)
    = cancel_requests self ++ pre ++ task :: post.
Proof.
  revert self. induction ids as [|x ids IH]; intros self Hin Hactive Htask;
    [done|]. simpl.
  destruct (decide (x = simulation_id)) as [->|Hne].
  - destruct (stops_log ids (stop_simulation self simulation_id)) as (l & ->).
    unfold stop_simulation. destruct Hactive as [flag ->]. rewrite Htask. simpl.
    exists [], l. by rewrite <- app_assoc.
  - destruct Hin as [?|Hin]; [done|].
    destruct (stop_simulation_other self x simulation_id Hne) as [Ha Ht].
    destruct (IH (stop_simulation self x) Hin) as (pre & post & ->);
      [by rewrite Ha|by rewrite Ht|].
    destruct (stop_simulation_log self x) as (l & ->).
    exists (l ++ pre), post. by rewrite <- !app_assoc.
Qed.

Lemma cancelled_since_true old new task pre post :
  cancel_requests new = cancel_requests old ++ pre ++ task :: post →
  cancelled_since old new task = true.
Proof.
  intros Hlog. unfold cancelled_since. rewrite Hlog, drop_app_length.
  apply existsb_exists. exists task. split; [|apply Nat.eqb_refl].
  apply in_or_app. right. by left.
Qed.

(** The run is registered under the task that executes it, as
    [start_simulation] leaves it. *)
Definition registered (simulation_id : string) (w : World) : Prop :=
  active_simulations (engine w) !! simulation_id = Some true
  ∧ simulation_tasks (engine w) !! simulation_id = Some (current_task w).

(** Nobody has stopped the run at a suspension point the task has passed. *)
Definition unstopped (simulation_id : string) (w : World) : Prop :=
  ∀ k, (k < suspensions w)%nat → ¬ In simulation_id (scheduler w k).

(** Every broadcast so far was made before the latest suspension point. *)
Definition timely (w : World) : Prop :=
  Forall (λ b, (b.1 < suspensions w)%nat) (journal w).

Definition running (simulation_id : string) (calls : nat → list string)
    (w : World) : Prop :=
  scheduler w = calls ∧ registered simulation_id w
  ∧ unstopped simulation_id w ∧ timely w.

(** The task was stopped at the last suspension point it reached, and
    at none before. *)
Definition halted (simulation_id : string) (calls : nat → list string)
    (w : World) : Prop :=
  scheduler w = calls ∧ timely w
  ∧ ∃ k, suspensions w = S k ∧ In simulation_id (calls k)
         ∧ ∀ j, (j < k)%nat → ¬ In simulation_id (calls j).

(** From a world in which the run goes on, [m] either leaves such a world
    or is ended by the [CancelledError] of the stop. *)
Definition guarded (simulation_id : string) (calls : nat → list string) {A}
    (m : M A) : Prop :=
  ∀ w, running simulation_id calls w →
       running simulation_id calls (m w).2
       ∨ ((m w).1 = Raise CancelledError ∧ halted simulation_id calls (m w).2).

(** [m] touches nothing but the [random] module. *)
Definition steady {A} (m : M A) : Prop :=
  ∀ w, ∃ r, (m w).2 = with_rng w r.

Lemma with_rng_same w : with_rng w (rng w) = w.
Proof. by destruct w. Qed.

Lemma with_rng_twice w r r' : with_rng (with_rng w r) r' = with_rng w r'.
Proof. done. Qed.

Lemma steady_ret {A} (a : A) : steady (mret a).
Proof. intros w. exists (rng w). by rewrite with_rng_same. Qed.

Lemma steady_lift {A} (r : result A) : steady (lift r).
Proof. intros w. exists (rng w). by rewrite with_rng_same. Qed.

Lemma steady_is_running simulation_id : steady (is_running simulation_id).
Proof. intros w. exists (rng w). by rewrite with_rng_same. Qed.

Lemma steady_bind {A B} (m : M A) (k : A → M B) :
  steady m → (∀ a, steady (k a)) → steady (m ≫= k).
Proof.
  intros Hm Hk w. unfold mbind, M_bind. destruct (Hm w) as (r & Hw).
  destruct (m w) as [[a|e] w1]; simpl in Hw; subst w1.
  - destruct (Hk a (with_rng w r)) as (r' & ->). by exists r'.
  - by exists r.
Qed.

Lemma steady_random_random : steady random_random.
Proof. intros w. by eexists. Qed.

Lemma steady_random_choice seq : steady (random_choice seq).
Proof.
  intros w. unfold random_choice. destruct (seq !! _); [by eexists|].
  exists (rng w). by rewrite with_rng_same.
Qed.

Lemma steady_should_apply_anomaly anomaly : steady (should_apply_anomaly anomaly).
Proof.
  apply steady_bind; [apply steady_random_random|intros x; apply steady_ret].
Qed.

Create HintDb steady.
#[local] Hint Resolve steady_ret steady_lift steady_is_running
  steady_random_choice : steady.

Ltac steady_scan :=
  let a := fresh "a" in
  let rules := fresh "rules" in
  let IH := fresh "IH" in
  induction (dict_values _) as [|a rules IH]; simpl;
  [ apply steady_ret
  | destruct (applies_to _ _ _); [|done];
    apply steady_bind; [apply steady_should_apply_anomaly|];
    intros [|]; [|done];
    first [ apply steady_ret
          | apply steady_bind; [auto with steady|intros ?; auto with steady] ] ].

Lemma steady_apply_packet_loss self message_id current_node_id :
  steady (apply_packet_loss self message_id current_node_id).
Proof. unfold apply_packet_loss. steady_scan. Qed.

Lemma steady_apply_delay self message_id current_node_id base_delay :
  steady (apply_delay self message_id current_node_id base_delay).
Proof. unfold apply_delay. steady_scan. Qed.

Lemma steady_apply_corruption self message_id current_node_id :
  steady (apply_corruption self message_id current_node_id).
Proof. unfold apply_corruption. steady_scan. Qed.

Lemma steady_apply_wrong_delivery self message_id current_node_id available :
  steady (apply_wrong_delivery self message_id current_node_id available).
Proof. unfold apply_wrong_delivery. steady_scan. Qed.

#[local] Hint Resolve steady_apply_packet_loss steady_apply_delay
  steady_apply_corruption steady_apply_wrong_delivery : steady.

Section guarded.
Variable simulation_id : string.
Variable calls : nat → list string.

Lemma guarded_steady {A} (m : M A) : steady m → guarded simulation_id calls m.
Proof. intros Hm w Hrun. left. by destruct (Hm w) as (r & ->). Qed.

Lemma guarded_bind {A B} (m : M A) (k : A → M B) :
  guarded simulation_id calls m → (∀ a, guarded simulation_id calls (k a)) →
  guarded simulation_id calls (m ≫= k).
Proof.
  intros Hm Hk w Hrun. unfold mbind, M_bind. specialize (Hm w Hrun).
  destruct (m w) as [[a|e] w1]; simpl in Hm.
  - destruct Hm as [Hrun1|[[=] _]]. by apply Hk.
  - destruct Hm as [Hrun1|[[= ->] Hhalt]]; [by left|by right].
Qed.

(** The heart of the matter: passing a suspension point. If the run is
    stopped there, its task is the one cancelled, so the point raises
    [CancelledError]; otherwise the run stays registered. *)
Lemma suspend_guarded w :
  scheduler w = calls → registered simulation_id w →
  unstopped simulation_id w →
  Forall (λ b, (b.1 ≤ suspensions w)%nat) (journal w) →
  running simulation_id calls (suspend w).2
  ∨ ((suspend w).1 = Raise CancelledError
     ∧ halted simulation_id calls (suspend w).2).
Proof.
  intros Hcalls [Hactive Htask] Hunstopped Hjournal.
  set (ids := scheduler w (suspensions w)).
  set (e := foldl stop_simulation (engine w) ids).
  set (w' := with_suspensions (with_engine w e) (S (suspensions w))).
  assert ((suspend w).2 = w') as Hworld.
  { unfold suspend. fold ids e w'. by destruct (cancelled_since _ _ _). }
  assert (timely w') as Htimely.
  { unfold timely, w'. simpl. eapply Forall_impl; [exact Hjournal|].
    simpl. intros; lia. }
  rewrite Hworld.
  destruct (in_dec String.string_dec simulation_id ids) as [Hin|Hnotin].
  - right. split.
    + destruct (stops_cancel ids (engine w) simulation_id (current_task w) Hin)
        as (pre & post & Hlog); [by rewrite Hactive|done|].
      assert (cancelled_since (engine w) e (current_task w) = true) as Hc
        by exact (cancelled_since_true _ _ _ _ _ Hlog).
      unfold suspend.
      change (foldl stop_simulation (engine w) (scheduler w (suspensions w)))
        with e.
      by rewrite Hc.
    + split; [done|]. split; [done|]. exists (suspensions w).
      split; [done|]. split; [by rewrite <- Hcalls|].
      intros j Hj. rewrite <- Hcalls. by apply Hunstopped.
  - left. split; [done|]. split; [|split; [|done]].
    + destruct (stops_other ids (engine w) simulation_id Hnotin) as [Ha Ht].
      fold e in Ha, Ht. split.
      * change (active_simulations e !! simulation_id = Some true).
        by rewrite Ha.
      * change (simulation_tasks e !! simulation_id = Some (current_task w)).
        by rewrite Ht.
    + intros k Hk. simpl in *.
      destruct (decide (k = suspensions w)) as [->|Hne]; [done|].
      apply Hunstopped. lia.
Qed.

Lemma guarded_sleep t : guarded simulation_id calls (sleep t).
Proof.
  intros w (Hcalls & Hreg & Hunstopped & Htimely).
  unfold sleep, mbind, M_bind.
  apply suspend_guarded; try done.
  simpl. eapply Forall_impl; [exact Htimely|]. simpl. intros; lia.
Qed.

Lemma guarded_broadcast session_id ev :
  guarded simulation_id calls (broadcast_to_session session_id ev).
Proof.
  intros w (Hcalls & Hreg & Hunstopped & Htimely).
  unfold broadcast_to_session, mbind, M_bind.
  apply suspend_guarded; try done.
  simpl. apply Forall_app. split.
  - eapply Forall_impl; [exact Htimely|]. simpl. intros; lia.
  - by repeat constructor.
Qed.

Ltac guarded_step :=
  first
    [ solve [auto 2]
    | apply guarded_steady; solve [auto with steady]
    | apply guarded_broadcast
    | apply guarded_sleep
    | apply guarded_bind; [|intros ?]
    | match goal with
      | |- guarded _ _ (match ?x with _ => _ end) => destruct x
      end ].

Lemma guarded_traverse sim session_id message network anomaly_engine
    speed_multiplier hops :
  guarded simulation_id calls
    (traverse sim session_id message network anomaly_engine speed_multiplier
       hops).
Proof.
  induction hops as [|[current_node next_node] rest IH]; simpl;
    repeat guarded_step.
Qed.

Lemma guarded_simulate_message sim session_id message network anomaly_engine
    speed_multiplier :
  guarded simulation_id calls
    (_simulate_message sim session_id message network anomaly_engine
       speed_multiplier).
Proof.
  unfold _simulate_message. pose proof guarded_traverse as Htraverse.
  repeat guarded_step.
Qed.

Lemma guarded_process_messages sim session_id messages network anomaly_engine
    speed_multiplier :
  guarded simulation_id calls
    (process_messages sim session_id messages network anomaly_engine
       speed_multiplier).
Proof.
  pose proof guarded_simulate_message as Hmessage.
  induction messages as [|message rest IH]; simpl; repeat guarded_step.
Qed.

Lemma guarded_run_body sim session_id messages network anomaly_engine
    speed_multiplier :
  guarded simulation_id calls
    (run_body sim session_id messages network anomaly_engine speed_multiplier).
Proof.
  unfold run_body. pose proof guarded_process_messages as Hmessages.
  repeat guarded_step.
Qed.

Lemma running_before w k :
  running simulation_id calls w → In simulation_id (calls k) →
  Forall (λ b, (b.1 ≤ k)%nat) (journal w).
Proof.
  intros (Hcalls & _ & Hunstopped & Htimely) Hin.
  assert (suspensions w ≤ k)%nat as Hle.
  { destruct (le_lt_dec (suspensions w) k) as [|Hlt]; [done|].
    exfalso. apply (Hunstopped k Hlt). by rewrite Hcalls. }
  eapply Forall_impl; [exact Htimely|]. simpl. intros; lia.
Qed.

Lemma halted_before w k :
  halted simulation_id calls w → In simulation_id (calls k) →
  Forall (λ b, (b.1 ≤ k)%nat) (journal w).
Proof.
  intros (_ & Htimely & k0 & Hs & _ & Hfirst) Hin.
  assert (k0 ≤ k)%nat as Hle.
  { destruct (le_lt_dec k0 k) as [|Hlt]; [done|].
    exfalso. by apply (Hfirst k Hlt). }
  eapply Forall_impl; [exact Htimely|]. simpl. intros; lia.
Qed.

End guarded.

(** C1: take a run whose task is the one registered for it, as
    [start_simulation] leaves it, and suppose another coroutine calls
    [stop_simulation] for the run (clearing its flag and cancelling its task)
    while the task is suspended at its [k]-th suspension point. Then every
    broadcast the task ever makes was made before that suspension point was
    passed: the last one can be the broadcast the task was suspended in, and
    nothing (no [packet_arrived], no terminal event, no
    [simulation_completed], no [simulation_error]) follows. *)
Theorem stopped_run_emits_nothing_further (simulation_id session_id : string)
    (messages : list Message.t) (network : NetworkGraph)
    (anomaly_engine : AnomalyEngine) (speed_multiplier : float) (w : World)
    (k : nat) :
  registered simulation_id w →
  unstopped simulation_id w →
  timely w →
  In simulation_id (scheduler w k) →
  let finished :=
    _run_simulation simulation_id session_id messages network anomaly_engine
      speed_multiplier w in
  Forall (λ b, (b.1 ≤ k)%nat) (journal finished.2).
Proof.
  intros Hreg Hunstopped Htimely Hin finished.
  unfold finished, _run_simulation.
  set (calls := scheduler w) in *.
  assert (running simulation_id calls w) as Hrun by done.
  pose proof (guarded_run_body simulation_id calls simulation_id session_id
                messages network anomaly_engine speed_multiplier w Hrun)
    as Hbody.
  destruct (run_body _ _ _ _ _ _ w) as [r w1]. simpl in Hbody.
  destruct Hbody as [Hrun1|[-> Hhalt1]].
  - destruct r as [[]|e]; simpl;
      [by apply (running_before simulation_id calls)|].
    destruct (is_Exception e); simpl;
      [|by apply (running_before simulation_id calls)].
    destruct (guarded_broadcast simulation_id calls session_id
                (simulation_error simulation_id e) w1 Hrun1) as [Hrun2|[_ Hhalt2]].
    + by apply (running_before simulation_id calls).
    + by apply (halted_before simulation_id calls).
  - simpl. by apply (halted_before simulation_id calls).
Qed.

Lemma stopped_run_emits_nothing_further_witness :
  let w := example_world example_engine 7%nat (stop_at 1) in
  let finished :=
    _run_simulation "r1" "s" [example_message 5 1 3] line_network
      (AnomalyEngine_init []) 1%float w in
  Forall (λ b, (b.1 ≤ 1)%nat) (journal finished.2).
Proof.
  apply (stopped_run_emits_nothing_further "r1" "s" [example_message 5 1 3]
           line_network (AnomalyEngine_init []) 1%float
           (example_world example_engine 7%nat (stop_at 1)) 1%nat).
  - split; vm_compute; reflexivity.
  - intros j Hj. simpl in Hj. lia.
  - constructor.
  - simpl. left. reflexivity.
Defined.

(** ** What a run does to the registries *)

Section engine_invariant.
Variable P : SimulationEngine → Prop.
Hypothesis P_stop : ∀ self simulation_id, P self → P (stop_simulation self simulation_id).

(** [m] keeps [P] true of the engine. *)
Definition keeps {A} (m : M A) : Prop := ∀ w, P (engine w) → P (engine (m w).2).

Lemma keeps_steady {A} (m : M A) : steady m → keeps m.
Proof. intros Hm w HP. by destruct (Hm w) as (r & ->). Qed.

Lemma keeps_bind {A B} (m : M A) (k : A → M B) :
  keeps m → (∀ a, keeps (k a)) → keeps (m ≫= k).
Proof.
  intros Hm Hk w HP. unfold mbind, M_bind. specialize (Hm w HP).
  destruct (m w) as [[a|e] w1]; [by apply Hk|done].
Qed.

Lemma keeps_suspend : keeps suspend.
Proof.
  intros w HP. unfold suspend.
  assert (P (foldl stop_simulation (engine w) (scheduler w (suspensions w))))
    as Hstops.
  { revert HP. generalize (engine w).
    induction (scheduler w (suspensions w)) as [|x ids IH]; intros self HP;
      simpl; [done|]. by apply IH, P_stop. }
  by destruct (cancelled_since _ _ _).
Qed.

Lemma keeps_sleep t : keeps (sleep t).
Proof. apply keeps_bind; [by intros w|intros _; apply keeps_suspend]. Qed.

Lemma keeps_broadcast session_id ev : keeps (broadcast_to_session session_id ev).
Proof. apply keeps_bind; [by intros w|intros _; apply keeps_suspend]. Qed.

Ltac keeps_step :=
  first
    [ solve [auto 2]
    | apply keeps_steady; solve [auto with steady]
    | apply keeps_broadcast
    | apply keeps_sleep
    | apply keeps_bind; [|intros ?]
    | match goal with
      | |- keeps (match ?x with _ => _ end) => destruct x
      end ].

Lemma keeps_traverse simulation_id session_id message network anomaly_engine
    speed_multiplier hops :
  keeps
    (traverse simulation_id session_id message network anomaly_engine
       speed_multiplier hops).
Proof.
  induction hops as [|[current_node next_node] rest IH]; simpl;
    repeat keeps_step.
Qed.

Lemma keeps_simulate_message simulation_id session_id message network
    anomaly_engine speed_multiplier :
  keeps
    (_simulate_message simulation_id session_id message network anomaly_engine
       speed_multiplier).
Proof.
  unfold _simulate_message. pose proof keeps_traverse as Htraverse.
  repeat keeps_step.
Qed.

Lemma keeps_process_messages simulation_id session_id messages network
    anomaly_engine speed_multiplier :
  keeps
    (process_messages simulation_id session_id messages network anomaly_engine
       speed_multiplier).
Proof.
  pose proof keeps_simulate_message as Hmessage.
  induction messages as [|message rest IH]; simpl; repeat keeps_step.
Qed.

Lemma keeps_run_body simulation_id session_id messages network anomaly_engine
    speed_multiplier :
  keeps
    (run_body simulation_id session_id messages network anomaly_engine
       speed_multiplier).
Proof.
  unfold run_body. pose proof keeps_process_messages as Hmessages.
  repeat keeps_step.
Qed.

Hypothesis P_teardown : ∀ self simulation_id, P self → P (teardown self simulation_id).

Lemma keeps_run_simulation simulation_id session_id messages network
    anomaly_engine speed_multiplier :
  keeps
    (_run_simulation simulation_id session_id messages network anomaly_engine
       speed_multiplier).
Proof.
  intros w HP. unfold _run_simulation.
  pose proof (keeps_run_body simulation_id session_id messages network
                anomaly_engine speed_multiplier w HP) as Hbody.
  destruct (run_body _ _ _ _ _ _ w) as [[[]|e] w1]; simpl in *;
    [by apply P_teardown|].
  destruct (is_Exception e); simpl; [|by apply P_teardown].
  by apply P_teardown, keeps_broadcast.
Qed.

End engine_invariant.

(** A run task, whatever is stopped meanwhile, takes reachable engine
    states to reachable engine states: the states it goes through are those
    of [reachable]. *)
Lemma run_simulation_reachable simulation_id session_id messages network
    anomaly_engine speed_multiplier w :
  reachable (engine w) →
  reachable
    (engine
       (_run_simulation simulation_id session_id messages network
          anomaly_engine speed_multiplier w).2).
Proof.
  apply (keeps_run_simulation reachable); intros self id Hreach.
  - by apply reachable_stop.
  - by apply reachable_teardown.
Qed.

(** * Further properties of the code *)

(** ** Edge information of a built topology *)

Lemma dict_get_adj_of g x y :
  dict_get (default [] (dict_get (g_adj g) x)) y = dict_get (adj_of g x) y.
Proof. done. Qed.

(** What [add_edge] changes in the adjacency table: the two entries of
    the new edge, both holding the merged attribute dictionary. *)
Lemma adj_get_add_edge g a b attr x y :
  graph_wf g →
  dict_get (adj_of (add_edge g a b attr) x) y
  = if bool_decide ((x = a ∧ y = b) ∨ (x = b ∧ y = a))
    then Some (dict_update (default [] (dict_get (adj_of g a) b)) attr)
    else dict_get (adj_of g x) y.
Proof.
  intros Hwf. rewrite add_edge_unfold. unfold adj_of at 1. simpl.
  set (g2 := with_endpoints g a b).
  assert (∀ z, adj_of g2 z = adj_of g z) as Hadj
    by (intros z; by apply adj_of_with_endpoints).
  rewrite !Hadj.
  set (dd := dict_update (default [] (dict_get (adj_of g a) b)) attr).
  destruct (decide (x = b)) as [->|Hxb].
  - rewrite dict_get_set_eq. simpl.
    destruct (decide (y = a)) as [->|Hya].
    + rewrite dict_get_set_eq. rewrite bool_decide_eq_true_2; [done|tauto].
    + rewrite dict_get_set_ne by done.
      destruct (decide (a = b)) as [->|Hab].
      * rewrite dict_get_set_eq. simpl. rewrite dict_get_set_ne by done.
        rewrite bool_decide_eq_false_2; [done|]. intros [[_ ?]|[_ ?]]; done.
      * rewrite dict_get_set_ne by done. rewrite dict_get_adj_of, Hadj.
        rewrite bool_decide_eq_false_2; [done|].
        intros [[? _]|[_ ?]]; congruence.
  - rewrite dict_get_set_ne by done.
    destruct (decide (x = a)) as [->|Hxa].
    + rewrite dict_get_set_eq. simpl.
      destruct (decide (y = b)) as [->|Hyb].
      * rewrite dict_get_set_eq. rewrite bool_decide_eq_true_2; [done|tauto].
      * rewrite dict_get_set_ne by done.
        rewrite bool_decide_eq_false_2; [done|].
        intros [[_ ?]|[? _]]; congruence.
    + rewrite dict_get_set_ne by done. rewrite dict_get_adj_of, Hadj.
      rewrite bool_decide_eq_false_2; [done|].
      intros [[? _]|[? _]]; congruence.
Qed.

(** The connection joins [u] and [v], in either direction. *)
Definition joins (u v : Z) (c : Connection.t) : bool :=
  (Z.eqb (Connection.source_node_id c) u
   && Z.eqb (Connection.destination_node_id c) v)
  || (Z.eqb (Connection.source_node_id c) v
      && Z.eqb (Connection.destination_node_id c) u).

(** The active connections that join [u] and [v]. *)
Definition links_between (u v : Z) (cs : list Connection.t)
    : list Connection.t :=
  List.filter
    (λ c, is_active_status (Connection.status c) && joins u v c) cs.

Lemma joins_spec u v c :
  joins u v c = true
  ↔ (u = Connection.source_node_id c ∧ v = Connection.destination_node_id c)
    ∨ (u = Connection.destination_node_id c ∧ v = Connection.source_node_id c).
Proof.
  unfold joins. rewrite orb_true_iff, !andb_true_iff, !Z.eqb_eq. intuition.
Qed.

(** Merging the attributes of a connection into what an earlier
    connection left (or into nothing) gives the attributes of the later. *)
Lemma edge_attrs_override (old : option Connection.t) c :
  dict_update (default [] (edge_attrs <$> old)) (edge_attrs c) = edge_attrs c.
Proof. by destruct old. Qed.

Lemma add_connections_adj cs g seen :
  graph_wf g →
  (∀ u v, dict_get (adj_of g u) v
          = edge_attrs <$> last (links_between u v seen)) →
  ∀ u v, dict_get (adj_of (add_connections g cs) u) v
         = edge_attrs <$> last (links_between u v (seen ++ cs)).
Proof.
  revert g seen. induction cs as [|c cs IH]; intros g seen Hwf Hinv u v; simpl.
  - by rewrite app_nil_r.
  - replace (seen ++ c :: cs) with ((seen ++ [c]) ++ cs)
      by (by rewrite <- app_assoc).
    destruct (is_active_status (Connection.status c)) eqn:Hactive.
    + apply IH; [by apply graph_wf_add_edge|].
      intros x y. rewrite adj_get_add_edge by done.
      unfold links_between. rewrite List.filter_app. simpl. rewrite Hactive. simpl.
      fold (links_between x y seen).
      destruct (joins x y c) eqn:Hjoins.
      * rewrite last_snoc. simpl.
        rewrite bool_decide_eq_true_2 by (by apply joins_spec).
        rewrite Hinv. f_equal.
        apply edge_attrs_override.
      * rewrite app_nil_r.
        rewrite bool_decide_eq_false_2; [apply Hinv|].
        intros Hj. apply joins_spec in Hj. congruence.
    + apply IH; [done|]. intros x y. rewrite Hinv.
      unfold links_between. rewrite List.filter_app. simpl. rewrite Hactive. simpl.
      by rewrite app_nil_r.
Qed.

Lemma build_adj self ns cs u v :
  dict_get (adj_of (graph (build_from_session_data self ns cs)) u) v
  = edge_attrs <$> last (links_between u v cs).
Proof.
  simpl. destruct (add_nodes_facts ns empty_graph graph_wf_empty)
    as (Hwf & Hadj & _).
  apply (add_connections_adj cs (add_nodes empty_graph ns) [] Hwf).
  intros x y. by rewrite Hadj.
Qed.

Lemma get_connection_info_adj network u v :
  get_connection_info network u v = dict_get (adj_of (graph network) u) v.
Proof.
  unfold get_connection_info. rewrite has_edge_adj_of. unfold dict_mem.
  by destruct (dict_get (adj_of (graph network) u) v).
Qed.

(** X2: on a topology built by [build_from_session_data], the
    information of an edge is that of the last active connection, in list
    order, that joins the two nodes in either direction; it is [None] exactly
    when no active connection joins them. *)
Theorem connection_info_is_last_link (self : NetworkGraph)
    (ns : list Node.t) (cs : list Connection.t) (u v : Z) :
  get_connection_info (build_from_session_data self ns cs) u v
  = edge_attrs <$> last (links_between u v cs).
Proof. rewrite get_connection_info_adj. apply build_adj. Qed.

Lemma links_between_sym u v cs : links_between u v cs = links_between v u cs.
Proof.
  unfold links_between. apply filter_ext. intros c. f_equal.
  unfold joins. apply orb_comm.
Qed.

(** X3: edge information does not depend on the direction asked for. *)
Theorem connection_info_symmetric (self : NetworkGraph) (ns : list Node.t)
    (cs : list Connection.t) (u v : Z) :
  let network := build_from_session_data self ns cs in
  get_connection_info network u v = get_connection_info network v u.
Proof.
  intros network. unfold network.
  rewrite !get_connection_info_adj, !build_adj. by rewrite links_between_sym.
Qed.

Lemma linked_hops g p u v :
  linked g p = true → In (u, v) (hops_of p) → has_edge g u v = true.
Proof.
  unfold hops_of. induction p as [|x [|y rest] IH]; simpl; [done|done|].
  intros Hlinked. apply andb_prop in Hlinked as [Hedge Hlinked].
  intros [[= <- <-]|Hin]; [done|]. by apply IH.
Qed.

(** X4: on a built topology no hop of a routed path is skipped: every
    hop of every path [find_all_paths] returns has edge information, namely
    the (non-empty) attributes of the last active connection joining the two
    nodes, so the walker's "no connection info" branch is not taken. *)
Theorem routed_hops_have_info (self : NetworkGraph) (ns : list Node.t)
    (cs : list Connection.t) (source_id destination_id : Z) (max_paths : nat)
    (paths : list (list Z)) (p : list Z) (u v : Z) :
  let network := build_from_session_data self ns cs in
  find_all_paths network source_id destination_id max_paths = Ok paths →
  In p paths →
  In (u, v) (hops_of p) →
  ∃ c, last (links_between u v cs) = Some c
       ∧ get_connection_info network u v = Some (edge_attrs c)
       ∧ dict_get (edge_attrs c) "latency" = Some (Connection.latency_ms c).
Proof.
  intros network Hroutes Hp Hhop.
  assert (linked (graph network) p = true) as Hlinked.
  { unfold find_all_paths in Hroutes.
    destruct (all_simple_paths (graph network) source_id destination_id 10)
      as [all|e] eqn:Hall.
    - injection Hroutes as <-. apply list_elem_of_In in Hp.
      apply subseteq_take in Hp. apply list_elem_of_In in Hp.
      apply (proj1 (sort_by_len_In _ _)) in Hp.
      by destruct (all_simple_paths_sound _ _ _ _ _ _ Hall Hp)
        as ((_ & _ & _ & Hl) & _).
    - destruct (no_route e); [|done]. injection Hroutes as <-. done. }
  pose proof (linked_hops _ _ _ _ Hlinked Hhop) as Hedge.
  rewrite has_edge_adj_of in Hedge. unfold dict_mem in Hedge.
  unfold network in *. rewrite get_connection_info_adj.
  rewrite build_adj in *.
  destruct (last (links_between u v cs)) as [c|]; [|done].
  by exists c.
Qed.

Lemma routed_hops_have_info_witness :
  ∃ c, last (links_between 2 3
               [example_link 1 1 2 "active"; example_link 2 2 3 "active"])
       = Some c
       ∧ get_connection_info line_network 2 3 = Some (edge_attrs c)
       ∧ dict_get (edge_attrs c) "latency" = Some (Connection.latency_ms c).
Proof.
  apply (routed_hops_have_info {| graph := empty_graph |}
           [example_node 1; example_node 2; example_node 3]
           [example_link 1 1 2 "active"; example_link 2 2 3 "active"]
           1 3 3 [[1; 2; 3]] [1; 2; 3] 2 3).
  - vm_compute. reflexivity.
  - left. reflexivity.
  - right. left. reflexivity.
Defined.

(** ** The four scans have one shape *)

(** The scan the four [apply_*] loops share, written once: the first
    rule of the given kind, applicable to the current node, that fires. It is
    compared with each of the four loops below. *)
Fixpoint first_firing (kind : AnomalyType) (rules : list Anomaly.t)
    (current_node_id : Z) : M (option Anomaly.t) :=
  match rules with
  | [] => mret None
  | anomaly :: rest =>
      if applies_to kind current_node_id anomaly then
        fired ← should_apply_anomaly anomaly;
        if fired : bool then mret (Some anomaly)
        else first_firing kind rest current_node_id
      else first_firing kind rest current_node_id
  end.

(** The rules of a kind that apply to the node, in table order. *)
Definition applicable (kind : AnomalyType) (current_node_id : Z)
    (rules : list Anomaly.t) : list Anomaly.t :=
  List.filter (applies_to kind current_node_id) rules.

Lemma first_firing_fires kind rules current_node_id w i r :
  applicable kind current_node_id rules !! i = Some r →
  fires r (draw w i) = true →
  (∀ j r', (j < i)%nat →
     applicable kind current_node_id rules !! j = Some r' →
     fires r' (draw w j) = false) →
  first_firing kind rules current_node_id w = (Ok (Some r), skip (S i) w).
Proof.
  unfold applicable. revert w i.
  induction rules as [|a rules IH]; intros w i Hi Hfire Hbefore; [done|].
  simpl in *. destruct (applies_to kind current_node_id a) eqn:Happ.
  - unfold mbind, M_bind. rewrite should_apply_anomaly_run.
    destruct i as [|i]; simpl in Hi.
    + injection Hi as ->. unfold draw in Hfire. rewrite Nat.add_0_r in Hfire.
      by rewrite Hfire.
    + assert (fires a (uniform (rng w) (cursor (rng w))) = false) as ->.
      { specialize (Hbefore 0%nat a). unfold draw in Hbefore.
        rewrite Nat.add_0_r in Hbefore. apply Hbefore; [lia|done]. }
      rewrite (IH (skip 1 w) i Hi).
      * by rewrite skip_skip.
      * by rewrite draw_skip.
      * intros j r' Hj Hr'. rewrite draw_skip.
        apply (Hbefore (S j)); [lia|done].
  - by apply IH.
Qed.

Lemma first_firing_none kind rules current_node_id w :
  (∀ j r', applicable kind current_node_id rules !! j = Some r' →
           fires r' (draw w j) = false) →
  first_firing kind rules current_node_id w
  = (Ok None, skip (length (applicable kind current_node_id rules)) w).
Proof.
  unfold applicable. revert w.
  induction rules as [|a rules IH]; intros w Hnone; simpl.
  - by rewrite skip_0.
  - simpl in Hnone. destruct (applies_to kind current_node_id a) eqn:Happ.
    + unfold mbind, M_bind. rewrite should_apply_anomaly_run.
      assert (fires a (uniform (rng w) (cursor (rng w))) = false) as ->.
      { specialize (Hnone 0%nat a). unfold draw in Hnone.
        rewrite Nat.add_0_r in Hnone. by apply Hnone. }
      rewrite IH.
      * by rewrite skip_skip.
      * intros j r' Hr'. rewrite draw_skip. by apply (Hnone (S j)).
    + by apply IH.
Qed.

(** [first_firing] never raises. *)
Lemma first_firing_ok kind rules current_node_id w :
  ∃ o n, first_firing kind rules current_node_id w = (Ok o, skip n w).
Proof.
  revert w. induction rules as [|a rules IH]; intros w; simpl.
  - exists None, 0%nat. by rewrite skip_0.
  - destruct (applies_to kind current_node_id a); [|apply IH].
    unfold mbind, M_bind. rewrite should_apply_anomaly_run.
    destruct (fires a _).
    + by exists (Some a), 1%nat.
    + destruct (IH (skip 1 w)) as (o & n & ->). exists o, (1 + n)%nat.
      by rewrite skip_skip.
Qed.

Lemma packet_loss_scan_first_firing rules current_node_id w :
  packet_loss_scan rules current_node_id w
  = (r ← first_firing PACKET_LOSS rules current_node_id;
     mret (bool_decide (is_Some r))) w.
Proof.
  revert w. induction rules as [|a rules IH]; intros w; simpl; [done|].
  destruct (applies_to PACKET_LOSS current_node_id a); [|apply IH].
  unfold mbind, M_bind. rewrite should_apply_anomaly_run.
  destruct (fires a _); [done|]. apply IH.
Qed.

Lemma corruption_scan_first_firing rules current_node_id w :
  corruption_scan rules current_node_id w
  = (r ← first_firing CORRUPTION rules current_node_id;
     mret (bool_decide (is_Some r))) w.
Proof.
  revert w. induction rules as [|a rules IH]; intros w; simpl; [done|].
  destruct (applies_to CORRUPTION current_node_id a); [|apply IH].
  unfold mbind, M_bind. rewrite should_apply_anomaly_run.
  destruct (fires a _); [done|]. apply IH.
Qed.

Lemma wrong_delivery_scan_first_firing rules current_node_id available w :
  wrong_delivery_scan rules current_node_id available w
  = (r ← first_firing WRONG_DELIVERY rules current_node_id;
     match r with
     | Some _ => n ← random_choice available; mret (Some n)
     | None => mret None
     end) w.
Proof.
  revert w. induction rules as [|a rules IH]; intros w; simpl; [done|].
  destruct (applies_to WRONG_DELIVERY current_node_id a); [|apply IH].
  unfold mbind, M_bind. rewrite should_apply_anomaly_run.
  destruct (fires a _); [done|]. apply IH.
Qed.

(** X5: [apply_packet_loss] and [apply_corruption] give the [j]-th
    applicable rule of their kind the [j]-th random draw and stop at the first
    rule that fires: they return [True] after exactly [i + 1] draws when the
    [i]-th is the first to fire, and [False] after one draw per applicable
    rule when none fires. Rules of another kind, or scoped to another node,
    cost no draw. *)
Theorem loss_and_corruption_first_match (self : AnomalyEngine)
    (message_id current_node_id : Z) (w : World) :
  let rules := dict_values (anomalies self) in
  let losing := applicable PACKET_LOSS current_node_id rules in
  let corrupting := applicable CORRUPTION current_node_id rules in
  (∀ i r,
     losing !! i = Some r → fires r (draw w i) = true →
     (∀ j r', (j < i)%nat → losing !! j = Some r' → fires r' (draw w j) = false) →
     apply_packet_loss self message_id current_node_id w
     = (Ok true, skip (S i) w))
  ∧ ((∀ j r', losing !! j = Some r' → fires r' (draw w j) = false) →
     apply_packet_loss self message_id current_node_id w
     = (Ok false, skip (length losing) w))
  ∧ (∀ i r,
       corrupting !! i = Some r → fires r (draw w i) = true →
       (∀ j r', (j < i)%nat → corrupting !! j = Some r' →
          fires r' (draw w j) = false) →
       apply_corruption self message_id current_node_id w
       = (Ok true, skip (S i) w))
  ∧ ((∀ j r', corrupting !! j = Some r' → fires r' (draw w j) = false) →
     apply_corruption self message_id current_node_id w
     = (Ok false, skip (length corrupting) w)).
Proof.
  intros rules losing corrupting.
  unfold apply_packet_loss, apply_corruption. fold rules.
  split; [|split; [|split]].
  - intros i r Hi Hfire Hbefore. rewrite packet_loss_scan_first_firing.
    unfold mbind, M_bind.
    by rewrite (first_firing_fires _ _ _ _ i r Hi Hfire Hbefore).
  - intros Hnone. rewrite packet_loss_scan_first_firing.
    unfold mbind, M_bind. by rewrite first_firing_none.
  - intros i r Hi Hfire Hbefore. rewrite corruption_scan_first_firing.
    unfold mbind, M_bind.
    by rewrite (first_firing_fires _ _ _ _ i r Hi Hfire Hbefore).
  - intros Hnone. rewrite corruption_scan_first_firing.
    unfold mbind, M_bind. by rewrite first_firing_none.
Qed.

(** A loss rule scoped to node 2 that always fires, behind a corruption
    rule and a loss rule scoped to node 9. *)
Definition lossy_rules : list Anomaly.t :=
  [Anomaly.mk 1 "corruption" None 1%float (Some []) true;
   Anomaly.mk 2 "packet_loss" (Some 9) 1%float (Some []) true;
   Anomaly.mk 3 "packet_loss" (Some 2) 1%float (Some []) true].

Lemma loss_and_corruption_first_match_witness :
  let w := example_world example_engine 7%nat nobody in
  apply_packet_loss (AnomalyEngine_init lossy_rules) 5 2 w = (Ok true, skip 1 w).
Proof.
  intros w.
  destruct (loss_and_corruption_first_match (AnomalyEngine_init lossy_rules)
              5 2 w) as (Hloss & _).
  apply (Hloss 0%nat (Anomaly.mk 3 "packet_loss" (Some 2) 1%float (Some []) true)).
  - reflexivity.
  - vm_compute. reflexivity.
  - intros j r' Hj. lia.
Defined.

(** ** Probabilities and draws *)

(** A rule whose probability is zero does not fire on a draw that is not
    negative, as the draws of [random.random()] are. *)
Lemma fires_zero anomaly x :
  PrimFloat.eqb (Anomaly.probability anomaly) 0%float = true →
  PrimFloat.leb 0%float x = true →
  fires anomaly x = false.
Proof.
  unfold fires.
  rewrite FloatAxioms.eqb_spec, FloatAxioms.leb_spec, FloatAxioms.ltb_spec.
  change (Prim2SF 0%float) with (S754_zero false).
  unfold SFeqb, SFleb, SFltb.
  destruct (Prim2SF (Anomaly.probability anomaly)) as [sp|sp| |sp mp ep],
    (Prim2SF x) as [sx|sx| |sx mx ex];
    simpl; try destruct sp; try destruct sx; simpl; congruence.
Qed.

Lemma applicable_In kind current_node_id rules j r :
  applicable kind current_node_id rules !! j = Some r → In r rules.
Proof.
  intros Hj. apply list_elem_of_lookup_2, list_elem_of_In in Hj.
  by apply filter_In in Hj as [? _].
Qed.

(** X6: rules of probability zero never fire. If every rule of the
    table has probability [0.0] and no draw is negative, [apply_packet_loss]
    and [apply_corruption] return [False], [apply_delay] returns the base
    delay unchanged and [apply_wrong_delivery] returns [None]. *)
Theorem zero_probability_never_fires (self : AnomalyEngine)
    (message_id current_node_id : Z) (base_delay : float)
    (available_nodes : list Z) (w : World) :
  (∀ r, In r (dict_values (anomalies self)) →
        PrimFloat.eqb (Anomaly.probability r) 0%float = true) →
  (∀ n, PrimFloat.leb 0%float (draw w n) = true) →
  (apply_packet_loss self message_id current_node_id w).1 = Ok false
  ∧ (apply_delay self message_id current_node_id base_delay w).1 = Ok base_delay
  ∧ (apply_corruption self message_id current_node_id w).1 = Ok false
  ∧ (apply_wrong_delivery self message_id current_node_id available_nodes w).1
    = Ok None.
Proof.
  intros Hzero Hdraws.
  assert (∀ kind j r',
            applicable kind current_node_id (dict_values (anomalies self)) !! j
            = Some r' → fires r' (draw w j) = false) as Hnone.
  { intros kind j r' Hj. apply fires_zero; [|done].
    by apply Hzero, (applicable_In kind current_node_id _ j). }
  unfold apply_packet_loss, apply_delay, apply_corruption, apply_wrong_delivery.
  split; [|split; [|split]].
  - rewrite packet_loss_scan_first_firing. unfold mbind, M_bind.
    by rewrite first_firing_none by apply Hnone.
  - by rewrite delay_scan_silent by apply (Hnone DELAY).
  - rewrite corruption_scan_first_firing. unfold mbind, M_bind.
    by rewrite first_firing_none by apply Hnone.
  - rewrite wrong_delivery_scan_first_firing. unfold mbind, M_bind.
    by rewrite first_firing_none by apply Hnone.
Qed.

(** Rules of all four kinds, each of probability zero. *)
Definition dormant_rules : list Anomaly.t :=
  [Anomaly.mk 1 "packet_loss" None 0%float (Some []) true;
   Anomaly.mk 2 "delay" None 0%float (Some []) true;
   Anomaly.mk 3 "corruption" None 0%float (Some []) true;
   Anomaly.mk 4 "wrong_delivery" None 0%float (Some []) true].

Lemma zero_probability_never_fires_witness :
  let w := example_world example_engine 7%nat nobody in
  (apply_packet_loss (AnomalyEngine_init dormant_rules) 5 2 w).1 = Ok false
  ∧ (apply_delay (AnomalyEngine_init dormant_rules) 5 2 10%float w).1
    = Ok 10%float
  ∧ (apply_corruption (AnomalyEngine_init dormant_rules) 5 2 w).1 = Ok false
  ∧ (apply_wrong_delivery (AnomalyEngine_init dormant_rules) 5 2 [1; 2] w).1
    = Ok None.
Proof.
  apply (zero_probability_never_fires (AnomalyEngine_init dormant_rules) 5 2
           10%float [1; 2] (example_world example_engine 7%nat nobody)).
  - intros r Hr. simpl in Hr.
    destruct Hr as [<-|[<-|[<-|[<-|[]]]]]; vm_compute; reflexivity.
  - intros n. vm_compute. reflexivity.
Defined.

Lemma random_choice_member seq w :
  match random_choice seq w with
  | (Ok x, _) => In x seq
  | (Raise e, w') => seq = [] ∧ e = IndexError ∧ w' = w
  end.
Proof.
  unfold random_choice.
  destruct (seq !! _) as [x|] eqn:Hx.
  - by apply list_elem_of_lookup_2, list_elem_of_In in Hx.
  - split; [|done]. destruct seq as [|y seq]; [done|].
    apply lookup_ge_None in Hx. simpl in Hx.
    pose proof (Nat.mod_upper_bound (integer (rng w) (cursor (rng w)))
                  (S (length seq))). lia.
Qed.

(** Some applicable rule of the kind fires on its draw. *)
Definition some_rule_fires (kind : AnomalyType) (current_node_id : Z)
    (rules : list Anomaly.t) (w : World) : Prop :=
  ∃ i r, applicable kind current_node_id rules !! i = Some r
         ∧ fires r (draw w i) = true.

Lemma first_firing_cases kind rules current_node_id w :
  (∃ i r,
     applicable kind current_node_id rules !! i = Some r
     ∧ fires r (draw w i) = true
     ∧ first_firing kind rules current_node_id w = (Ok (Some r), skip (S i) w))
  ∨ ((∀ j r', applicable kind current_node_id rules !! j = Some r' →
              fires r' (draw w j) = false)
     ∧ first_firing kind rules current_node_id w
       = (Ok None,
          skip (length (applicable kind current_node_id rules)) w)).
Proof.
  assert (∀ l : list Anomaly.t,
            (∃ i r, l !! i = Some r ∧ fires r (draw w i) = true
                    ∧ ∀ j r', (j < i)%nat → l !! j = Some r' →
                              fires r' (draw w j) = false)
            ∨ (∀ j r', l !! j = Some r' → fires r' (draw w j) = false))
    as Hcases.
  { induction l as [|a l IH] using rev_ind; [right; by intros j r' Hj|].
    destruct IH as [(i & r & Hi & Hfire & Hbefore)|Hnone].
    - left. exists i, r. split; [by apply lookup_app_l_Some|].
      split; [done|]. intros j r' Hlt Hj. apply (Hbefore j r' Hlt).
      apply lookup_lt_Some in Hi.
      by rewrite lookup_app_l in Hj by lia.
    - destruct (fires a (draw w (length l))) eqn:Hfire.
      + left. exists (length l), a.
        split; [by rewrite lookup_app_r, Nat.sub_diag by lia|].
        split; [done|]. intros j r' Hlt Hj. apply (Hnone j r').
        by rewrite lookup_app_l in Hj by lia.
      + right. intros j r' Hj.
        destruct (decide (j < length l)%nat) as [Hlt|Hge].
        * apply (Hnone j r'). by rewrite lookup_app_l in Hj by lia.
        * rewrite lookup_app_r in Hj by lia.
          destruct (j - length l)%nat as [|n] eqn:Hd; [|by destruct n].
          injection Hj as <-. by replace j with (length l) by lia. }
  destruct (Hcases (applicable kind current_node_id rules))
    as [(i & r & Hi & Hfire & Hbefore)|Hnone].
  - left. exists i, r. split; [done|]. split; [done|].
    by apply first_firing_fires.
  - right. split; [done|]. by apply first_firing_none.
Qed.

Lemma apply_wrong_delivery_result (self : AnomalyEngine)
    (message_id current_node_id : Z) (available_nodes : list Z) (w : World) :
  let fired :=
    some_rule_fires WRONG_DELIVERY current_node_id
      (dict_values (anomalies self)) w in
  match (apply_wrong_delivery self message_id current_node_id available_nodes
           w).1 with
  | Ok None => ¬ fired
  | Ok (Some n) => fired ∧ In n available_nodes
  | Raise e => fired ∧ available_nodes = [] ∧ e = IndexError
  end.
Proof.
  intros fired. unfold fired, some_rule_fires, apply_wrong_delivery.
  rewrite wrong_delivery_scan_first_firing.
  unfold mbind, M_bind.
  destruct (first_firing_cases WRONG_DELIVERY (dict_values (anomalies self))
              current_node_id w)
    as [(i & r & Hi & Hfire & ->)|[Hnone ->]].
  - pose proof (random_choice_member available_nodes (skip (S i) w))
      as Hchoice.
    destruct (random_choice available_nodes (skip (S i) w)) as [[x|e] w1];
      simpl.
    + split; [by exists i, r|done].
    + destruct Hchoice as (? & ? & _). split; [by exists i, r|done].
  - simpl. intros (i & r & Hi & Hfire). rewrite (Hnone i r Hi) in Hfire. done.
Qed.

(** X7: [apply_wrong_delivery] returns a node exactly when some applicable
    wrong-delivery rule fires on its draw, and the node is then one of the
    candidates; it returns [None] exactly when no such rule fires; it raises
    ([IndexError], from [random.choice]) only when a rule fires and the
    candidate list is empty. *)
Theorem wrong_delivery_picks_candidate (self : AnomalyEngine)
    (message_id current_node_id : Z) (available_nodes : list Z) (w : World) :
  let fired :=
    some_rule_fires WRONG_DELIVERY current_node_id
      (dict_values (anomalies self)) w in
  match (apply_wrong_delivery self message_id current_node_id available_nodes
           w).1 with
  | Ok None => ¬ fired
  | Ok (Some n) => fired ∧ In n available_nodes
  | Raise e => fired ∧ available_nodes = [] ∧ e = IndexError
  end.
Proof. apply apply_wrong_delivery_result. Qed.

(** ** The anomaly table *)

Lemma anomaly_table_get (l : list Anomaly.t) (d : dict Z Anomaly.t)
    (seen : list Anomaly.t) (i : Z) :
  dict_get d i
  = last (List.filter (λ a, Anomaly.is_active a && Z.eqb (Anomaly.id a) i) seen) →
  dict_get
    (fold_left
       (λ d a, if Anomaly.is_active a then dict_set d (Anomaly.id a) a else d)
       l d) i
  = last (List.filter (λ a, Anomaly.is_active a && Z.eqb (Anomaly.id a) i)
            (seen ++ l)).
Proof.
  revert d seen. induction l as [|a l IH]; intros d seen Hinv; simpl.
  - by rewrite app_nil_r.
  - replace (seen ++ a :: l) with ((seen ++ [a]) ++ l)
      by (by rewrite <- app_assoc).
    apply IH. rewrite List.filter_app. simpl.
    destruct (Anomaly.is_active a); simpl.
    + destruct (Z.eqb_spec (Anomaly.id a) i) as [<-|Hne].
      * by rewrite dict_get_set_eq, last_snoc.
      * by rewrite dict_get_set_ne, app_nil_r.
    + by rewrite app_nil_r.
Qed.

Lemma dict_set_Forall {K V} `{EqDecision K} (P : K * V → Prop)
    (d : dict K V) k v :
  Forall P d → P (k, v) → Forall P (dict_set d k v).
Proof.
  intros Hd Hkv. induction Hd as [|[k' v'] d Hhead Hd IH]; simpl.
  - by constructor.
  - destruct (bool_decide (k' = k)); by constructor.
Qed.

Lemma anomaly_table_entries (l : list Anomaly.t) (d : dict Z Anomaly.t) :
  Forall (λ kv, Anomaly.is_active kv.2 = true ∧ kv.1 = Anomaly.id kv.2) d →
  Forall (λ kv, Anomaly.is_active kv.2 = true ∧ kv.1 = Anomaly.id kv.2)
    (fold_left
       (λ d a, if Anomaly.is_active a then dict_set d (Anomaly.id a) a else d)
       l d).
Proof.
  revert d. induction l as [|a l IH]; intros d Hd; simpl; [done|].
  apply IH. destruct (Anomaly.is_active a) eqn:Hactive; [|done].
  by apply dict_set_Forall.
Qed.

(** X8: the anomaly table maps an id to the last active anomaly of the
    input list that carries this id, and to nothing when there is none; every
    entry of the table is an active anomaly stored under its own id. *)
Theorem anomaly_table_lookup (l : list Anomaly.t) (i : Z) :
  dict_get (anomalies (AnomalyEngine_init l)) i
  = last (List.filter (λ a, Anomaly.is_active a && Z.eqb (Anomaly.id a) i) l)
  ∧ Forall (λ kv, Anomaly.is_active kv.2 = true ∧ kv.1 = Anomaly.id kv.2)
      (anomalies (AnomalyEngine_init l)).
Proof.
  split.
  - apply (anomaly_table_get l [] [] i). done.
  - apply anomaly_table_entries. constructor.
Qed.

(** ** More on the registries *)

(** Every flag in the registry is [True]. *)
Definition all_running (self : SimulationEngine) : Prop :=
  ∀ simulation_id flag,
    active_simulations self !! simulation_id = Some flag → flag = true.

Lemma all_running_stop self simulation_id :
  all_running self → all_running (stop_simulation self simulation_id).
Proof.
  intros Hall x flag. unfold stop_simulation.
  destruct (active_simulations self !! simulation_id) eqn:Hactive;
    [|apply Hall].
  assert (delete simulation_id
            (<[simulation_id:=false]> (active_simulations self)) !! x
          = Some flag → flag = true) as Hdel.
  { destruct (decide (simulation_id = x)) as [->|Hne].
    - by rewrite lookup_delete_eq.
    - rewrite lookup_delete_ne, lookup_insert_ne by done. apply Hall. }
  by destruct (simulation_tasks self !! simulation_id).
Qed.

Lemma all_running_teardown self simulation_id :
  all_running self → all_running (teardown self simulation_id).
Proof.
  intros Hall x flag. unfold teardown. simpl.
  destruct (active_simulations self !! simulation_id) eqn:Hactive;
    [|apply Hall].
  destruct (decide (simulation_id = x)) as [->|Hne].
  - by rewrite lookup_delete_eq.
  - rewrite lookup_delete_ne by done. apply Hall.
Qed.

(** X9: the [False] that [stop_simulation] writes into the flag is never
    there to be read: in every engine state reachable through
    [start_simulation], [stop_simulation] and the teardown of runs, every run
    in [active_simulations] has the flag [True] (so the status endpoint,
    which lists the runs whose flag is [True], lists them all). *)
Theorem registered_runs_are_flagged_running (self : SimulationEngine)
    (simulation_id : string) :
  reachable self →
  is_Some (active_simulations self !! simulation_id) →
  active_simulations self !! simulation_id = Some true.
Proof.
  intros Hreach [flag Hflag]. rewrite Hflag. f_equal.
  revert simulation_id flag Hflag. change (all_running self).
  induction Hreach as [|self fresh_id ???????? IH|self ? ? IH|self ? ? IH].
  - intros x flag. simpl. by rewrite lookup_empty.
  - intros x flag. simpl. destruct (decide (fresh_id = x)) as [->|Hne].
    + rewrite lookup_insert_eq. congruence.
    + rewrite lookup_insert_ne by done. apply IH.
  - by apply all_running_stop.
  - by apply all_running_teardown.
Qed.

Lemma registered_runs_are_flagged_running_witness :
  let started :=
    (start_simulation
       (start_simulation SimulationEngine_init "r1" 7%nat "s" [] [] [] []
          1%float).1.1
       "r2" 8%nat "s" [] [] [] [] 1%float).1.1 in
  active_simulations (stop_simulation started "r1") !! "r2" = Some true.
Proof.
  intros started.
  apply (registered_runs_are_flagged_running (stop_simulation started "r1") "r2").
  - apply reachable_stop, reachable_start, reachable_start, reachable_init.
  - vm_compute. eexists. reflexivity.
Defined.

(** X10: starting a run under an id that is in neither registry and then
    stopping it restores both registries exactly; the only trace left is the
    cancellation request for the task of the run. *)
Theorem start_then_stop_restores (self : SimulationEngine) (fresh_id : string)
    (task : Task) (session_id : string) (messages : list Message.t)
    (ns : list Node.t) (connections : list Connection.t)
    (anomaly_list : list Anomaly.t) (speed_multiplier : float) :
  active_simulations self !! fresh_id = None →
  simulation_tasks self !! fresh_id = None →
  let started :=
    (start_simulation self fresh_id task session_id messages ns connections
       anomaly_list speed_multiplier).1.1 in
  stop_simulation started fresh_id
  = {| active_simulations := active_simulations self;
       simulation_tasks := simulation_tasks self;
       cancel_requests := cancel_requests self ++ [task] |}.
Proof.
  intros Hactive Htask started. unfold started, stop_simulation. simpl.
  rewrite !lookup_insert_eq. f_equal.
  - rewrite insert_insert_eq, delete_insert_eq. by apply delete_id.
  - rewrite delete_insert_eq. by apply delete_id.
Qed.

Lemma start_then_stop_restores_witness :
  stop_simulation
    (start_simulation example_engine "r2" 8%nat "s" [] [] [] [] 1%float).1.1
    "r2"
  = {| active_simulations := active_simulations example_engine;
       simulation_tasks := simulation_tasks example_engine;
       cancel_requests := cancel_requests example_engine ++ [8%nat] |}.
Proof.
  apply (start_then_stop_restores example_engine "r2" 8%nat "s" [] [] [] []
           1%float).
  - vm_compute. reflexivity.
  - vm_compute. reflexivity.
Defined.

(** X11: stopping and finishing do not get in each other's way. When the
    registries agree, the [finally] block of a run that was stopped finds
    nothing left to delete, and stopping a run that has finished does
    nothing. *)
Theorem stop_and_teardown_commute (self : SimulationEngine)
    (simulation_id : string) :
  consistent self →
  teardown (stop_simulation self simulation_id) simulation_id
  = stop_simulation self simulation_id
  ∧ stop_simulation (teardown self simulation_id) simulation_id
    = teardown self simulation_id.
Proof.
  intros Hdom. split.
  - pose proof (stop_simulation_removes self simulation_id) as Hactive.
    pose proof (consistent_stop self simulation_id Hdom) as Hdom'.
    assert (simulation_tasks (stop_simulation self simulation_id)
              !! simulation_id = None) as Htask.
    { apply not_elem_of_dom. rewrite <- Hdom'. by apply not_elem_of_dom. }
    unfold teardown. rewrite Hactive, Htask.
    by destruct (stop_simulation self simulation_id).
  - apply stop_simulation_absent, teardown_removes.
Qed.

Lemma stop_and_teardown_commute_witness :
  teardown (stop_simulation example_engine "r1") "r1"
  = stop_simulation example_engine "r1"
  ∧ stop_simulation (teardown example_engine "r1") "r1"
    = teardown example_engine "r1".
Proof.
  apply (stop_and_teardown_commute example_engine "r1").
  unfold consistent. simpl. by rewrite !dom_singleton_L.
Defined.

(** ** A cleared flag only breaks the loops *)

(** The flag check [self.active_simulations.get(simulation_id, False)]
    fails. *)
Definition flag_cleared (simulation_id : string) (self : SimulationEngine)
    : Prop :=
  default false (active_simulations self !! simulation_id) = false.

Lemma flag_cleared_stop simulation_id self x :
  flag_cleared simulation_id self →
  flag_cleared simulation_id (stop_simulation self x).
Proof.
  unfold flag_cleared. intros Hcleared.
  destruct (decide (x = simulation_id)) as [->|Hne].
  - by rewrite stop_simulation_removes.
  - by destruct (stop_simulation_other self x simulation_id Hne) as [-> _].
Qed.

Lemma traverse_cleared simulation_id session_id message network anomaly_engine
    speed_multiplier hops w :
  flag_cleared simulation_id (engine w) →
  traverse simulation_id session_id message network anomaly_engine
    speed_multiplier hops w
  = (Ok Fallthrough, w).
Proof.
  intros Hcleared. destruct hops as [|[current_node next_node] rest]; [done|].
  simpl. unfold mbind, M_bind, is_running. unfold flag_cleared in Hcleared.
  by rewrite Hcleared.
Qed.

Lemma process_messages_cleared simulation_id session_id messages network
    anomaly_engine speed_multiplier w :
  flag_cleared simulation_id (engine w) →
  process_messages simulation_id session_id messages network anomaly_engine
    speed_multiplier w
  = (Ok tt, w).
Proof.
  intros Hcleared. destruct messages as [|message rest]; [done|].
  simpl. unfold mbind, M_bind, is_running. unfold flag_cleared in Hcleared.
  by rewrite Hcleared.
Qed.

(** X1: the cooperative flag check does not by itself abort emission.
    Whenever the walker finds the flag of its run cleared (and is not itself
    cancelled), the hop loop is left by [break] before any hop is walked, and
    the walker goes on to the wrong-delivery check: a walk that has a route
    and returns normally emits [packet_sent] directly followed by
    [packet_delivered] or [packet_misdelivered]. The message loop of the run
    is likewise left without effect, after which [simulation_completed] is
    broadcast. *)
Theorem cleared_flag_falls_through (simulation_id session_id : string)
    (message : Message.t) (messages : list Message.t) (network : NetworkGraph)
    (anomaly_engine : AnomalyEngine) (speed_multiplier : float) (w : World)
    (chosen_path : list Z) (others : list (list Z)) :
  flag_cleared simulation_id (engine w) →
  let walk :=
    _simulate_message simulation_id session_id message network anomaly_engine
      speed_multiplier w in
  (find_all_paths network (Message.source_node_id message)
     (Message.destination_node_id message) 3 = Ok (chosen_path :: others) →
   walk.1 = Ok tt →
   ∃ terminal,
     sink walk.2
     = sink w
       ++ [(session_id,
            packet_sent (Message.id message) (Message.source_node_id message)
              (Message.destination_node_id message) chosen_path
              (Message.packet_size_bytes message));
           (session_id, terminal)]
     ∧ (terminal
        = packet_delivered (Message.id message)
            (Message.destination_node_id message) chosen_path
        ∨ ∃ actual,
            terminal
            = packet_misdelivered (Message.id message)
                (Message.destination_node_id message) actual))
  ∧ process_messages simulation_id session_id messages network anomaly_engine
      speed_multiplier w
    = (Ok tt, w).
Proof.
  intros Hcleared walk. split; [|by apply process_messages_cleared].
  intros Hroutes. unfold walk. clear walk.
  set (sent := packet_sent (Message.id message) (Message.source_node_id message)
                 (Message.destination_node_id message) chosen_path
                 (Message.packet_size_bytes message)).
  cut (∃ r w',
         _simulate_message simulation_id session_id message network
           anomaly_engine speed_multiplier w = (r, w')
         ∧ (r = Ok tt →
            ∃ terminal,
              sink w' = sink w ++ [(session_id, sent); (session_id, terminal)]
              ∧ (terminal
                 = packet_delivered (Message.id message)
                     (Message.destination_node_id message) chosen_path
                 ∨ ∃ actual,
                     terminal
                     = packet_misdelivered (Message.id message)
                         (Message.destination_node_id message) actual))).
  { intros (r & w' & -> & Hshape). exact Hshape. }
  unfold _simulate_message. rewrite Hroutes.
  unfold mbind, M_bind, lift.
  change (packet_sent (Message.id message) (Message.source_node_id message)
            (Message.destination_node_id message) chosen_path
            (Message.packet_size_bytes message)) with sent.
  pose proof (broadcast_sink session_id sent w) as Hsink1.
  pose proof (keeps_broadcast (flag_cleared simulation_id)
                (flag_cleared_stop simulation_id) session_id sent w Hcleared)
    as Hcleared1.
  destruct (broadcast_to_session session_id sent w) as [[[]|e1] w1];
    simpl in Hsink1, Hcleared1; [|eexists _, _; split; [reflexivity|discriminate]].
  rewrite traverse_cleared by done.
  destruct (last_node chosen_path) as [final|e2]; [|eexists _, _; split; [reflexivity|discriminate]].
  destruct (silent_apply_wrong_delivery anomaly_engine (Message.id message)
              final (nodes (graph network)) w1) as (new & Hsink2 & ->).
  rewrite app_nil_r in Hsink2.
  destruct (apply_wrong_delivery _ _ _ _ w1) as [[wrong|e3] w2];
    simpl in Hsink2; [|eexists _, _; split; [reflexivity|discriminate]].
  destruct (misdelivered_to wrong (Message.destination_node_id message))
    as [actual|].
  - pose proof (broadcast_sink session_id
                  (packet_misdelivered (Message.id message)
                     (Message.destination_node_id message) actual) w2) as Hsink3.
    destruct (broadcast_to_session _ _ w2) as [r3 w3]. simpl in Hsink3.
    exists r3, w3. split; [done|]. intros _. eexists. split.
    + rewrite Hsink3, Hsink2, Hsink1, <- app_assoc. reflexivity.
    + right. by exists actual.
  - pose proof (broadcast_sink session_id
                  (packet_delivered (Message.id message)
                     (Message.destination_node_id message) chosen_path) w2)
      as Hsink3.
    destruct (broadcast_to_session _ _ w2) as [r3 w3]. simpl in Hsink3.
    exists r3, w3. split; [done|]. intros _. eexists. split.
    + rewrite Hsink3, Hsink2, Hsink1, <- app_assoc. reflexivity.
    + by left.
Qed.

Lemma cleared_flag_falls_through_witness :
  let w := example_world SimulationEngine_init 8%nat nobody in
  let walk :=
    _simulate_message "r1" "s" (example_message 5 1 3) line_network
      (AnomalyEngine_init []) 1%float w in
  ∃ terminal,
    sink walk.2
    = sink w
      ++ [("s"%string, packet_sent 5 1 3 [1; 2; 3] (PyInt 1024));
          ("s"%string, terminal)]
    ∧ (terminal = packet_delivered 5 3 [1; 2; 3]
       ∨ ∃ actual, terminal = packet_misdelivered 5 3 actual).
Proof.
  apply (proj1 (cleared_flag_falls_through "r1" "s" (example_message 5 1 3) []
                  line_network (AnomalyEngine_init []) 1%float
                  (example_world SimulationEngine_init 8%nat nobody)
                  [1; 2; 3] [] ltac:(reflexivity))).
  - vm_compute. reflexivity.
  - vm_compute. reflexivity.
Defined.

(** X12: a run reports [simulation_error] only for an [Exception]: when
    its body returns normally or is ended by [CancelledError], the run emits
    no [simulation_error] event. *)
Theorem no_error_event_without_exception (simulation_id session_id : string)
    (messages : list Message.t) (network : NetworkGraph)
    (anomaly_engine : AnomalyEngine) (speed_multiplier : float) (w : World) :
  let body :=
    run_body simulation_id session_id messages network anomaly_engine
      speed_multiplier w in
  let finished :=
    _run_simulation simulation_id session_id messages network anomaly_engine
      speed_multiplier w in
  (∀ e, body.1 = Raise e → e = CancelledError) →
  ∃ new,
    sink finished.2 = sink w ++ new
    ∧ Forall (λ p, is_error p.2 = false) new.
Proof.
  intros body finished Hquiet. unfold finished, _run_simulation. fold body.
  destruct (only_run_body (λ ev, is_error ev = false) (λ ev H, H)
              simulation_id session_id messages network anomaly_engine
              speed_multiplier w) as (new & Hsink & Hnew).
  fold body in Hsink. exists new. split; [|done].
  destruct body as [[[]|e] w1]; simpl in *; [done|].
  by rewrite (Hquiet e eq_refl).
Qed.

Lemma no_error_event_without_exception_witness :
  let w := example_world example_engine 7%nat (stop_at 1) in
  let finished :=
    _run_simulation "r1" "s" [example_message 5 1 3] line_network
      (AnomalyEngine_init []) 1%float w in
  ∃ new,
    sink finished.2 = sink w ++ new
    ∧ Forall (λ p, is_error p.2 = false) new.
Proof.
  apply (no_error_event_without_exception "r1" "s" [example_message 5 1 3]
           line_network (AnomalyEngine_init []) 1%float
           (example_world example_engine 7%nat (stop_at 1))).
  vm_compute. intros e [= <-]. reflexivity.
Defined.

(** ** The order of a run's events *)

(** The message an event is about. *)
Definition message_of (ev : Event) : option Z :=
  match ev with
  | packet_failed i _ | packet_sent i _ _ _ _ | packet_lost i _
  | packet_arrived i _ _ _ _ | packet_misdelivered i _ _
  | packet_delivered i _ _ => Some i
  | simulation_started _ _ | simulation_completed _
  | simulation_error _ _ => None
  end.

(** The broadcast goes to the session and is about the message. *)
Definition about (session_id : string) (message : Message.t)
    (p : string * Event) : Prop :=
  p.1 = session_id ∧ message_of p.2 = Some (Message.id message).

(** Every broadcast of [m] satisfies [Q]. *)
Definition all_emitted (Q : string * Event → Prop) {A} (m : M A) : Prop :=
  emits m (λ _ new, Forall Q new).

Lemma all_emitted_silent Q {A} (m : M A) : silent m → all_emitted Q m.
Proof. intros Hm. eapply emits_weaken; [exact Hm|]. by intros r new ->. Qed.

Lemma all_emitted_bind Q {A B} (m : M A) (k : A → M B) :
  all_emitted Q m → (∀ a, all_emitted Q (k a)) → all_emitted Q (m ≫= k).
Proof.
  intros Hm Hk. eapply emits_bind; [exact Hm|done|].
  intros a new Hnew. eapply emits_weaken; [apply Hk|].
  intros r new' Hnew'. by apply Forall_app.
Qed.

Lemma all_emitted_broadcast (Q : string * Event → Prop) session_id ev :
  Q (session_id, ev) → all_emitted Q (broadcast_to_session session_id ev).
Proof.
  intros Hev. eapply emits_weaken; [apply emits_broadcast|].
  intros r new [-> _]. by constructor.
Qed.

Ltac all_emitted_step :=
  first
    [ solve [auto 2]
    | apply all_emitted_silent; solve [auto with silent]
    | apply all_emitted_broadcast; solve [done]
    | apply all_emitted_bind; [|intros ?]
    | match goal with
      | |- all_emitted _ (match ?x with _ => _ end) => destruct x
      end ].

Lemma about_traverse simulation_id session_id message network anomaly_engine
    speed_multiplier hops :
  all_emitted (about session_id message)
    (traverse simulation_id session_id message network anomaly_engine
       speed_multiplier hops).
Proof.
  induction hops as [|[current_node next_node] rest IH]; simpl;
    repeat all_emitted_step.
Qed.

Lemma about_simulate_message simulation_id session_id message network
    anomaly_engine speed_multiplier :
  all_emitted (about session_id message)
    (_simulate_message simulation_id session_id message network anomaly_engine
       speed_multiplier).
Proof.
  unfold _simulate_message.
  pose proof (about_traverse simulation_id session_id message network
                anomaly_engine speed_multiplier) as Htraverse.
  repeat all_emitted_step.
Qed.

(** The broadcasts fall into one block per message walked, in the order
    of the message list. *)
Definition in_message_order (session_id : string) (messages : list Message.t)
    (blocks : list (list (string * Event))) : Prop :=
  Forall2 (λ message block, Forall (about session_id message) block)
    (take (length blocks) messages) blocks.

Lemma process_messages_blocks simulation_id session_id messages network
    anomaly_engine speed_multiplier :
  emits
    (process_messages simulation_id session_id messages network anomaly_engine
       speed_multiplier)
    (λ _ new, ∃ blocks,
       new = concat blocks ∧ in_message_order session_id messages blocks).
Proof.
  induction messages as [|message rest IH]; simpl.
  - intros w. exists []. split; [by rewrite app_nil_r|].
    exists []. split; [done|constructor].
  - apply emits_bind_silent; [apply silent_is_running| |intros running].
    { intros e. exists []. split; [done|constructor]. }
    destruct running; simpl;
      [|intros w; exists []; split; [by rewrite app_nil_r|];
        exists []; split; [done|constructor]].
    eapply emits_bind; [apply about_simulate_message|..].
    + intros e new Hnew. exists [new]. simpl. rewrite app_nil_r.
      split; [done|]. by repeat constructor.
    + intros [] new Hnew.
      assert (∃ blocks, new ++ [] = concat blocks
                        ∧ in_message_order session_id (message :: rest) blocks)
        as Hone.
      { exists [new]. simpl. split; [done|]. by repeat constructor. }
      apply emits_bind_silent; [apply silent_lift|by intros e|intros gap].
      apply emits_bind_silent; [apply silent_sleep|by intros e|intros _].
      eapply emits_weaken; [apply IH|].
      intros r new' (blocks & -> & Hblocks). exists (new :: blocks).
      split; [done|]. unfold in_message_order. simpl. by constructor.
Qed.

Lemma run_body_events simulation_id session_id messages network
    anomaly_engine speed_multiplier :
  emits
    (run_body simulation_id session_id messages network anomaly_engine
       speed_multiplier)
    (λ r new, ∃ blocks closing,
       new = (session_id, simulation_started simulation_id (length messages))
             :: concat blocks ++ closing
       ∧ in_message_order session_id messages blocks
       ∧ (closing = []
          ∨ closing = [(session_id, simulation_completed simulation_id)]
            ∧ (r = Ok tt ∨ r = Raise CancelledError))
       ∧ (r = Ok tt →
          closing = [(session_id, simulation_completed simulation_id)])).
Proof.
  unfold run_body.
  apply emits_bind_broadcast.
  { exists [], []. split; [done|]. split; [constructor|].
    split; [by left|done]. }
  eapply emits_bind; [apply process_messages_blocks|..].
  - intros e new (bs & -> & Hbs). exists bs, [].
    rewrite app_nil_r. split; [done|]. split; [done|]. split; [by left|done].
  - intros [] new (bs & -> & Hbs).
    eapply emits_weaken; [apply emits_broadcast|].
    intros r new' [-> Hr].
    exists bs, [(session_id, simulation_completed simulation_id)].
    split; [done|]. split; [done|]. split; [by right|done].
Qed.

(** X13: the events of a run come in order. The first is
    [simulation_started]; then come the events of the messages, one block per
    message walked, the blocks in the order of the message list, every event
    of a block being about its message and broadcast to the session of the
    run; last comes at most one of [simulation_completed] (always there when
    the body returns normally) and [simulation_error]. *)
Theorem run_events_in_order (simulation_id session_id : string)
    (messages : list Message.t) (network : NetworkGraph)
    (anomaly_engine : AnomalyEngine) (speed_multiplier : float) (w : World) :
  let body :=
    run_body simulation_id session_id messages network anomaly_engine
      speed_multiplier w in
  let finished :=
    _run_simulation simulation_id session_id messages network anomaly_engine
      speed_multiplier w in
  ∃ blocks closing,
    sink finished.2
    = sink w
      ++ (session_id, simulation_started simulation_id (length messages))
         :: concat blocks ++ closing
    ∧ in_message_order session_id messages blocks
    ∧ (closing = []
       ∨ closing = [(session_id, simulation_completed simulation_id)]
       ∨ ∃ e, closing = [(session_id, simulation_error simulation_id e)])
    ∧ (body.1 = Ok tt →
       closing = [(session_id, simulation_completed simulation_id)]).
Proof.
  intros body finished.
  assert (∃ blocks closing,
            sink body.2
            = sink w
              ++ (session_id, simulation_started simulation_id (length messages))
                 :: concat blocks ++ closing
            ∧ in_message_order session_id messages blocks
            ∧ (closing = []
               ∨ closing = [(session_id, simulation_completed simulation_id)]
                 ∧ (body.1 = Ok tt ∨ body.1 = Raise CancelledError))
            ∧ (body.1 = Ok tt →
               closing = [(session_id, simulation_completed simulation_id)]))
    as (blocks & closing & Hsink & Hblocks & Hclosing & Hok).
  { destruct (run_body_events simulation_id session_id messages network
                anomaly_engine speed_multiplier w)
      as (new & Hs & bs & cl & -> & ?).
    by exists bs, cl. }
  unfold finished, _run_simulation. fold body.
  destruct body as [[[]|e] w1]; simpl in *.
  - exists blocks, closing. split; [done|]. split; [done|].
    split; [|done]. destruct Hclosing as [->|[-> _]]; auto.
  - destruct (is_Exception e) eqn:He; simpl.
    + change (sink (with_engine ?w' ?e')) with (sink w').
      rewrite broadcast_sink, Hsink.
      destruct Hclosing as [->|[_ [[=]|[= ->]]]]; [|done].
      exists blocks, [(session_id, simulation_error simulation_id e)].
      rewrite app_nil_r. split; [by rewrite <- app_assoc|].
      split; [done|]. split; [|done]. right. right. by exists e.
    + exists blocks, closing. split; [done|]. split; [done|].
      split; [|done]. destruct Hclosing as [->|[-> _]]; auto.
Qed.

(** ** Walks without anomalies *)

Lemma AnomalyEngine_init_inactive (l : list Anomaly.t) :
  Forall (λ a, Anomaly.is_active a = false) l →
  AnomalyEngine_init l = {| anomalies := [] |}.
Proof.
  intros Hl. unfold AnomalyEngine_init. f_equal.
  induction Hl as [|a l Ha _ IH]; simpl; [done|]. by rewrite Ha.
Qed.

(** The event reports no loss, no misdelivery and no corruption. *)
Definition undisturbed (ev : Event) : Prop :=
  match ev with
  | packet_lost _ _ | packet_misdelivered _ _ _ => False
  | packet_arrived _ _ _ is_corrupted _ => is_corrupted = false
  | _ => True
  end.

Lemma all_emitted_ret_bind Q {A B} (a : A) (k : A → M B) :
  all_emitted Q (k a) → all_emitted Q (mret a ≫= k).
Proof. intros Hk w. apply Hk. Qed.

Ltac undisturbed_step :=
  first
    [ solve [auto 2]
    | match goal with
      | |- all_emitted _ (apply_packet_loss _ _ _ ≫= _) =>
          apply (all_emitted_ret_bind _ false)
      | |- all_emitted _ (apply_corruption _ _ _ ≫= _) =>
          apply (all_emitted_ret_bind _ false)
      | |- all_emitted _ (apply_delay _ _ _ ?base_delay ≫= _) =>
          apply (all_emitted_ret_bind _ base_delay)
      | |- all_emitted _ (apply_wrong_delivery _ _ _ _ ≫= _) =>
          apply (all_emitted_ret_bind _ None)
      end
    | apply all_emitted_silent; solve [auto with silent]
    | apply all_emitted_broadcast; solve [done]
    | apply all_emitted_bind; [|intros ?]
    | match goal with
      | |- all_emitted _ (match ?x with _ => _ end) => destruct x
      end ].

Lemma undisturbed_traverse simulation_id session_id message network
    speed_multiplier hops :
  all_emitted (λ p, undisturbed p.2)
    (traverse simulation_id session_id message network {| anomalies := [] |}
       speed_multiplier hops).
Proof.
  induction hops as [|[current_node next_node] rest IH]; cbn [traverse];
    repeat undisturbed_step.
Qed.

(** X14: with no active anomaly, nothing disturbs a walk: whatever the
    random draws, it never emits [packet_lost] or [packet_misdelivered], and
    every [packet_arrived] it emits has [is_corrupted = False]. (Starting a
    simulation with anomalies disabled passes an empty list.) *)
Theorem no_anomaly_no_disturbance (simulation_id session_id : string)
    (message : Message.t) (network : NetworkGraph)
    (anomaly_list : list Anomaly.t) (speed_multiplier : float) (w : World) :
  Forall (λ a, Anomaly.is_active a = false) anomaly_list →
  let walk :=
    _simulate_message simulation_id session_id message network
      (AnomalyEngine_init anomaly_list) speed_multiplier w in
  ∃ new,
    sink walk.2 = sink w ++ new
    ∧ Forall (λ p, undisturbed p.2) new.
Proof.
  intros Hinactive walk. unfold walk.
  rewrite AnomalyEngine_init_inactive by done.
  cut (all_emitted (λ p, undisturbed p.2)
         (_simulate_message simulation_id session_id message network
            {| anomalies := [] |} speed_multiplier)).
  { intros Hall. apply Hall. }
  unfold _simulate_message.
  pose proof (undisturbed_traverse simulation_id session_id message network
                speed_multiplier) as Htraverse.
  repeat undisturbed_step.
Qed.

Lemma no_anomaly_no_disturbance_witness :
  let w := example_world example_engine 7%nat nobody in
  let walk :=
    _simulate_message "r1" "s" (example_message 5 1 3) line_network
      (AnomalyEngine_init
         [Anomaly.mk 1 "packet_loss" None 1%float (Some []) false])
      1%float w in
  ∃ new,
    sink walk.2 = sink w ++ new
    ∧ Forall (λ p, undisturbed p.2) new.
Proof.
  apply (no_anomaly_no_disturbance "r1" "s" (example_message 5 1 3)
           line_network
           [Anomaly.mk 1 "packet_loss" None 1%float (Some []) false] 1%float
           (example_world example_engine 7%nat nobody)).
  constructor; [reflexivity|constructor].
Defined.

(** ** Runs on well-typed data *)

(** [m] raises no [Exception]: it returns, or is ended by
    [CancelledError]. *)
Definition safe {A} (m : M A) : Prop :=
  ∀ w e, (m w).1 = Raise e → e = CancelledError.

(** Python converts the value to a [float] in arithmetic. *)
Definition numeric (v : pyval) : bool :=
  match py_float v with Ok _ => true | Raise _ => false end.

(** A delay rule carries a parameter dictionary whose
    [additional_delay_ms], when present, is a number. *)
Definition delay_typed (a : Anomaly.t) : bool :=
  negb (String.eqb (Anomaly.anomaly_type a) (AnomalyType_value DELAY))
  || match Anomaly.parameters a with
     | Some d =>
         numeric (default (PyInt 1000) (dict_get d "additional_delay_ms"))
     | None => false
     end.

(** Every edge of the topology carries a number as its latency. *)
Definition latencies_numeric (network : NetworkGraph) : Prop :=
  ∀ u v connection_info,
    get_connection_info network u v = Some connection_info →
    numeric (default (PyInt DEFAULT_PACKET_DELAY_MS)
               (dict_get connection_info "latency")) = true.

Lemma safe_ret {A} (a : A) : safe (mret a).
Proof. by intros w e. Qed.

Lemma safe_lift_ok {A} (a : A) : safe (lift (Ok a)).
Proof. by intros w e. Qed.

Lemma safe_bind {A B} (m : M A) (k : A → M B) :
  safe m → (∀ a, safe (k a)) → safe (m ≫= k).
Proof.
  intros Hm Hk w e. unfold mbind, M_bind.
  pose proof (Hm w) as Hm'.
  destruct (m w) as [[a|e'] w1]; simpl in *; [apply Hk|].
  intros [= <-]. by apply Hm'.
Qed.

Lemma safe_lift_bind {A B} (a : A) (k : A → M B) :
  safe (k a) → safe (lift (Ok a) ≫= k).
Proof. intros Hk w. apply Hk. Qed.

Lemma safe_is_running simulation_id : safe (is_running simulation_id).
Proof. by intros w e. Qed.

Lemma safe_suspend : safe suspend.
Proof.
  intros w e. unfold suspend.
  destruct (cancelled_since _ _ _); simpl; congruence.
Qed.

Lemma safe_broadcast session_id ev : safe (broadcast_to_session session_id ev).
Proof. unfold broadcast_to_session. intros w e. apply safe_suspend. Qed.

Lemma safe_sleep t : safe (sleep t).
Proof. unfold sleep. intros w e. apply safe_suspend. Qed.

Lemma safe_truediv x y :
  PrimFloat.eqb y 0%float = false → safe (lift (float_truediv x y)).
Proof. intros Hy w e. unfold lift, float_truediv. by rewrite Hy. Qed.

Lemma safe_should_apply_anomaly anomaly : safe (should_apply_anomaly anomaly).
Proof. intros w e. by rewrite should_apply_anomaly_run. Qed.

Create HintDb safe.
#[local] Hint Resolve safe_ret safe_lift_ok safe_is_running safe_broadcast
  safe_sleep safe_should_apply_anomaly : safe.
#[local] Hint Extern 1 (safe (lift (float_truediv _ _))) =>
  apply safe_truediv; first [assumption | reflexivity] : safe.

Ltac safe_step :=
  first
    [ solve [auto 2 with safe]
    | apply safe_bind; [|intros ?]
    | match goal with
      | |- safe (match ?x with _ => _ end) => destruct x
      end ].

Lemma safe_packet_loss_scan rules current_node_id :
  safe (packet_loss_scan rules current_node_id).
Proof. induction rules as [|a rules IH]; simpl; repeat safe_step. Qed.

Lemma safe_corruption_scan rules current_node_id :
  safe (corruption_scan rules current_node_id).
Proof. induction rules as [|a rules IH]; simpl; repeat safe_step. Qed.

Lemma safe_delay_scan rules current_node_id base_delay :
  Forall (λ a, delay_typed a = true) rules →
  safe (delay_scan rules current_node_id base_delay).
Proof.
  induction 1 as [|a rules Ha _ IH]; cbn [delay_scan]; [apply safe_ret|].
  destruct (applies_to DELAY current_node_id a) eqn:Happ; [|done].
  apply safe_bind; [auto with safe|]. intros [|]; [|done].
  unfold applies_to in Happ. apply andb_true_iff in Happ as [Hkind _].
  unfold delay_typed in Ha. rewrite Hkind in Ha. simpl in Ha.
  unfold parameters_get.
  destruct (Anomaly.parameters a) as [d|]; [|done].
  unfold numeric in Ha. intros w e. unfold mbind, M_bind, lift, py_add.
  by destruct (py_float _).
Qed.

Lemma safe_wrong_delivery_scan rules current_node_id available_nodes :
  available_nodes ≠ [] →
  safe (wrong_delivery_scan rules current_node_id available_nodes).
Proof.
  intros Hne.
  assert (safe (random_choice available_nodes)) as Hchoice.
  { intros w e He. pose proof (random_choice_member available_nodes w) as Hm.
    destruct (random_choice available_nodes w) as [[x|e'] w1]; [done|].
    by destruct Hm as [? _]. }
  induction rules as [|a rules IH]; simpl; repeat safe_step.
Qed.

Lemma numeric_truediv v y :
  numeric v = true → PrimFloat.eqb y 0%float = false →
  ∃ x, py_truediv v y = Ok x.
Proof.
  unfold numeric, py_truediv, float_truediv. intros Hv Hy.
  destruct (py_float v) as [x|]; [|done]. simpl. rewrite Hy. eauto.
Qed.

Section safe_walker.
Variables (simulation_id session_id : string) (network : NetworkGraph)
  (anomaly_engine : AnomalyEngine) (speed_multiplier : float).
Hypothesis speed_nonzero : PrimFloat.eqb speed_multiplier 0%float = false.
Hypothesis latencies : latencies_numeric network.
Hypothesis delays :
  Forall (λ a, delay_typed a = true) (dict_values (anomalies anomaly_engine)).

Lemma safe_traverse message hops :
  safe (traverse simulation_id session_id message network anomaly_engine
          speed_multiplier hops).
Proof.
  pose proof (safe_packet_loss_scan (dict_values (anomalies anomaly_engine)))
    as Hloss.
  pose proof (safe_corruption_scan (dict_values (anomalies anomaly_engine)))
    as Hcorruption.
  pose proof (λ n b, safe_delay_scan _ n b delays) as Hdelay.
  induction hops as [|[current_node next_node] rest IH]; cbn [traverse];
    [apply safe_ret|].
  apply safe_bind; [apply safe_is_running|]. intros running.
  destruct (negb running); [apply safe_ret|].
  destruct (get_connection_info network current_node next_node)
    as [[|kv connection_info]|] eqn:Hinfo; [done| |done].
  destruct (numeric_truediv _ 1000%float (latencies _ _ _ Hinfo) eq_refl)
    as (base_delay & ->).
  unfold apply_packet_loss, apply_delay, apply_corruption.
  repeat safe_step.
Qed.

Lemma routed_has_nodes source_id destination_id max_paths chosen_path paths :
  find_all_paths network source_id destination_id max_paths
  = Ok (chosen_path :: paths) →
  nodes (graph network) ≠ [] ∧ ∃ final, last_node chosen_path = Ok final.
Proof.
  intros Hpaths. split.
  - unfold find_all_paths in Hpaths.
    destruct (all_simple_paths _ _ _ _) as [all|e] eqn:Hall.
    + unfold all_simple_paths in Hall.
      destruct (has_node (graph network) source_id) eqn:Hnode; [|done].
      unfold has_node, dict_mem, nodes, dict_keys in *.
      by destruct (g_node (graph network)).
    + by destruct (no_route e).
  - destruct (find_all_paths_spec network source_id destination_id max_paths)
      as (paths' & Heq & _ & _ & Hsimple).
    rewrite Hpaths in Heq. injection Heq as <-.
    apply Forall_cons in Hsimple as [[(_ & Hlast & _) _] _].
    unfold last_node. rewrite Hlast. eauto.
Qed.

Lemma safe_simulate_message message :
  safe (_simulate_message simulation_id session_id message network
          anomaly_engine speed_multiplier).
Proof.
  unfold _simulate_message.
  destruct (find_all_paths network _ _ 3) as [[|chosen_path paths]|e]
    eqn:Hpaths; cycle 2.
  { destruct (find_all_paths_spec network (Message.source_node_id message)
                (Message.destination_node_id message) 3) as (? & Heq & _).
    congruence. }
  all: apply safe_lift_bind.
  - apply safe_broadcast.
  - destruct (routed_has_nodes _ _ _ _ _ Hpaths) as (Hnodes & final & ->).
    pose proof (safe_traverse message) as Htraverse.
    pose proof (λ n, safe_wrong_delivery_scan
                       (dict_values (anomalies anomaly_engine)) n _ Hnodes)
      as Hwrong.
    unfold apply_wrong_delivery.
    apply safe_bind; [apply safe_broadcast|]. intros _.
    apply safe_bind; [apply Htraverse|]. intros [|]; [|apply safe_ret].
    apply safe_lift_bind. repeat safe_step.
Qed.

Lemma safe_process_messages messages :
  safe (process_messages simulation_id session_id messages network
          anomaly_engine speed_multiplier).
Proof.
  pose proof safe_simulate_message as Hwalk.
  induction messages as [|message rest IH]; cbn [process_messages];
    repeat safe_step.
Qed.

Lemma safe_run_body messages :
  safe (run_body simulation_id session_id messages network anomaly_engine
          speed_multiplier).
Proof.
  unfold run_body. pose proof safe_process_messages as Hmessages.
  repeat safe_step.
Qed.

End safe_walker.

Lemma built_latencies_numeric self ns connections :
  Forall
    (λ c, is_active_status (Connection.status c) = true →
          numeric (Connection.latency_ms c) = true)
    connections →
  latencies_numeric (build_from_session_data self ns connections).
Proof.
  intros Hcs u v connection_info.
  rewrite get_connection_info_adj, build_adj.
  destruct (last (links_between u v connections)) as [c|] eqn:Hlast; [|done].
  intros [= <-].
  apply last_Some in Hlast as (l' & Hl').
  assert (In c (links_between u v connections)) as Hc.
  { rewrite Hl'. apply in_or_app. right. by left. }
  apply filter_In in Hc as (Hc & Hactive). apply andb_true_iff in Hactive as [Hactive _].
  rewrite Forall_forall in Hcs. apply Hcs; [|done]. by apply list_elem_of_In.
Qed.

Lemma anomaly_table_Forall (P : Anomaly.t → Prop) (l : list Anomaly.t) :
  Forall (λ a, Anomaly.is_active a = true → P a) l →
  Forall P (dict_values (anomalies (AnomalyEngine_init l))).
Proof.
  intros Hl. unfold dict_values. apply Forall_map. simpl.
  cut (∀ d : dict Z Anomaly.t,
         Forall (λ kv, P kv.2) d →
         Forall (λ kv, P kv.2)
           (fold_left
              (λ d a,
                 if Anomaly.is_active a then dict_set d (Anomaly.id a) a else d)
              l d)).
  { intros Hcut. by apply Hcut. }
  induction Hl as [|a l Ha _ IH]; intros d Hd; simpl; [done|].
  apply IH. destruct (Anomaly.is_active a); [|done].
  apply dict_set_Forall; [done|]. by apply Ha.
Qed.

(** X15: a run started on well-typed data reports no error. If the
    speed multiplier is not zero, the latency of every active connection is a
    number, and every active delay rule has a parameter dictionary whose
    [additional_delay_ms] (when present) is a number, then the run that
    [start_simulation] creates emits no [simulation_error], whatever the
    topology, the messages, the random draws and the [stop_simulation] calls
    that arrive meanwhile. *)
Theorem well_typed_run_reports_no_error (self : SimulationEngine)
    (fresh_id : string) (task : Task) (session_id : string)
    (messages : list Message.t) (ns : list Node.t)
    (connections : list Connection.t) (anomaly_list : list Anomaly.t)
    (speed_multiplier : float) (w : World) :
  PrimFloat.eqb speed_multiplier 0%float = false →
  Forall
    (λ c, is_active_status (Connection.status c) = true →
          numeric (Connection.latency_ms c) = true)
    connections →
  Forall (λ a, Anomaly.is_active a = true → delay_typed a = true)
    anomaly_list →
  let coroutine :=
    (start_simulation self fresh_id task session_id messages ns connections
       anomaly_list speed_multiplier).2 in
  ∃ new,
    sink (coroutine w).2 = sink w ++ new
    ∧ Forall (λ p, is_error p.2 = false) new.
Proof.
  intros Hspeed Hlatency Hdelay coroutine. unfold coroutine. simpl.
  set (network := build_from_session_data _ ns connections).
  set (anomaly_engine := AnomalyEngine_init anomaly_list).
  pose proof (safe_run_body fresh_id session_id network anomaly_engine
                speed_multiplier Hspeed
                (built_latencies_numeric _ ns connections Hlatency)
                (anomaly_table_Forall _ anomaly_list Hdelay) messages w)
    as Hsafe.
  destruct (only_run_body (λ ev, is_error ev = false) (λ ev H, H)
              fresh_id session_id messages network anomaly_engine
              speed_multiplier w) as (new & Hsink & Hnew).
  exists new. split; [|done].
  unfold _run_simulation.
  destruct (run_body _ _ _ _ _ _ w) as [[[]|e] w1]; simpl in *; [done|].
  by rewrite (Hsafe e eq_refl).
Qed.

Lemma well_typed_run_reports_no_error_witness :
  let w := example_world example_engine 7%nat nobody in
  let coroutine :=
    (start_simulation SimulationEngine_init "r1" 7%nat "s"
       [example_message 5 1 3]
       [example_node 1; example_node 2; example_node 3]
       [example_link 1 1 2 "active"; example_link 2 2 3 "active"]
       slow_rules 1%float).2 in
  ∃ new,
    sink (coroutine w).2 = sink w ++ new
    ∧ Forall (λ p, is_error p.2 = false) new.
Proof.
  apply (well_typed_run_reports_no_error SimulationEngine_init "r1" 7%nat "s"
           [example_message 5 1 3]
           [example_node 1; example_node 2; example_node 3]
           [example_link 1 1 2 "active"; example_link 2 2 3 "active"]
           slow_rules 1%float (example_world example_engine 7%nat nobody)).
  - reflexivity.
  - repeat constructor.
  - repeat constructor.
Defined.

(** ** Runs that nobody stops *)

(** No [stop_simulation] call for the run arrives while it executes, the
    run is flagged as running, and the task that executes it is registered
    for no other run. *)
Definition left_alone (simulation_id : string) (w : World) : Prop :=
  (∀ n, ¬ In simulation_id (scheduler w n))
  ∧ active_simulations (engine w) !! simulation_id = Some true
  ∧ (∀ x, simulation_tasks (engine w) !! x = Some (current_task w) →
          x = simulation_id).

Lemma stop_simulation_tasks self x :
  (∀ y t, simulation_tasks (stop_simulation self x) !! y = Some t →
          simulation_tasks self !! y = Some t)
  ∧ ∃ l, cancel_requests (stop_simulation self x) = cancel_requests self ++ l
         ∧ Forall (λ t, simulation_tasks self !! x = Some t) l.
Proof.
  unfold stop_simulation.
  destruct (active_simulations self !! x);
    [|split; [done|]; exists []; by rewrite app_nil_r].
  destruct (simulation_tasks self !! x) as [task|] eqn:Htask; simpl.
  - split.
    + intros y t Hy. apply lookup_delete_Some in Hy. tauto.
    + exists [task]. split; [done|]. by repeat constructor.
  - split; [done|]. exists []. by rewrite app_nil_r.
Qed.

Lemma stops_tasks ids self :
  (∀ y t, simulation_tasks (foldl stop_simulation self ids) !! y = Some t →
          simulation_tasks self !! y = Some t)
  ∧ ∃ l, cancel_requests (foldl stop_simulation self ids)
         = cancel_requests self ++ l
         ∧ Forall (λ t, ∃ x, In x ids ∧ simulation_tasks self !! x = Some t) l.
Proof.
  revert self. induction ids as [|x ids IH]; intros self; simpl.
  - split; [done|]. exists []. by rewrite app_nil_r.
  - destruct (IH (stop_simulation self x)) as (Hsub & l & -> & Hl).
    destruct (stop_simulation_tasks self x) as (Hsub' & l' & -> & Hl').
    split; [by auto|]. exists (l' ++ l). split; [by rewrite app_assoc|].
    apply Forall_app. split.
    + eapply Forall_impl; [exact Hl'|]. intros t Ht. exists x. auto.
    + eapply Forall_impl; [exact Hl|]. intros t (y & Hy & Ht).
      exists y. auto.
Qed.

Lemma left_alone_suspend simulation_id w :
  left_alone simulation_id w →
  (suspend w).1 = Ok tt ∧ left_alone simulation_id (suspend w).2.
Proof.
  intros (Hcalls & Hflag & Honly). unfold suspend.
  pose proof (Hcalls (suspensions w)) as Hnotin.
  destruct (stops_tasks (scheduler w (suspensions w)) (engine w))
    as (Hsub & l & Hlog & Hl).
  destruct (stops_other _ (engine w) simulation_id Hnotin) as [Hactive _].
  assert (cancelled_since (engine w)
            (foldl stop_simulation (engine w) (scheduler w (suspensions w)))
            (current_task w) = false) as ->.
  { unfold cancelled_since. rewrite Hlog, drop_app_length.
    apply not_true_is_false. intros Hex.
    apply existsb_exists in Hex as (t & Ht & Heq).
    apply Nat.eqb_eq in Heq as <-.
    rewrite Forall_forall in Hl. apply list_elem_of_In, Hl in Ht as (x & Hx & Ht).
    apply Honly in Ht as ->. done. }
  cbn [fst snd]. split; [done|]. unfold left_alone.
  cbn [engine scheduler current_task with_suspensions with_engine].
  split; [done|]. split; [by rewrite Hactive|].
  intros x Hx. apply Honly. by apply Hsub.
Qed.

(** A result other than [CancelledError]. *)
Definition plain {A} (r : result A) : Prop := r ≠ Raise CancelledError.

(** In a world where the run is left alone, [m] is not cancelled and
    leaves such a world. *)
Definition unhindered (simulation_id : string) {A} (m : M A) : Prop :=
  ∀ w, left_alone simulation_id w →
       plain (m w).1 ∧ left_alone simulation_id (m w).2.

Lemma plain_py_float v : plain (py_float v).
Proof.
  unfold plain. destruct v as [|b|n|x|s]; simpl; try done.
  unfold float_of_Z. by destruct (PrimFloat.is_infinity _).
Qed.

Lemma plain_float_truediv x y : plain (float_truediv x y).
Proof. unfold plain, float_truediv. by destruct (PrimFloat.eqb y 0). Qed.

Lemma plain_py_truediv v y : plain (py_truediv v y).
Proof.
  unfold py_truediv. pose proof (plain_py_float v) as Hv.
  destruct (py_float v); [apply plain_float_truediv|done].
Qed.

Lemma plain_py_add x v : plain (py_add x v).
Proof.
  unfold py_add. pose proof (plain_py_float v) as Hv.
  by destruct (py_float v).
Qed.

Lemma plain_parameters_get anomaly key fallback :
  plain (parameters_get anomaly key fallback).
Proof. unfold plain, parameters_get. by destruct (Anomaly.parameters anomaly). Qed.

Lemma plain_last_node chosen_path : plain (last_node chosen_path).
Proof. unfold plain, last_node. by destruct (last chosen_path). Qed.

Lemma plain_find_all_paths network source_id destination_id max_paths :
  plain (find_all_paths network source_id destination_id max_paths).
Proof.
  destruct (find_all_paths_spec network source_id destination_id max_paths)
    as (paths & -> & _). done.
Qed.

Section unhindered.
Variable simulation_id : string.

Lemma unhindered_ret {A} (a : A) : unhindered simulation_id (mret a).
Proof. by intros w Hw. Qed.

Lemma unhindered_lift {A} (r : result A) :
  plain r → unhindered simulation_id (lift r).
Proof. by intros Hr w Hw. Qed.

Lemma unhindered_bind {A B} (m : M A) (k : A → M B) :
  unhindered simulation_id m → (∀ a, unhindered simulation_id (k a)) →
  unhindered simulation_id (m ≫= k).
Proof.
  intros Hm Hk w Hw. unfold mbind, M_bind.
  destruct (Hm w Hw) as [Hplain Hw1].
  destruct (m w) as [[a|e] w1]; simpl in *; [by apply Hk|].
  split; [|done]. intros [= ->]. by apply Hplain.
Qed.

Lemma unhindered_is_running sim : unhindered simulation_id (is_running sim).
Proof. by intros w Hw. Qed.

Lemma unhindered_random_random : unhindered simulation_id random_random.
Proof. by intros w Hw. Qed.

Lemma unhindered_random_choice seq :
  unhindered simulation_id (random_choice seq).
Proof.
  intros w Hw. unfold random_choice. by destruct (seq !! _).
Qed.

Lemma unhindered_suspend : unhindered simulation_id suspend.
Proof.
  intros w Hw. destruct (left_alone_suspend simulation_id w Hw) as [Hr Hw'].
  split; [|done]. unfold plain. by rewrite Hr.
Qed.

Lemma unhindered_broadcast session_id ev :
  unhindered simulation_id (broadcast_to_session session_id ev).
Proof.
  unfold broadcast_to_session.
  apply unhindered_bind; [by intros w Hw|intros _; apply unhindered_suspend].
Qed.

Lemma unhindered_sleep t : unhindered simulation_id (sleep t).
Proof.
  unfold sleep.
  apply unhindered_bind; [by intros w Hw|intros _; apply unhindered_suspend].
Qed.

Create HintDb unhindered.
#[local] Hint Resolve unhindered_ret unhindered_is_running
  unhindered_random_random unhindered_random_choice unhindered_broadcast
  unhindered_sleep plain_py_truediv plain_float_truediv plain_py_add
  plain_parameters_get plain_last_node plain_find_all_paths : unhindered.
#[local] Hint Extern 1 (unhindered _ (lift _)) =>
  apply unhindered_lift : unhindered.

Ltac unhindered_step :=
  first
    [ solve [auto 3 with unhindered]
    | apply unhindered_bind; [|intros ?]
    | match goal with
      | |- unhindered _ (match ?x with _ => _ end) => destruct x
      end ].

Lemma unhindered_should_apply_anomaly anomaly :
  unhindered simulation_id (should_apply_anomaly anomaly).
Proof. unfold should_apply_anomaly. repeat unhindered_step. Qed.

Lemma unhindered_packet_loss_scan rules current_node_id :
  unhindered simulation_id (packet_loss_scan rules current_node_id).
Proof.
  pose proof unhindered_should_apply_anomaly.
  induction rules as [|a rules IH]; cbn [packet_loss_scan];
    repeat unhindered_step.
Qed.

Lemma unhindered_corruption_scan rules current_node_id :
  unhindered simulation_id (corruption_scan rules current_node_id).
Proof.
  pose proof unhindered_should_apply_anomaly.
  induction rules as [|a rules IH]; cbn [corruption_scan];
    repeat unhindered_step.
Qed.

Lemma unhindered_delay_scan rules current_node_id base_delay :
  unhindered simulation_id (delay_scan rules current_node_id base_delay).
Proof.
  pose proof unhindered_should_apply_anomaly.
  induction rules as [|a rules IH]; cbn [delay_scan];
    repeat unhindered_step.
Qed.

Lemma unhindered_wrong_delivery_scan rules current_node_id available_nodes :
  unhindered simulation_id
    (wrong_delivery_scan rules current_node_id available_nodes).
Proof.
  pose proof unhindered_should_apply_anomaly.
  induction rules as [|a rules IH]; cbn [wrong_delivery_scan];
    repeat unhindered_step.
Qed.

Lemma unhindered_traverse sim session_id message network anomaly_engine
    speed_multiplier hops :
  unhindered simulation_id
    (traverse sim session_id message network anomaly_engine speed_multiplier
       hops).
Proof.
  pose proof (unhindered_packet_loss_scan
                (dict_values (anomalies anomaly_engine))).
  pose proof (unhindered_corruption_scan
                (dict_values (anomalies anomaly_engine))).
  pose proof (unhindered_delay_scan (dict_values (anomalies anomaly_engine))).
  unfold apply_packet_loss, apply_corruption, apply_delay in *.
  induction hops as [|[current_node next_node] rest IH]; cbn [traverse];
    unfold apply_packet_loss, apply_corruption, apply_delay;
    repeat unhindered_step.
Qed.

Lemma unhindered_simulate_message sim session_id message network
    anomaly_engine speed_multiplier :
  unhindered simulation_id
    (_simulate_message sim session_id message network anomaly_engine
       speed_multiplier).
Proof.
  unfold _simulate_message, apply_wrong_delivery.
  pose proof (unhindered_traverse sim session_id message network
                anomaly_engine speed_multiplier).
  pose proof (unhindered_wrong_delivery_scan
                (dict_values (anomalies anomaly_engine))).
  repeat unhindered_step.
Qed.

Lemma unhindered_process_messages sim session_id messages network
    anomaly_engine speed_multiplier :
  unhindered simulation_id
    (process_messages sim session_id messages network anomaly_engine
       speed_multiplier).
Proof.
  pose proof (unhindered_simulate_message sim session_id).
  induction messages as [|message rest IH]; cbn [process_messages];
    repeat unhindered_step.
Qed.

Lemma unhindered_run_body sim session_id messages network anomaly_engine
    speed_multiplier :
  unhindered simulation_id
    (run_body sim session_id messages network anomaly_engine
       speed_multiplier).
Proof.
  unfold run_body.
  pose proof (unhindered_process_messages sim session_id).
  repeat unhindered_step.
Qed.

End unhindered.

Lemma broadcast_left_alone simulation_id session_id ev w :
  left_alone simulation_id w →
  (broadcast_to_session session_id ev w).1 = Ok tt
  ∧ left_alone simulation_id (broadcast_to_session session_id ev w).2
  ∧ sink (broadcast_to_session session_id ev w).2
    = sink w ++ [(session_id, ev)].
Proof.
  intros Hw.
  destruct (unhindered_broadcast simulation_id session_id ev w Hw)
    as [Hplain Hw1].
  split; [|split; [done|apply broadcast_sink]].
  by destruct (broadcast_result session_id ev w).
Qed.



(** ** Runs that complete *)

(** The events of a whole walk: [packet_failed] alone, or [packet_sent],
    zero or more [packet_arrived] and one terminal event. *)
Definition whole_walk (evs : list Event) : bool :=
  match evs with
  | [packet_failed _ _] => true
  | _ => sent_arrived_terminal evs
  end.

Section completing_run.
Variables (simulation_id session_id : string) (network : NetworkGraph)
  (anomaly_engine : AnomalyEngine) (speed_multiplier : float).
Hypothesis speed_nonzero : PrimFloat.eqb speed_multiplier 0%float = false.
Hypothesis latencies : latencies_numeric network.
Hypothesis delays :
  Forall (λ a, delay_typed a = true) (dict_values (anomalies anomaly_engine)).

Lemma simulate_message_whole message w :
  left_alone simulation_id w →
  let walk :=
    _simulate_message simulation_id session_id message network anomaly_engine
      speed_multiplier w in
  walk.1 = Ok tt
  ∧ left_alone simulation_id walk.2
  ∧ ∃ block,
      sink walk.2 = sink w ++ block
      ∧ Forall (about session_id message) block
      ∧ whole_walk (map snd block) = true.
Proof.
  intros Hw walk. unfold walk.
  destruct (unhindered_simulate_message simulation_id simulation_id session_id
              message network anomaly_engine speed_multiplier w Hw)
    as [Hplain Hw1].
  pose proof (safe_simulate_message simulation_id session_id network
                anomaly_engine speed_multiplier speed_nonzero latencies delays
                message w) as Hsafe.
  destruct (about_simulate_message simulation_id session_id message network
              anomaly_engine speed_multiplier w) as (block & Hsink & Habout).
  destruct (simulate_message_shape simulation_id session_id message network
              anomaly_engine speed_multiplier w) as (block' & Hsink' & Hpost).
  rewrite Hsink in Hsink'. apply app_inv_head in Hsink' as <-.
  destruct (_simulate_message _ _ _ _ _ _ w) as [[[]|e] w1]; simpl in *.
  - split; [done|]. split; [done|]. exists block.
    split; [done|]. split; [done|].
    destruct (find_all_paths _ _ _ _) as [[|chosen_path paths]|e];
      simpl in Hpost.
    + by rewrite Hpost.
    + destruct Hpost as (rest & -> & Hrest). simpl. by apply Hrest.
    + by destruct Hpost.
  - specialize (Hsafe e eq_refl) as ->. by destruct Hplain.
Qed.

Lemma process_messages_whole messages w :
  left_alone simulation_id w →
  let loop :=
    process_messages simulation_id session_id messages network anomaly_engine
      speed_multiplier w in
  loop.1 = Ok tt
  ∧ left_alone simulation_id loop.2
  ∧ ∃ blocks,
      sink loop.2 = sink w ++ concat blocks
      ∧ Forall2
          (λ message block,
             Forall (about session_id message) block
             ∧ whole_walk (map snd block) = true)
          messages blocks.
Proof.
  revert w. induction messages as [|message rest IH]; intros w Hw;
    cbn [process_messages].
  - split; [done|]. split; [done|]. exists [].
    split; [by rewrite app_nil_r|constructor].
  - unfold mbind, M_bind, is_running, lift, float_truediv.
    destruct Hw as (Hcalls & Hflag & Honly).
    rewrite Hflag, speed_nonzero. cbn [from_option id negb].
    assert (left_alone simulation_id w) as Hw by done.
    destruct (simulate_message_whole message w Hw)
      as (Hr & Hw1 & block & Hsink & Hblock).
    destruct (_simulate_message _ _ _ _ _ _ w) as [r w1].
    simpl in Hr, Hw1, Hsink. subst r.
    set (gap := PrimFloat.div _ speed_multiplier).
    destruct (unhindered_sleep simulation_id gap w1 Hw1) as [Hplain Hw2].
    pose proof (safe_sleep gap w1) as Hsafe.
    destruct (silent_sleep gap w1) as (new & Hsink2 & ->).
    rewrite app_nil_r in Hsink2.
    destruct (sleep gap w1) as [[[]|e] w2]; cbn [fst snd] in *;
      [|specialize (Hsafe e eq_refl) as ->; by destruct Hplain].
    destruct (IH w2 Hw2) as (Hr3 & Hw3 & blocks & Hsink3 & Hblocks).
    split; [done|]. split; [done|]. exists (block :: blocks).
    split; [|by constructor].
    simpl. by rewrite Hsink3, Hsink2, Hsink, app_assoc.
Qed.

Lemma run_simulation_whole messages w :
  left_alone simulation_id w →
  let finished :=
    _run_simulation simulation_id session_id messages network anomaly_engine
      speed_multiplier w in
  finished.1 = Ok tt
  ∧ ∃ blocks,
      sink finished.2
      = sink w
        ++ (session_id, simulation_started simulation_id (length messages))
           :: concat blocks
        ++ [(session_id, simulation_completed simulation_id)]
      ∧ Forall2
          (λ message block,
             Forall (about session_id message) block
             ∧ whole_walk (map snd block) = true)
          messages blocks.
Proof.
  intros Hw finished. unfold finished, _run_simulation, run_body.
  unfold mbind, M_bind.
  destruct (broadcast_left_alone simulation_id session_id
              (simulation_started simulation_id (length messages)) w Hw)
    as (Hr1 & Hw1 & Hs1).
  destruct (broadcast_to_session session_id (simulation_started _ _) w)
    as [r1 w1]. simpl in Hr1, Hw1, Hs1. subst r1.
  destruct (process_messages_whole messages w1 Hw1)
    as (Hr2 & Hw2 & blocks & Hs2 & Hblocks).
  destruct (process_messages _ _ _ _ _ _ w1) as [r2 w2].
  simpl in Hr2, Hw2, Hs2. subst r2.
  destruct (broadcast_left_alone simulation_id session_id
              (simulation_completed simulation_id) w2 Hw2)
    as (Hr3 & Hw3 & Hs3).
  destruct (broadcast_to_session session_id (simulation_completed _) w2)
    as [r3 w3]. simpl in Hr3, Hw3, Hs3. subst r3.
  simpl. split; [done|]. exists blocks. split; [|done].
  change (sink (with_engine ?w' ?e')) with (sink w').
  rewrite Hs3, Hs2, Hs1. by rewrite <- !app_assoc.
Qed.

End completing_run.



(** ** The nodes and edges of a built topology *)

Lemma has_node_add_nodes ns g x :
  has_node (add_nodes g ns) x = true
  ↔ In x (map Node.id ns) ∨ has_node g x = true.
Proof.
  revert g. induction ns as [|node ns IH]; intros g; [simpl; tauto|].
  change (add_nodes g (node :: ns))
    with (add_nodes (add_node g (Node.id node) (node_attrs node)) ns).
  rewrite IH, has_node_add_node. simpl. naive_solver.
Qed.

(** [c] is an active connection with [x] as one of its endpoints. *)
Definition active_endpoint (x : Z) (c : Connection.t) : Prop :=
  is_active_status (Connection.status c) = true
  ∧ (x = Connection.source_node_id c ∨ x = Connection.destination_node_id c).

Lemma has_node_add_connections cs g x :
  has_node (add_connections g cs) x = true
  ↔ has_node g x = true ∨ ∃ c, In c cs ∧ active_endpoint x c.
Proof.
  revert g. induction cs as [|c cs IH]; intros g; [simpl; naive_solver|].
  change (add_connections g (c :: cs))
    with (add_connections
            (if is_active_status (Connection.status c)
             then add_edge g (Connection.source_node_id c)
                    (Connection.destination_node_id c) (edge_attrs c)
             else g) cs).
  rewrite IH. unfold active_endpoint. simpl.
  destruct (is_active_status (Connection.status c)) eqn:Hactive.
  - rewrite has_node_add_edge. split.
    + intros [[->|[->|Hx]]|(c' & Hc' & Hx)]; eauto 8.
    + intros [Hx|(c' & [<-|Hc'] & Hact & Hx)]; [tauto| |eauto 8].
      destruct Hx as [->| ->]; tauto.
  - split.
    + intros [Hx|(c' & Hc' & Hx)]; eauto 8.
    + intros [Hx|(c' & [<-|Hc'] & Hact & Hx)]; [tauto|congruence|eauto 8].
Qed.

Lemma nodes_built self ns cs x :
  In x (nodes (graph (build_from_session_data self ns cs)))
  ↔ In x (map Node.id ns) ∨ ∃ c, In c cs ∧ active_endpoint x c.
Proof.
  unfold nodes. rewrite <- dict_mem_keys.
  change (dict_mem (g_node (graph ?network)) x) with
    (has_node (graph network) x).
  simpl. rewrite has_node_add_connections, has_node_add_nodes.
  change (has_node empty_graph x) with false. naive_solver.
Qed.

Lemma has_edge_built self ns cs u v :
  has_edge (graph (build_from_session_data self ns cs)) u v = true
  ↔ ∃ c, In c cs
         ∧ is_active_status (Connection.status c) = true
         ∧ joins u v c = true.
Proof.
  rewrite has_edge_adj_of. unfold dict_mem. rewrite build_adj.
  destruct (last (links_between u v cs)) as [c|] eqn:Hlast; simpl.
  - split; [intros _|done]. exists c.
    apply last_Some in Hlast as (l' & Hl').
    assert (In c (links_between u v cs)) as Hc.
    { rewrite Hl'. apply in_or_app. right. by left. }
    apply filter_In in Hc as (Hc & Hactive).
    apply andb_true_iff in Hactive as [? ?]. done.
  - split; [done|]. intros (c & Hc & Hactive & Hjoins).
    apply last_None in Hlast.
    assert (In c (links_between u v cs)) as Hin.
    { apply filter_In. split; [done|]. by rewrite Hactive, Hjoins. }
    rewrite Hlast in Hin. done.
Qed.

(** X18: the built topology holds exactly what the snapshots say: its
    nodes are the ids of the node list together with the endpoints of the
    active connections, and two nodes are joined by an edge exactly when
    an active connection joins them, in either direction. Inactive
    connections contribute neither nodes nor edges. *)
Theorem topology_nodes_and_edges (self : NetworkGraph) (ns : list Node.t)
    (cs : list Connection.t) :
  let network := build_from_session_data self ns cs in
  (∀ x, In x (nodes (graph network))
        ↔ In x (map Node.id ns) ∨ ∃ c, In c cs ∧ active_endpoint x c)
  ∧ (∀ u v, has_edge (graph network) u v = true
            ↔ ∃ c, In c cs
                   ∧ is_active_status (Connection.status c) = true
                   ∧ joins u v c = true).
Proof.
  intros network. split.
  - intros x. apply nodes_built.
  - intros u v. apply has_edge_built.
Qed.

(** ** Validation of a network ([app/api/v1/endpoints/simulation.py]) *)

(** [sep.join(items)]: a [TypeError] unless every item is a [str]. *)
Fixpoint str_join (sep : string) (items : list pyval) : result string :=
  match items with
  | [] => Ok ""%string
  | PyStr s :: rest =>
      match rest with
      | [] => Ok s
      | _ => result_bind (str_join sep rest) (λ t, Ok (s +:+ sep +:+ t))
      end
  | _ => Raise TypeError
  end.

(** The rows of
    [select(Connection).where(..., Connection.status == "active")]. *)
Definition active_connections_query (cs : list Connection.t)
    : list Connection.t :=
  List.filter (λ c, is_active_status (Connection.status c)) cs.

Record ValidationReport : Type := {
  is_valid : bool;
  node_count : nat;
  connection_count : nat;
  issues : list string;
  warnings : list string
}.

(** The ids added to the set [connected_nodes]. *)
Definition connected_nodes (connections : list Connection.t) : gset Z :=
  foldl
    (λ acc conn,
       acc ∪ {[Connection.source_node_id conn]}
           ∪ {[Connection.destination_node_id conn]})
    ∅ connections.

(** The body of [validate_network] once the node list [ns] and the
    active connections have been read. *)
Definition validate_network (ns : list Node.t)
    (connections : list Connection.t) : result ValidationReport :=
  let issues0 :=
    if (length ns <? 2)%nat
    then ["At least 2 nodes required for simulation"%string] else [] in
  let issues1 :=
    if (length connections <? 1)%nat
    then issues0 ++ ["At least 1 connection required for simulation"%string]
    else issues0 in
  let isolated_nodes :=
    map Node.name
      (List.filter
         (λ node, bool_decide (Node.id node ∉ connected_nodes connections))
         ns) in
  result_bind
    (match isolated_nodes with
     | [] => Ok issues1
     | _ =>
         result_bind (str_join ", " isolated_nodes)
           (λ names, Ok (issues1 ++ ["Isolated nodes found: " +:+ names]))
     end)
    (λ issues2,
       let inactive_nodes :=
         map Node.name
           (List.filter (λ node, negb (is_active_status (Node.status node)))
              ns) in
       result_bind
         (match inactive_nodes with
          | [] => Ok issues2
          | _ =>
              result_bind (str_join ", " inactive_nodes)
                (λ names, Ok (issues2 ++ ["Inactive nodes found: " +:+ names]))
          end)
         (λ issues3,
            Ok {| is_valid := bool_decide (length issues3 = 0%nat);
                  node_count := length ns;
                  connection_count := length connections;
                  issues := issues3;
                  warnings :=
                    match isolated_nodes with
                    | [] => []
                    | _ =>
                        ["Found " +:+ pretty (length isolated_nodes)
                         +:+ " isolated nodes"]
                    end |})).

Lemma connected_nodes_spec connections x :
  x ∈ connected_nodes connections
  ↔ ∃ c, In c connections
         ∧ (x = Connection.source_node_id c
            ∨ x = Connection.destination_node_id c).
Proof.
  unfold connected_nodes.
  cut (∀ acc : gset Z,
         x ∈ foldl
               (λ acc conn,
                  acc ∪ {[Connection.source_node_id conn]}
                      ∪ {[Connection.destination_node_id conn]})
               acc connections
         ↔ x ∈ acc
           ∨ ∃ c, In c connections
                  ∧ (x = Connection.source_node_id c
                     ∨ x = Connection.destination_node_id c)).
  { intros Hcut. rewrite Hcut. set_unfold. naive_solver. }
  induction connections as [|c cs IH]; intros acc; simpl; [naive_solver|].
  rewrite IH. set_unfold. naive_solver.
Qed.

Lemma incident_built self ns cs x :
  neighbors (graph (build_from_session_data self ns cs)) x ≠ []
  ↔ x ∈ connected_nodes (active_connections_query cs).
Proof.
  rewrite connected_nodes_spec. split.
  - intros Hne.
    destruct (neighbors _ x) as [|v l] eqn:Hnbrs; [done|].
    assert (has_edge (graph (build_from_session_data self ns cs)) x v = true)
      as Hedge.
    { apply has_edge_neighbors. rewrite Hnbrs. by left. }
    apply has_edge_built in Hedge as (c & Hc & Hactive & Hjoins).
    exists c. split.
    + apply filter_In. by split.
    + apply joins_spec in Hjoins. naive_solver.
  - intros (c & Hc & Hx). apply filter_In in Hc as [Hc Hactive].
    set (v := if decide (x = Connection.source_node_id c)
              then Connection.destination_node_id c
              else Connection.source_node_id c).
    assert (has_edge (graph (build_from_session_data self ns cs)) x v = true)
      as Hedge.
    { apply has_edge_built. exists c. split; [done|]. split; [done|].
      apply joins_spec. unfold v. destruct (decide _); naive_solver. }
    apply has_edge_neighbors in Hedge. intros Hnil. by rewrite Hnil in Hedge.
Qed.

(** X19: what a successful validation means for the engine. The report
    of [validate_network] says [is_valid] exactly when there are at least two
    nodes, every node has status ["active"], and every node has at least one
    neighbour in the topology that [build_from_session_data] builds from the
    same rows. *)
Theorem valid_network_meaning (self : NetworkGraph) (ns : list Node.t)
    (cs : list Connection.t) (report : ValidationReport) :
  validate_network ns (active_connections_query cs) = Ok report →
  is_valid report = true
  ↔ (2 ≤ length ns)%nat
    ∧ Forall
        (λ node,
           is_active_status (Node.status node) = true
           ∧ neighbors (graph (build_from_session_data self ns cs))
               (Node.id node) ≠ [])
        ns.
Proof.
  unfold validate_network.
  set (connections := active_connections_query cs).
  set (isolated :=
         List.filter
           (λ node, bool_decide (Node.id node ∉ connected_nodes connections))
           ns).
  set (inactive :=
         List.filter (λ node, negb (is_active_status (Node.status node))) ns).
  assert (∀ l,
            List.filter
              (λ node,
                 bool_decide (Node.id node ∉ connected_nodes connections)) l
            = []
            ∧ List.filter
                (λ node, negb (is_active_status (Node.status node))) l
              = []
            ↔ Forall
                (λ node,
                   is_active_status (Node.status node) = true
                   ∧ neighbors (graph (build_from_session_data self ns cs))
                       (Node.id node) ≠ [])
                l) as Hlists.
  { induction l as [|node l IH]; [split; [constructor|done]|].
    cbn [List.filter]. rewrite Forall_cons, <- IH, incident_built.
    fold connections.
    destruct (is_active_status (Node.status node)); cbn [negb];
      destruct (decide (Node.id node ∈ connected_nodes connections))
        as [Hin|Hnotin].
    - rewrite bool_decide_eq_false_2 by tauto. tauto.
    - rewrite bool_decide_eq_true_2 by done. split; [by intros [? ?]|tauto].
    - rewrite bool_decide_eq_false_2 by tauto.
      split; [by intros [? ?]|]. by intros [[? ?] ?].
    - rewrite bool_decide_eq_true_2 by done.
      split; [by intros [? ?]|]. by intros [[? ?] ?]. }
  specialize (Hlists ns). fold isolated inactive in Hlists.
  rewrite <- Hlists. clear Hlists.
  assert (isolated = [] → 2 ≤ length ns → 1 ≤ length connections)%nat
    as Hconn.
  { unfold isolated. clear. intros Hiso Hlen.
    destruct ns as [|node ns]; [simpl in Hlen; lia|].
    cbn [List.filter] in Hiso.
    destruct (bool_decide (Node.id node ∉ connected_nodes connections))
      eqn:Hnode; [done|].
    apply bool_decide_eq_false_1 in Hnode.
    destruct (decide (Node.id node ∈ connected_nodes connections))
      as [Hin|Hnotin]; [|done].
    apply connected_nodes_spec in Hin as (c & Hc & _).
    destruct connections; [done|simpl; lia]. }
  destruct (Nat.ltb_spec (length ns) 2) as [Hfew|Hmany];
    destruct (Nat.ltb_spec (length connections) 1) as [Hnone|Hsome];
    destruct isolated as [|n1 isolated'];
    destruct inactive as [|n2 inactive'];
    cbn [map result_bind];
    repeat match goal with
      | |- context [str_join ?sep ?l] =>
          destruct (str_join sep l); cbn [result_bind]
      end;
    intros Hreport; try discriminate Hreport;
    injection Hreport as <-; cbn [is_valid].
  all: split; [try done|try (intros [? [? ?]]; first [lia | done])].
  all: try (intros _; exfalso; specialize (Hconn eq_refl); lia).
  all: try (intros Hvalid; apply bool_decide_eq_true_1 in Hvalid;
            rewrite ?length_app in Hvalid; simpl in Hvalid; lia).
Qed.

Definition example_report : ValidationReport :=
  {| is_valid := true; node_count := 3; connection_count := 2;
     issues := []; warnings := [] |}.

Lemma valid_network_meaning_witness :
  let ns := [example_node 1; example_node 2; example_node 3] in
  let cs := [example_link 1 1 2 "active"; example_link 2 2 3 "active"] in
  is_valid example_report = true
  ↔ (2 ≤ length ns)%nat
    ∧ Forall
        (λ node,
           is_active_status (Node.status node) = true
           ∧ neighbors
               (graph
                  (build_from_session_data {| graph := empty_graph |} ns cs))
               (Node.id node) ≠ [])
        ns.
Proof.
  apply (valid_network_meaning {| graph := empty_graph |}
           [example_node 1; example_node 2; example_node 3]
           [example_link 1 1 2 "active"; example_link 2 2 3 "active"]
           example_report).
  vm_compute. reflexivity.
Defined.

(** ** The status of the runs ([app/api/v1/endpoints/simulation.py]) *)

Record StatusReport : Type := {
  status_session_id : string;
  (** the ["simulation_id"] of each entry; every entry has
      ["status": "running"] *)
  status_active_simulations : list string;
  total_active : nat
}.

(** The body of [get_simulation_status] once the session has been found.
    The entries come in the order of [map_to_list], which is not the
    insertion order of the Python dictionary. *)
Definition get_simulation_status (self : SimulationEngine)
    (session_id : string) : StatusReport :=
  let active :=
    map fst
      (List.filter (λ item : string * bool, item.2)
         (map_to_list (active_simulations self))) in
  {| status_session_id := session_id;
     status_active_simulations := active;
     total_active := length active |}.

Lemma reachable_all_running self : reachable self → all_running self.
Proof.
  induction 1 as [|self fresh_id ???????? IH|self ? ? IH|self ? ? IH].
  - intros x flag. simpl. by rewrite lookup_empty.
  - intros x flag. simpl. destruct (decide (fresh_id = x)) as [->|Hne].
    + rewrite lookup_insert_eq. congruence.
    + rewrite lookup_insert_ne by done. apply IH.
  - by apply all_running_stop.
  - by apply all_running_teardown.
Qed.

(** X20: the status endpoint lists every registered run, of whatever
    session. In every reachable engine state the ids it reports are exactly
    the keys of [active_simulations], each once, and [total_active] is their
    number; the session asked for plays no part. *)
Theorem status_lists_every_run (self : SimulationEngine)
    (session_id : string) :
  reachable self →
  let report := get_simulation_status self session_id in
  (∀ simulation_id,
     In simulation_id (status_active_simulations report)
     ↔ is_Some (active_simulations self !! simulation_id))
  ∧ NoDup (status_active_simulations report)
  ∧ total_active report = size (active_simulations self).
Proof.
  intros Hreach report. apply reachable_all_running in Hreach.
  assert (List.filter (λ item : string * bool, item.2)
            (map_to_list (active_simulations self))
          = map_to_list (active_simulations self)) as Hall.
  { apply forallb_filter_id, forallb_forall. intros [x flag] Hx.
    apply list_elem_of_In, elem_of_map_to_list in Hx.
    simpl. by apply Hreach in Hx. }
  unfold report, get_simulation_status. simpl. rewrite Hall.
  split; [|split].
  - intros x. rewrite <- list_elem_of_In, list_elem_of_fmap. split.
    + intros ([y flag] & -> & Hy). apply elem_of_map_to_list in Hy. eauto.
    + intros [flag Hflag]. exists (x, flag). split; [done|].
      by apply elem_of_map_to_list.
  - apply NoDup_fst_map_to_list.
  - by rewrite length_map, length_map_to_list.
Qed.

Lemma status_lists_every_run_witness :
  let started :=
    (start_simulation
       (start_simulation SimulationEngine_init "r1" 7%nat "s" [] [] [] []
          1%float).1.1
       "r2" 8%nat "t" [] [] [] [] 1%float).1.1 in
  let report := get_simulation_status started "s" in
  (∀ simulation_id,
     In simulation_id (status_active_simulations report)
     ↔ is_Some (active_simulations started !! simulation_id))
  ∧ NoDup (status_active_simulations report)
  ∧ total_active report = size (active_simulations started).
Proof.
  intros started.
  apply (status_lists_every_run started "s").
  apply reachable_start, reachable_start, reachable_init.
Defined.

(** * The connection manager ([app/websocket/manager.py]) *)

(** A [WebSocket] object, by identity. *)
Definition WebSocket : Type := nat.

Record ConnectionManager : Type := {
  active_connections : gmap string (list WebSocket)
}.

(** [ConnectionManager.__init__] *)
Definition ConnectionManager_init : ConnectionManager :=
  {| active_connections := ∅ |}.

(** [ConnectionManager.connect], from the point where
    [await websocket.accept()] has returned. *)
Definition connect (self : ConnectionManager) (websocket : WebSocket)
    (session_id : string) : ConnectionManager :=
  let connections :=
    match active_connections self !! session_id with
    | Some connections => connections
    | None => []
    end in
  {| active_connections :=
       <[session_id := connections ++ [websocket]]> (active_connections self) |}.

(** [list.remove(x)]: the list without the first occurrence of [x];
    [None] stands for the [ValueError] raised when there is none. *)
Fixpoint list_remove (x : WebSocket) (l : list WebSocket)
    : option (list WebSocket) :=
  match l with
  | [] => None
  | y :: l' => if Nat.eqb y x then Some l' else cons y <$> list_remove x l'
  end.

(** [ConnectionManager.disconnect] *)
Definition disconnect (self : ConnectionManager) (websocket : WebSocket)
    (session_id : string) : ConnectionManager :=
  match active_connections self !! session_id with
  | Some connections =>
      match list_remove websocket connections with
      | Some [] =>
          {| active_connections := delete session_id (active_connections self) |}
      | Some remaining =>
          {| active_connections :=
               <[session_id := remaining]> (active_connections self) |}
      | None => self
      end
  | None => self
  end.

(** How one [await connection.send_text(...)] ends: it returns, it raises
    an [Exception], or the task is cancelled while it waits
    ([CancelledError] is not an [Exception]). *)
Inductive send_outcome : Type :=
| Sent
| Failed
| Cancelled.

(** The first loop of [send_to_session]: the list [dead_connections],
    [i] being the number of sends made before. *)
Fixpoint dead_connections (send_text : nat → WebSocket → send_outcome)
    (i : nat) (connections : list WebSocket) : result (list WebSocket) :=
  match connections with
  | [] => Ok []
  | connection :: rest =>
      match send_text i connection with
      | Sent => dead_connections send_text (S i) rest
      | Failed =>
          result_bind (dead_connections send_text (S i) rest)
            (λ dead, Ok (connection :: dead))
      | Cancelled => Raise CancelledError
      end
  end.

(** [ConnectionManager.send_to_session], no other coroutine changing the
    manager while the sends are awaited. *)
Definition send_to_session (self : ConnectionManager) (session_id : string)
    (send_text : nat → WebSocket → send_outcome)
    : result unit * ConnectionManager :=
  match active_connections self !! session_id with
  | Some connections =>
      match dead_connections send_text 0 connections with
      | Ok dead =>
          (Ok tt,
           foldl (λ self connection, disconnect self connection session_id)
             self dead)
      | Raise e => (Raise e, self)
      end
  | None => (Ok tt, self)
  end.

(** The manager states that [connect], [disconnect] and
    [send_to_session] produce from a fresh manager. *)
Inductive reachable_manager : ConnectionManager → Prop :=
| reachable_manager_init : reachable_manager ConnectionManager_init
| reachable_connect self websocket session_id :
    reachable_manager self →
    reachable_manager (connect self websocket session_id)
| reachable_disconnect self websocket session_id :
    reachable_manager self →
    reachable_manager (disconnect self websocket session_id)
| reachable_send self session_id send_text :
    reachable_manager self →
    reachable_manager (send_to_session self session_id send_text).2.

(** No session is registered with an empty list of connections. *)
Definition no_empty_session (self : ConnectionManager) : Prop :=
  ∀ session_id, active_connections self !! session_id ≠ Some [].

Lemma no_empty_session_connect self websocket session_id :
  no_empty_session self → no_empty_session (connect self websocket session_id).
Proof.
  intros Hself x. unfold connect. simpl.
  destruct (decide (session_id = x)) as [->|Hne].
  - rewrite lookup_insert_eq. intros [= Heq]. by destruct (_ !! x) as [[|]|].
  - rewrite lookup_insert_ne by done. apply Hself.
Qed.

Lemma no_empty_session_disconnect self websocket session_id :
  no_empty_session self →
  no_empty_session (disconnect self websocket session_id).
Proof.
  intros Hself x. unfold disconnect.
  destruct (active_connections self !! session_id) as [l|]; [|apply Hself].
  destruct (list_remove websocket l) as [[|c remaining]|]; simpl;
    [| |apply Hself].
  - destruct (decide (session_id = x)) as [->|Hne].
    + by rewrite lookup_delete_eq.
    + rewrite lookup_delete_ne by done. apply Hself.
  - destruct (decide (session_id = x)) as [->|Hne].
    + by rewrite lookup_insert_eq.
    + rewrite lookup_insert_ne by done. apply Hself.
Qed.

Lemma no_empty_session_disconnects self dead session_id :
  no_empty_session self →
  no_empty_session
    (foldl (λ self connection, disconnect self connection session_id) self
       dead).
Proof.
  revert self. induction dead as [|c dead IH]; intros self Hself; [done|].
  simpl. by apply IH, no_empty_session_disconnect.
Qed.

(** X21: the manager never keeps a session with no connection. In every
    state that [connect], [disconnect] and [send_to_session] produce from a
    fresh manager, no key of [active_connections] maps to the empty list: a
    session whose last connection goes is removed. *)
Theorem no_session_without_connection (self : ConnectionManager)
    (session_id : string) :
  reachable_manager self →
  active_connections self !! session_id ≠ Some [].
Proof.
  intros Hreach. revert session_id. change (no_empty_session self).
  induction Hreach as [|self ws sid _ IH|self ws sid _ IH|self sid send _ IH].
  - intros x. simpl. by rewrite lookup_empty.
  - by apply no_empty_session_connect.
  - by apply no_empty_session_disconnect.
  - unfold send_to_session.
    destruct (active_connections self !! sid) as [l|]; [|done].
    destruct (dead_connections send 0 l) as [dead|e]; [|done].
    by apply no_empty_session_disconnects.
Qed.

Lemma no_session_without_connection_witness :
  let self :=
    disconnect (connect (connect ConnectionManager_init 1%nat "s") 2%nat "t")
      1%nat "s" in
  active_connections self !! "s" ≠ Some [].
Proof.
  intros self.
  apply (no_session_without_connection self "s").
  apply reachable_disconnect, reachable_connect, reachable_connect,
    reachable_manager_init.
Defined.

(** ** Pruning dead connections *)

(** The connections whose send returned. *)
Fixpoint delivered (send_text : nat → WebSocket → send_outcome) (i : nat)
    (connections : list WebSocket) : list WebSocket :=
  match connections with
  | [] => []
  | connection :: rest =>
      match send_text i connection with
      | Sent => connection :: delivered send_text (S i) rest
      | _ => delivered send_text (S i) rest
      end
  end.

Lemma filter_other_notin (x : WebSocket) (l : list WebSocket) :
  x ∉ l → filter (λ y, y ≠ x) l = l.
Proof.
  induction l as [|y l IH]; intros Hx; [done|].
  apply not_elem_of_cons in Hx as [Hne Hx].
  rewrite filter_cons_True by done. by rewrite IH.
Qed.

Lemma list_remove_NoDup x (l : list WebSocket) :
  NoDup l → x ∈ l → list_remove x l = Some (filter (λ y, y ≠ x) l).
Proof.
  induction 1 as [|y l Hy Hl IH]; intros Hx; [by apply elem_of_nil in Hx|].
  simpl. destruct (Nat.eqb_spec y x) as [->|Hne].
  - rewrite filter_cons_False by (by intros ?).
    by rewrite filter_other_notin.
  - apply elem_of_cons in Hx as [->|Hx]; [done|].
    rewrite IH by done. by rewrite filter_cons_True.
Qed.

(** The registry after the connections [dead], all of them in the list
    [l] of the session, have been disconnected one after the other. *)
Lemma disconnects_registry self session_id (l dead : list WebSocket) :
  active_connections self !! session_id = Some l →
  NoDup l → NoDup dead → dead ⊆ l → dead ≠ [] →
  active_connections
    (foldl (λ self connection, disconnect self connection session_id) self
       dead)
  = match filter (λ c, c ∉ dead) l with
    | [] => delete session_id (active_connections self)
    | alive => <[session_id := alive]> (active_connections self)
    end.
Proof.
  revert self l. induction dead as [|c dead IH];
    intros self l Hget Hl Hdead Hsub Hsome; [by destruct Hsome|].
  clear Hsome.
  apply NoDup_cons in Hdead as [Hc Hdead].
  assert (c ∈ l) as Hcl by (apply Hsub; by left).
  assert (dead ⊆ filter (λ y, y ≠ c) l) as Hsub'.
  { intros x Hx. apply list_elem_of_filter. split; [by intros ->|].
    apply Hsub. by right. }
  assert (∀ l' : list WebSocket,
            filter (λ x, x ∉ dead) (filter (λ y, y ≠ c) l')
                = filter (λ x, x ∉ c :: dead) l') as Hfilter.
  { induction l' as [|y l' IHl']; [done|].
    destruct (decide (y = c)) as [->|Hne].
    - rewrite (filter_cons_False (λ y, y ≠ c)) by (by intros ?).
      rewrite (filter_cons_False (λ x, x ∉ c :: dead)); [done|].
      intros Hn. apply Hn. by left.
    - rewrite (filter_cons_True (λ y, y ≠ c)) by done.
      destruct (decide (y ∈ dead)) as [Hy|Hy].
      + rewrite !filter_cons_False; [done|..].
        * intros Hn. apply Hn. by right.
        * by intros ?.
      + rewrite !filter_cons_True; [by rewrite IHl'|..]; [|done].
        by intros [?|?]%elem_of_cons. }
  cbn [foldl]. unfold disconnect at 2. rewrite Hget.
  rewrite (list_remove_NoDup c l) by done.
  destruct (filter (λ y, y ≠ c) l) as [|y remaining] eqn:Hrem.
  - assert (dead = []) as ->.
    { destruct dead as [|x dead]; [done|].
      assert (x ∈ @nil WebSocket) as Hx by (apply Hsub'; by left).
      by apply elem_of_nil in Hx. }
    simpl. by rewrite <- Hfilter, Hrem.
  - destruct dead as [|x dead'] eqn:Hd.
    + simpl. rewrite <- Hfilter, Hrem.
      assert (filter (λ x, x ∉ @nil WebSocket) (y :: remaining)
              = y :: remaining) as ->; [|done].
      clear. induction (y :: remaining) as [|z l IH]; [done|].
      rewrite filter_cons_True by apply not_elem_of_nil. by rewrite IH.
    + rewrite <- Hd in *. rewrite (IH _ (y :: remaining)).
      * cbn [active_connections]. rewrite <- Hrem, Hfilter.
        destruct (filter (λ x, x ∉ c :: dead) l).
        -- by rewrite delete_insert_eq.
        -- by rewrite insert_insert_eq.
      * cbn [active_connections]. by rewrite lookup_insert_eq.
      * rewrite <- Hrem. by apply NoDup_filter.
      * done.
      * exact Hsub'.
      * by rewrite Hd.
Qed.

Lemma filter_ext_in (P Q : WebSocket → Prop) `{∀ x, Decision (P x)}
    `{∀ x, Decision (Q x)} (l : list WebSocket) :
  (∀ x, x ∈ l → P x ↔ Q x) → filter P l = filter Q l.
Proof.
  induction l as [|y l IH]; intros Hext; [done|].
  assert (filter P l = filter Q l) as Hrest.
  { apply IH. intros x Hx. apply Hext. by right. }
  destruct (decide (P y)) as [Hy|Hy].
  - rewrite !filter_cons_True; [by rewrite Hrest|..]; [|done].
    apply Hext; [by left|done].
  - rewrite !filter_cons_False; [done|..]; [|done].
    intros HQ. apply Hy, Hext; [by left|done].
Qed.

Lemma dead_connections_spec send_text i (l dead : list WebSocket) :
  NoDup l →
  dead_connections send_text i l = Ok dead →
  dead ⊆ l ∧ NoDup dead
  ∧ filter (λ c, c ∉ dead) l = delivered send_text i l.
Proof.
  intros Hl. revert i dead.
  induction Hl as [|c rest Hc Hrest IH]; intros i dead Hdead.
  - injection Hdead as <-. split; [done|]. split; [constructor|done].
  - cbn [dead_connections delivered] in *.
    destruct (send_text i c).
    + destruct (IH _ _ Hdead) as (Hsub & Hnodup & Hfilter).
      split; [by intros x Hx; right; apply Hsub|]. split; [done|].
      rewrite filter_cons_True by (intros Hin; by apply Hc, Hsub).
      by rewrite Hfilter.
    + destruct (dead_connections send_text (S i) rest) as [dead'|e] eqn:Hd;
        [|done].
      injection Hdead as <-.
      destruct (IH _ _ Hd) as (Hsub & Hnodup & Hfilter).
      split; [|split].
      * intros x [->|Hx]%elem_of_cons; [by left|right; by apply Hsub].
      * apply NoDup_cons. split; [|done]. intros Hin. by apply Hc, Hsub.
      * rewrite filter_cons_False by (intros Hn; apply Hn; by left).
        rewrite <- Hfilter. apply filter_ext_in. intros x Hx.
        rewrite not_elem_of_cons. split; [tauto|]. intros Hn.
        split; [|done]. by intros ->.
    + done.
Qed.

Lemma filter_notin_nil (l : list WebSocket) :
  filter (λ c, c ∉ @nil WebSocket) l = l.
Proof.
  induction l as [|z l IH]; [done|].
  rewrite filter_cons_True by apply not_elem_of_nil. by rewrite IH.
Qed.

(** X22: [send_to_session] prunes exactly the connections that failed. For
    a session whose connections are pairwise distinct, and no other coroutine
    changing the manager meanwhile: when the call returns, the session's list
    is the connections whose send returned, in their order, and the session
    is removed when none did; when the task is cancelled during a send, the
    manager is left as it was. *)
Theorem send_to_session_prunes (self : ConnectionManager)
    (session_id : string) (send_text : nat → WebSocket → send_outcome)
    (connections : list WebSocket) :
  active_connections self !! session_id = Some connections →
  connections ≠ [] →
  NoDup connections →
  let after := send_to_session self session_id send_text in
  match after.1 with
  | Ok _ =>
      active_connections after.2
      = match delivered send_text 0 connections with
        | [] => delete session_id (active_connections self)
        | alive => <[session_id := alive]> (active_connections self)
        end
  | Raise _ => after.2 = self
  end.
Proof.
  intros Hget Hsome Hnodup after. unfold after, send_to_session.
  rewrite Hget.
  destruct (dead_connections send_text 0 connections) as [dead|e] eqn:Hdead;
    [|done].
  destruct (dead_connections_spec _ _ _ _ Hnodup Hdead)
    as (Hsub & Hdistinct & Hfilter).
  cbn [fst snd]. rewrite <- Hfilter.
  destruct dead as [|c dead].
  - rewrite filter_notin_nil. simpl.
    destruct connections; [done|]. by rewrite insert_id.
  - by apply disconnects_registry.
Qed.

Lemma send_to_session_prunes_witness :
  let self :=
    connect (connect (connect ConnectionManager_init 1%nat "s") 2%nat "s")
      3%nat "s" in
  let send_text := λ (i : nat) (c : WebSocket),
    if Nat.eqb c 2 then Failed else Sent in
  let after := send_to_session self "s" send_text in
  match after.1 with
  | Ok _ =>
      active_connections after.2
      = match delivered send_text 0 [1%nat; 2%nat; 3%nat] with
        | [] => delete "s" (active_connections self)
        | alive => <["s" := alive]> (active_connections self)
        end
  | Raise _ => after.2 = self
  end.
Proof.
  intros self send_text.
  apply (send_to_session_prunes self "s" send_text [1%nat; 2%nat; 3%nat]).
  - reflexivity.
  - discriminate.
  - refine (bool_decide_unpack _ _). vm_compute. exact I.
Defined.

(** ** Connecting and disconnecting *)

Lemma list_remove_snoc x (l : list WebSocket) :
  x ∉ l → list_remove x (l ++ [x]) = Some l.
Proof.
  induction l as [|y l IH]; intros Hx; simpl.
  - by rewrite Nat.eqb_refl.
  - apply not_elem_of_cons in Hx as [Hne Hx].
    destruct (Nat.eqb_spec y x) as [->|_]; [done|]. by rewrite IH.
Qed.

(** X23: disconnecting undoes connecting. If the websocket is not yet
    among the connections of the session (and the session, if registered, has
    a connection), [connect] followed by [disconnect] gives back the manager
    as it was; in particular the session entry created for a first connection
    is removed again. *)
Theorem connect_then_disconnect (self : ConnectionManager)
    (websocket : WebSocket) (session_id : string) :
  active_connections self !! session_id ≠ Some [] →
  websocket ∉ default [] (active_connections self !! session_id) →
  disconnect (connect self websocket session_id) websocket session_id = self.
Proof.
  intros Hsome Hnew. unfold disconnect, connect. cbn [active_connections].
  rewrite lookup_insert_eq.
  destruct self as [m]. cbn [active_connections] in *.
  destruct (m !! session_id) as [l|] eqn:Hget; simpl in Hnew.
  - rewrite list_remove_snoc by done.
    destruct l as [|c l]; [done|]. f_equal.
    by rewrite insert_insert_eq, insert_id.
  - simpl. rewrite Nat.eqb_refl. f_equal.
    by rewrite delete_insert_eq, delete_id.
Qed.

Lemma connect_then_disconnect_witness :
  let self := connect ConnectionManager_init 1%nat "s" in
  disconnect (connect self 2%nat "s") 2%nat "s" = self.
Proof.
  intros self. apply (connect_then_disconnect self 2%nat "s").
  - discriminate.
  - simpl. intros Hin. apply list_elem_of_In in Hin.
    by destruct Hin as [|[]].
Defined.
